(** * Angular grid and boundary remapping tables of [RadBoundaryVariable]

    A shallow embedding of the constructor in
    [src/bvals/cc/rad/bvals_rad.cpp] and the properties of the angular
    quadrature grid, the unit-direction table and the reflection / polar
    remapping entries it builds.

    Numbers.  [Real] (a C++ [double]) is modelled by the real numbers
    extended with the three IEEE special values: arithmetic is carried out
    without rounding, but division by zero, [acos] outside [-1,1] and
    operations on infinities produce infinities and NaN as IEEE 754
    prescribes, and every comparison with a NaN is false.  The sign of zero
    is not modelled.  [int] is modelled by [Z]; index arithmetic stays far
    from the range where a 32-bit [int] would wrap. *)

From Stdlib Require Import Reals Lra Lia ZArith Bool List.
Import ListNotations.

Set Implicit Arguments.
Local Open Scope Z_scope.

(** ** Extended reals *)

Module XR.

Inductive Real : Type :=
| Fin (x : R)
| PInf
| NInf
| NaN.

Definition is_nan (a : Real) : bool :=
  match a with NaN => true | _ => false end.

Definition fneg (a : Real) : Real :=
  match a with
  | Fin x => Fin (- x)
  | PInf => NInf
  | NInf => PInf
  | NaN => NaN
  end.

Definition fadd (a b : Real) : Real :=
  match a, b with
  | NaN, _ | _, NaN => NaN
  | Fin x, Fin y => Fin (x + y)
  | PInf, NInf | NInf, PInf => NaN
  | PInf, _ | _, PInf => PInf
  | NInf, _ | _, NInf => NInf
  end.

Definition fsub (a b : Real) : Real := fadd a (fneg b).

(** The infinity carrying the sign of [x]; a zero [x] gives NaN (inf * 0). *)
Definition inf_scaled (x : R) : Real :=
  if Rlt_dec 0 x then PInf else if Rlt_dec x 0 then NInf else NaN.

Definition fmul (a b : Real) : Real :=
  match a, b with
  | NaN, _ | _, NaN => NaN
  | Fin x, Fin y => Fin (x * y)
  | PInf, Fin x | Fin x, PInf => inf_scaled x
  | NInf, Fin x | Fin x, NInf => inf_scaled (- x)
  | PInf, PInf | NInf, NInf => PInf
  | PInf, NInf | NInf, PInf => NInf
  end.

Definition fdiv (a b : Real) : Real :=
  match a, b with
  | NaN, _ | _, NaN => NaN
  | Fin x, Fin y =>
      if Req_dec_T y 0 then inf_scaled x else Fin (x / y)
  | Fin _, (PInf | NInf) => Fin 0
  | PInf, Fin y => if Rlt_dec y 0 then NInf else PInf
  | NInf, Fin y => if Rlt_dec y 0 then PInf else NInf
  | (PInf | NInf), (PInf | NInf) => NaN
  end.

Definition flt (a b : Real) : bool :=
  match a, b with
  | NaN, _ | _, NaN => false
  | Fin x, Fin y => if Rlt_dec x y then true else false
  | NInf, (Fin _ | PInf) => true
  | Fin _, PInf => true
  | _, _ => false
  end.

Definition fgt (a b : Real) : bool := flt b a.

Definition fcos (a : Real) : Real :=
  match a with Fin x => Fin (cos x) | _ => NaN end.

Definition fsin (a : Real) : Real :=
  match a with Fin x => Fin (sin x) | _ => NaN end.

(** [std::acos]: a domain error (argument outside [-1,1]) returns NaN. *)
Definition facos (a : Real) : Real :=
  match a with
  | Fin x =>
      if Rle_dec (-1) x then if Rle_dec x 1 then Fin (acos x) else NaN
      else NaN
  | _ => NaN
  end.

(** The angle of the point [(x, y)] in [(-PI, PI]]. *)
Definition atan2R (y x : R) : R :=
  if Rlt_dec 0 x then atan (y / x)
  else if Rlt_dec x 0 then
    if Rlt_dec y 0 then atan (y / x) - PI else atan (y / x) + PI
  else if Rlt_dec 0 y then PI / 2
  else if Rlt_dec y 0 then - (PI / 2)
  else 0.

(** [std::atan2 (y, x)]. *)
Definition fatan2 (a b : Real) : Real :=
  match a, b with
  | NaN, _ | _, NaN => NaN
  | Fin y, Fin x => Fin (atan2R y x)
  | Fin y, PInf => Fin 0
  | Fin y, NInf => if Rlt_dec y 0 then Fin (- PI) else Fin PI
  | PInf, Fin _ => Fin (PI / 2)
  | NInf, Fin _ => Fin (- (PI / 2))
  | PInf, PInf => Fin (PI / 4)
  | NInf, PInf => Fin (- (PI / 4))
  | PInf, NInf => Fin (3 * (PI / 4))
  | NInf, NInf => Fin (- (3 * (PI / 4)))
  end.

(** Conversion of an [int] to [Real]. *)
Definition of_int (n : Z) : Real := Fin (IZR n).

End XR.

Import XR.

Declare Scope xr_scope.
Delimit Scope xr_scope with xr.
Bind Scope xr_scope with Real.
Notation "a + b" := (fadd a b) : xr_scope.
Notation "a - b" := (fsub a b) : xr_scope.
Notation "a * b" := (fmul a b) : xr_scope.
Notation "a / b" := (fdiv a b) : xr_scope.
Notation "- a" := (fneg a) : xr_scope.
Notation "a >? b" := (fgt a b) (at level 70) : xr_scope.
Notation "a <? b" := (flt a b) (at level 70) : xr_scope.

(** The constant [PI] of [athena.hpp]. *)
Definition PI_ : Real := Fin PI.

(** ** Loops and arrays *)

(** [for (l = lo; l <= hi; ++l) body], as [n] iterations starting at [l]. *)
Fixpoint for_up {S : Type} (n : nat) (l : Z) (body : Z -> S -> S) (s : S) : S :=
  match n with
  | O => s
  | Datatypes.S k => for_up k (l + 1) body (body l s)
  end.

Definition for_loop {S : Type} (lo hi : Z) (body : Z -> S -> S) (s : S) : S :=
  for_up (Z.to_nat (hi + 1 - lo)) lo body s.

(** A one-dimensional [AthenaArray<Real>], addressed by its flat offset.
    [NewAthenaArray] value-initialises the storage, so a fresh array reads
    zero everywhere. *)
Definition array := Z -> Real.

Definition NewAthenaArray : array := fun _ => Fin 0.

Definition upd (a : array) (i : Z) (v : Real) : array :=
  fun j => if Z.eqb j i then v else a j.

(** ** The angular grid *)

Section AngularGrid.

(** [NGHOST_RAD] is a configuration macro of the code base; its definition is
    not part of the constructor, which only uses it as an integer constant. *)
Variable NGHOST_RAD : Z.
Variables nzeta npsi : Z.

Definition zs : Z := NGHOST_RAD.
Definition ze : Z := nzeta + NGHOST_RAD - 1.
Definition ps : Z := NGHOST_RAD.
Definition pe : Z := npsi + NGHOST_RAD - 1.
Definition nang : Z := (nzeta + 2 * NGHOST_RAD) * (npsi + 2 * NGHOST_RAD).

(** *** Polar faces, equally spaced in cosine *)

Definition dczeta : Real := (Fin (-2) / of_int nzeta)%xr.

Definition zetaf_active_body (l : Z) (zf : array) : array :=
  let czeta := (Fin 1 + of_int (l - NGHOST_RAD)%Z * dczeta)%xr in
  let zeta := facos czeta in
  let zf := upd zf l zeta in
  upd zf (ze + NGHOST_RAD + 1 - l) (PI_ - zeta)%xr.

Definition zetaf_ghost_body (l : Z) (zf : array) : array :=
  let zf := upd zf l (- zf (2 * NGHOST_RAD - l)%Z)%xr in
  upd zf (ze + NGHOST_RAD + 1 - l) (Fin 2 * PI_ - zf (nzeta + l)%Z)%xr.

Definition zetaf_poles : array :=
  upd (upd NewAthenaArray zs (Fin 0)) (ze + 1) PI_.

Definition zetaf_active : array :=
  for_loop (zs + 1) (Z.quot (nzeta - 1) 2 + NGHOST_RAD)
    zetaf_active_body zetaf_poles.

Definition zetaf_equator : array :=
  if Z.eqb (Z.rem nzeta 2) 0
  then upd zetaf_active (Z.quot nzeta 2 + NGHOST_RAD) (PI_ / Fin 2)%xr
  else zetaf_active.

Definition zetaf : array :=
  for_loop (zs - NGHOST_RAD) (zs - 1) zetaf_ghost_body zetaf_equator.

(** *** Polar centres and spacings *)

Definition zetav_body (l : Z) (s : array * array) : array * array :=
  let (zv, dzf) := s in
  (upd zv l
     ((zetaf (l + 1)%Z * fcos (zetaf (l + 1)%Z) - fsin (zetaf (l + 1)%Z)
       - zetaf l * fcos (zetaf l) + fsin (zetaf l))
      / (fcos (zetaf (l + 1)%Z) - fcos (zetaf l)))%xr,
   upd dzf l (zetaf (l + 1)%Z - zetaf l)%xr).

Definition zeta_centres : array * array :=
  for_loop (zs - NGHOST_RAD) (ze + NGHOST_RAD) zetav_body
    (NewAthenaArray, NewAthenaArray).

Definition zetav : array := fst zeta_centres.
Definition dzetaf : array := snd zeta_centres.

(** *** Azimuthal faces, equally spaced *)

Definition dpsi : Real := (Fin 2 * PI_ / of_int npsi)%xr.

Definition psif_origin : array :=
  upd (upd NewAthenaArray ps (Fin 0)) (pe + 1) (Fin 2 * PI_)%xr.

Definition psif_active_body (m : Z) (pf : array) : array :=
  upd pf m (of_int (m - NGHOST_RAD)%Z * dpsi)%xr.

Definition psif_active : array :=
  for_loop (ps + 1) pe psif_active_body psif_origin.

Definition psif_ghost_body (m : Z) (pf : array) : array :=
  let pf := upd pf m (pf (npsi + m)%Z - Fin 2 * PI_)%xr in
  upd pf (pe + NGHOST_RAD + 1 - m) (pf (2 * NGHOST_RAD - m)%Z + Fin 2 * PI_)%xr.

Definition psif : array :=
  for_loop (ps - NGHOST_RAD) (ps - 1) psif_ghost_body psif_active.

Definition psiv_body (m : Z) (s : array * array) : array * array :=
  let (pv, dpf) := s in
  (upd pv m (Fin (1/2) * (psif m + psif (m + 1)%Z))%xr,
   upd dpf m (psif (m + 1)%Z - psif m)%xr).

Definition psi_centres : array * array :=
  for_loop (ps - NGHOST_RAD) (pe + NGHOST_RAD) psiv_body
    (NewAthenaArray, NewAthenaArray).

Definition psiv : array := fst psi_centres.
Definition dpsif : array := snd psi_centres.

End AngularGrid.

(** ** Linear bin index and the unit-direction table *)

(** Modelled from the spec: [AngleInd] is a member declared in the class
    header, outside the constructor; the specification gives it as
    [(m - m_min) + (l - l_min) * psi_extent] over the padded index ranges,
    which start at zero and whose azimuthal extent is
    [npsi + 2 * NGHOST_RAD]. *)
Definition AngleInd (NGHOST_RAD npsi l m : Z) : Z :=
  (m - 0) + (l - 0) * (npsi + 2 * NGHOST_RAD).

(** The literal [0.816496580927726]. *)
Definition iso_factor : R := (816496580927726 / 1000000000000000)%R.

Section UnitDirections.

(** [nh_g] is an [AthenaArray] allocated with two dimensions [(4, nang)].
    The container's [operator()] overloads are declared outside the
    constructor; [idx2 p lm] and [idx3 n j i] stand for the flat offsets its
    two-index and three-index overloads address in this array.  The array
    is the map of its flat offsets: an offset that is none of the
    [idx2 p lm] stands for memory outside the [4 * nang] cells, and a store
    through it leaves every cell of the array as it was. *)
Variable idx2 : Z -> Z -> Z.
Variable idx3 : Z -> Z -> Z -> Z.

Variable NGHOST_RAD : Z.
Variables nzeta npsi : Z.

Definition nh_g_body (l m : Z) (nh : array) : array :=
  let lm := AngleInd NGHOST_RAD npsi l m in
  let nh := upd nh (idx2 0 lm) (Fin 1) in
  let nh := upd nh (idx2 1 lm)
              (fsin (zetav NGHOST_RAD nzeta l)
               * fcos (psiv NGHOST_RAD npsi m))%xr in
  let nh := upd nh (idx2 2 lm)
              (fsin (zetav NGHOST_RAD nzeta l)
               * fsin (psiv NGHOST_RAD npsi m))%xr in
  let nh := upd nh (idx2 3 lm) (fcos (zetav NGHOST_RAD nzeta l)) in
  if nzeta =? 1 then
    let nh := upd nh (idx3 1 l m) (nh (idx3 1 l m) * Fin iso_factor)%xr in
    upd nh (idx3 2 l m) (nh (idx3 2 l m) * Fin iso_factor)%xr
  else nh.

Definition nh_g : array :=
  for_loop (zs NGHOST_RAD - NGHOST_RAD) (ze NGHOST_RAD nzeta + NGHOST_RAD)
    (fun l nh =>
       for_loop (ps NGHOST_RAD - NGHOST_RAD) (pe NGHOST_RAD npsi + NGHOST_RAD)
         (fun m nh => nh_g_body l m nh) nh)
    NewAthenaArray.

(** The value the assignments of one iteration give to component [p]. *)
Definition nh_assigned (p l m : Z) : Real :=
  if p =? 0 then Fin 1
  else if p =? 1 then
    (fsin (zetav NGHOST_RAD nzeta l) * fcos (psiv NGHOST_RAD npsi m))%xr
  else if p =? 2 then
    (fsin (zetav NGHOST_RAD nzeta l) * fsin (psiv NGHOST_RAD npsi m))%xr
  else fcos (zetav NGHOST_RAD nzeta l).

Definition in_padded (l m : Z) : Prop :=
  0 <= l < nzeta + 2 * NGHOST_RAD /\ 0 <= m < npsi + 2 * NGHOST_RAD.

(** The two-index cells of the table are distinct from one another ... *)
Definition idx2_injective : Prop :=
  forall p lm p' lm',
    0 <= p < 4 -> 0 <= p' < 4 -> 0 <= lm < nang NGHOST_RAD nzeta npsi ->
    0 <= lm' < nang NGHOST_RAD nzeta npsi ->
    idx2 p lm = idx2 p' lm' -> p = p' /\ lm = lm'.

(** ... and none of them is what a three-index access with first index 1 or
    2 addresses. *)
Definition idx3_apart : Prop :=
  forall n l m p lm,
    1 <= n <= 2 -> in_padded l m ->
    0 <= p < 4 -> 0 <= lm < nang NGHOST_RAD nzeta npsi ->
    idx3 n l m <> idx2 p lm.

End UnitDirections.

(** ** One remapping entry *)

(** A 4x4 [AthenaArray] such as [e_g] or [e_cov_a], read as [e (p, n)], and a
    local [Real x[4]]. *)
Definition mat := Z -> Z -> Real.
Definition vec := Z -> Real.

Definition zero_mat : mat := fun _ _ => Fin 0.
Definition zero_vec : vec := fun _ => Fin 0.

(** Four target bins and four weights: the slots [0..3] of the [ind] and
    [frac] arrays of one ghost cell and one source bin. *)
Record RemapEntry : Type := mkEntry {
  ind0 : Z; ind1 : Z; ind2 : Z; ind3 : Z;
  frac0 : Real; frac1 : Real; frac2 : Real; frac3 : Real
}.

(** The ways in which table construction could end.  The constructor has no
    [throw] and no status return, so the embedding only ever produces
    [Emitted]; the error kinds are those the specification names. *)
Inductive BuildError : Type :=
| ConfigurationError
| DegenerateFrame
| AngleBracketNotFound.

Inductive Outcome : Type :=
| Emitted (e : RemapEntry)
| Raised (err : BuildError).

(** [for (x = lo; x <= hi; ++x) if (c(x) > a) break;] leaves [x] at the first
    position whose centre exceeds [a], or at [hi + 1]. *)
Fixpoint scan_up (n : nat) (x : Z) (c : array) (a : Real) : Z :=
  match n with
  | O => x
  | Datatypes.S k => if (c x >? a)%xr then x else scan_up k (x + 1) c a
  end.

Definition bracket (lo hi : Z) (c : array) (a : Real) : Z :=
  scan_up (Z.to_nat (hi + 1 - lo)) lo c a.

(** [n_g[n] += e_g(p,n) * nh_g(p,lm_g)] over [n] and [p]. *)
Definition coordinate_components (e_g : mat) (nh : vec) : vec :=
  for_loop 0 3
    (fun n v => for_loop 0 3 (fun p v => upd v n (v n + e_g p n * nh p)%xr) v)
    zero_vec.

(** The copy [n_a[n] = n_g[n]] followed by [n_a[c] *= -1.0] for each flipped
    component [c], in order. *)
Definition transformed_components (flips : list Z) (n_g : vec) : vec :=
  let n_a := for_loop 0 3 (fun n v => upd v n (n_g n)) zero_vec in
  fold_left (fun v c => upd v c (v c * Fin (-1))%xr) flips n_a.

(** [nh_a[n] += e_cov_a(n,p) * n_a[p]] over [n] and [p], then
    [nh_a[0] *= -1.0]. *)
Definition tetrad_components (e_cov_a : mat) (n_a : vec) : vec :=
  let nh_a :=
    for_loop 0 3
      (fun n v => for_loop 0 3 (fun p v => upd v n (v n + e_cov_a n p * n_a p)%xr) v)
      zero_vec in
  upd nh_a 0 (nh_a 0 * Fin (-1))%xr.

Definition zeta_of (nh_a : vec) : Real := facos (nh_a 3 / nh_a 0)%xr.

Definition psi_of (nh_a : vec) : Real :=
  let psi_a := fatan2 (nh_a 2) (nh_a 1) in
  (psi_a + (if (psi_a <? Fin 0)%xr then (Fin 2 * PI_)%xr else Fin 0))%xr.

Section RemapEntries.

Variable NGHOST_RAD : Z.
Variables nzeta npsi : Z.

Let zv := zetav NGHOST_RAD nzeta.
Let dzf := dzetaf NGHOST_RAD nzeta.
Let pv := psiv NGHOST_RAD npsi.
Let dpf := dpsif NGHOST_RAD npsi.

Definition l_of (zeta_a : Real) : Z :=
  bracket (zs NGHOST_RAD - 1) (ze NGHOST_RAD nzeta + 1) zv zeta_a.

Definition m_of (psi_a : Real) : Z :=
  bracket (ps NGHOST_RAD - 1) (pe NGHOST_RAD npsi + 1) pv psi_a.

Definition frac_l_of (zeta_a : Real) : Real :=
  let l_a := l_of zeta_a in
  ((zeta_a - zv (l_a - 1)%Z) / dzf (l_a - 1)%Z)%xr.

Definition frac_m_of (psi_a : Real) : Real :=
  let m_a := m_of psi_a in
  ((psi_a - pv (m_a - 1)%Z) / dpf (m_a - 1)%Z)%xr.

(** The bracket search and the bilinear weights for the angles
    [(zeta_a, psi_a)]. *)
Definition interpolate (zeta_a psi_a : Real) : RemapEntry :=
  let l_a := l_of zeta_a in
  let m_a := m_of psi_a in
  let frac_l := frac_l_of zeta_a in
  let frac_m := frac_m_of psi_a in
  {| ind0 := AngleInd NGHOST_RAD npsi (l_a - 1) (m_a - 1);
     ind1 := AngleInd NGHOST_RAD npsi (l_a - 1) m_a;
     ind2 := AngleInd NGHOST_RAD npsi l_a (m_a - 1);
     ind3 := AngleInd NGHOST_RAD npsi l_a m_a;
     frac0 := ((Fin 1 - frac_l) * (Fin 1 - frac_m))%xr;
     frac1 := ((Fin 1 - frac_l) * frac_m)%xr;
     frac2 := (frac_l * (Fin 1 - frac_m))%xr;
     frac3 := (frac_l * frac_m)%xr |}.

(** The body of the loop over [lm_g], common to the six reflection blocks and
    the two polar blocks: [nh] is the column [nh_g (., lm_g)], [e_g] the
    tetrad read for the ghost direction, [e_cov_a] the dual tetrad read for
    the back-conversion, and [flips] the components negated in between. *)
Definition transformed_direction (e_g e_cov_a : mat) (flips : list Z) (nh : vec)
  : vec :=
  tetrad_components e_cov_a
    (transformed_components flips (coordinate_components e_g nh)).

Definition remap_entry (e_g e_cov_a : mat) (flips : list Z) (nh : vec)
  : RemapEntry :=
  let nh_a := transformed_direction e_g e_cov_a flips nh in
  interpolate (zeta_of nh_a) (psi_of nh_a).

Definition build_entry (e_g e_cov_a : mat) (flips : list Z) (nh : vec)
  : Outcome :=
  Emitted (remap_entry e_g e_cov_a flips nh).

End RemapEntries.

(** ** The table-building blocks of the constructor *)

(** Modelled from the spec: the enumeration of boundary kinds is declared in
    [bvals_interfaces.hpp], outside the constructor; the specification lists
    the kinds reflecting, polar, periodic, inter-block and user.  The
    constructor compares against [reflect] and [polar] only. *)
Inductive BoundaryFlag : Type :=
| block | user | periodic | reflect | polar.

Inductive BoundaryFace : Type :=
| inner_x1 | outer_x1 | inner_x2 | outer_x2 | inner_x3 | outer_x3.

Definition flag_eqb (a b : BoundaryFlag) : bool :=
  match a, b with
  | block, block | user, user | periodic, periodic
  | reflect, reflect | polar, polar => true
  | _, _ => false
  end.

(** The temporaries [e_g], [e_cov_g], [e_a], [e_cov_a] declared once before
    the blocks and shared by all of them ([omega_g], [omega_a] are never
    read). *)
Record Temps : Type := mkTemps {
  e_g : mat; e_cov_g : mat; e_a : mat; e_cov_a : mat
}.

Definition new_temps : Temps := mkTemps zero_mat zero_mat zero_mat zero_mat.

(** An [ind]/[frac] pair of five-dimensional arrays, read per source bin and
    per ghost cell [(lm_g, a, b, c)], where [a], [b], [c] are the three
    spatial loop variables from the outermost inwards. *)
Definition Table := Z -> Z -> Z -> Z -> RemapEntry.

Definition zero_entry : RemapEntry :=
  mkEntry 0 0 0 0 (Fin 0) (Fin 0) (Fin 0) (Fin 0).

Definition new_table : Table := fun _ _ _ _ => zero_entry.

Definition store (tab : Table) (lm a b c : Z) (e : RemapEntry) : Table :=
  fun lm' a' b' c' =>
    if (lm' =? lm) && (a' =? a) && (b' =? b) && (c' =? c) then e
    else tab lm' a' b' c'.

Section Constructor.

Variable NGHOST_RAD : Z.
Variable NGHOST : Z.
Variables nzeta npsi : Z.

(** The mesh block: boundary kinds, index bounds, cell-centre coordinates
    and the tetrad provider (which returns the tetrad and its dual). *)
Variable block_bcs : BoundaryFace -> BoundaryFlag.
Variables is_ ie js je ks ke : Z.
Variables x1v x2v x3v : Z -> Real.
Variable Tetrad : Real -> Real -> Real -> mat * mat.

(** The unit-direction table, read as [nh_g (p, lm)]. *)
Variable nh_g2 : Z -> Z -> Real.

Definition il : Z := is_ - NGHOST.
Definition iu : Z := ie + NGHOST.
Definition jl : Z := if js =? je then js else js - NGHOST.
Definition ju : Z := if js =? je then je else je + NGHOST.
Definition kl : Z := if ks =? ke then ks else ks - NGHOST.
Definition ku : Z := if ks =? ke then ke else ke + NGHOST.

(** [Tetrad (x1, x2, x3, e_g, e_cov_g, omega_g)] *)
Definition Tetrad_g (x1 x2 x3 : Real) (t : Temps) : Temps :=
  let (e, e_cov) := Tetrad x1 x2 x3 in mkTemps e e_cov (e_a t) (e_cov_a t).

(** [Tetrad (x1, x2, x3, e_a, e_cov_a, omega_a)] *)
Definition Tetrad_a (x1 x2 x3 : Real) (t : Temps) : Temps :=
  let (e, e_cov) := Tetrad x1 x2 x3 in mkTemps (e_g t) (e_cov_g t) e e_cov.

(** The loop over [lm_g] at the ghost cell [(a, b, c)]. *)
Definition lm_loop (flips : list Z) (a b c : Z) (s : Temps * Table)
  : Temps * Table :=
  (fst s,
   for_loop 0 (nang NGHOST_RAD nzeta npsi - 1)
     (fun lm_g tab =>
        store tab lm_g a b c
          (remap_entry NGHOST_RAD nzeta npsi (e_g (fst s)) (e_cov_a (fst s))
             flips (fun p => nh_g2 p lm_g)))
     (snd s)).

(** Three nested spatial loops; [tetrads a b c] is the sequence of [Tetrad]
    calls made at the ghost cell before the loop over [lm_g]. *)
Definition face_block (alo ahi blo bhi clo chi : Z)
    (tetrads : Z -> Z -> Z -> Temps -> Temps) (flips : list Z)
    (s : Temps * Table) : Temps * Table :=
  for_loop alo ahi (fun a s =>
    for_loop blo bhi (fun b s =>
      for_loop clo chi (fun c s =>
        lm_loop flips a b c (tetrads a b c (fst s), snd s)) s) s) s.

Definition reflect_ix1 : Temps * Table -> Temps * Table :=
  face_block kl ku jl ju 0 (NGHOST - 1)
    (fun k j di t =>
       Tetrad_a (x1v (is_ + NGHOST - 1 - di)) (x2v j) (x3v k)
         (Tetrad_g (x1v (is_ - NGHOST + di)) (x2v j) (x3v k) t))
    [1].

Definition reflect_ox1 : Temps * Table -> Temps * Table :=
  face_block kl ku jl ju 0 (NGHOST - 1)
    (fun k j di t =>
       Tetrad_a (x1v (ie - di)) (x2v j) (x3v k)
         (Tetrad_g (x1v (ie + 1 + di)) (x2v j) (x3v k) t))
    [1].

Definition reflect_ix2 : Temps * Table -> Temps * Table :=
  face_block kl ku 0 (NGHOST - 1) il iu
    (fun k dj i t =>
       Tetrad_a (x1v i) (x2v (js + NGHOST - 1 - dj)) (x3v k)
         (Tetrad_g (x1v i) (x2v (js - NGHOST + dj)) (x3v k) t))
    [2].

Definition reflect_ox2 : Temps * Table -> Temps * Table :=
  face_block kl ku 0 (NGHOST - 1) il iu
    (fun k dj i t =>
       Tetrad_a (x1v i) (x2v (je - dj)) (x3v k)
         (Tetrad_g (x1v i) (x2v (je + 1 + dj)) (x3v k) t))
    [2].

Definition reflect_ix3 : Temps * Table -> Temps * Table :=
  face_block 0 (NGHOST - 1) jl ju il iu
    (fun dk j i t =>
       Tetrad_a (x1v i) (x2v j) (x3v (ks + NGHOST - 1 - dk))
         (Tetrad_g (x1v i) (x2v j) (x3v (ks - NGHOST + dk)) t))
    [3].

Definition reflect_ox3 : Temps * Table -> Temps * Table :=
  face_block 0 (NGHOST - 1) jl ju il iu
    (fun dk j i t =>
       Tetrad_a (x1v i) (x2v j) (x3v (ke - dk))
         (Tetrad_g (x1v i) (x2v j) (x3v (ke + 1 + dk)) t))
    [3].

(** The polar blocks call [Tetrad] once, for the ghost cell. *)
Definition polar_north : Temps * Table -> Temps * Table :=
  face_block kl ku 0 (NGHOST - 1) il iu
    (fun k dj i t => Tetrad_g (x1v i) (x2v (js - NGHOST + dj)) (x3v k) t)
    [2; 3].

Definition polar_south : Temps * Table -> Temps * Table :=
  face_block kl ku 0 (NGHOST - 1) il iu
    (fun k dj i t => Tetrad_g (x1v i) (x2v (je + 1 + dj)) (x3v k) t)
    [2; 3].

(** What the constructor leaves behind: each reflection table is [Some] when
    its [NewAthenaArray] calls were executed.  The polar tables are stored
    into without an allocation in this constructor; [polar_vals_] is the one
    array the polar branch allocates. *)
Record Built : Type := mkBuilt {
  reflect_ix1_ : option Table;
  reflect_ox1_ : option Table;
  reflect_ix2_ : option Table;
  reflect_ox2_ : option Table;
  reflect_ix3_ : option Table;
  reflect_ox3_ : option Table;
  polar_vals_ : bool;
  polar_north_ : option Table;
  polar_south_ : option Table;
  temps_ : Temps
}.

(** [if (flag) { allocate; fill }] *)
Definition guarded (flag : bool) (blk : Temps * Table -> Temps * Table)
    (t : Temps) : Temps * option Table :=
  if flag then let s := blk (t, new_table) in (fst s, Some (snd s))
  else (t, None).

Definition construct_tables : Built :=
  let t := new_temps in
  let (t, ix1) :=
    guarded (flag_eqb (block_bcs inner_x1) reflect) reflect_ix1 t in
  let (t, ox1) :=
    guarded (flag_eqb (block_bcs outer_x1) reflect) reflect_ox1 t in
  let (t, ix2) :=
    guarded (flag_eqb (block_bcs inner_x2) reflect) reflect_ix2 t in
  let (t, ox2) :=
    guarded (flag_eqb (block_bcs outer_x2) reflect) reflect_ox2 t in
  let (t, ix3) :=
    guarded (flag_eqb (block_bcs inner_x3) reflect) reflect_ix3 t in
  let (t, ox3) :=
    guarded (flag_eqb (block_bcs outer_x2) reflect) reflect_ox3 t in
  let pvals :=
    flag_eqb (block_bcs inner_x2) polar || flag_eqb (block_bcs outer_x2) polar in
  let (t, north) :=
    guarded (flag_eqb (block_bcs inner_x2) polar) polar_north t in
  let (t, south) :=
    guarded (flag_eqb (block_bcs outer_x2) polar) polar_south t in
  mkBuilt ix1 ox1 ix2 ox2 ix3 ox3 pvals north south t.

(** The reflection table the constructor holds for a face. *)
Definition reflect_table (f : BoundaryFace) : option Table :=
  match f with
  | inner_x1 => reflect_ix1_ construct_tables
  | outer_x1 => reflect_ox1_ construct_tables
  | inner_x2 => reflect_ix2_ construct_tables
  | outer_x2 => reflect_ox2_ construct_tables
  | inner_x3 => reflect_ix3_ construct_tables
  | outer_x3 => reflect_ox3_ construct_tables
  end.

End Constructor.

(** ** Reasoning about loops and array updates *)

Lemma for_up_inv {S : Type} (Inv : Z -> S -> Prop) (body : Z -> S -> S) :
  forall (n : nat) (lo : Z) (s : S),
    Inv lo s ->
    (forall l t, lo <= l < lo + Z.of_nat n -> Inv l t -> Inv (l + 1) (body l t)) ->
    Inv (lo + Z.of_nat n) (for_up n lo body s).
Proof.
  induction n as [|n IH]; intros lo s H0 Hstep; simpl for_up.
  - replace (lo + Z.of_nat 0) with lo by lia. exact H0.
  - replace (lo + Z.of_nat (Datatypes.S n)) with ((lo + 1) + Z.of_nat n) by lia.
    apply IH.
    + apply Hstep; [lia | exact H0].
    + intros l t Hl. apply Hstep. lia.
Qed.

Lemma for_loop_inv {S : Type} (Inv : Z -> S -> Prop) (body : Z -> S -> S)
      (lo hi : Z) (s : S) :
  lo <= hi + 1 ->
  Inv lo s ->
  (forall l t, lo <= l <= hi -> Inv l t -> Inv (l + 1) (body l t)) ->
  Inv (hi + 1) (for_loop lo hi body s).
Proof.
  intros Hle H0 Hstep. unfold for_loop.
  replace (hi + 1) with (lo + Z.of_nat (Z.to_nat (hi + 1 - lo))) at 1 by lia.
  apply for_up_inv; [exact H0 |].
  intros l t Hl. apply Hstep. lia.
Qed.

Lemma for_loop_empty {S : Type} (body : Z -> S -> S) (lo hi : Z) (s : S) :
  hi < lo -> for_loop lo hi body s = s.
Proof.
  intros H. unfold for_loop.
  replace (Z.to_nat (hi + 1 - lo)) with O by lia. reflexivity.
Qed.

Lemma upd_same (a : array) (i : Z) (v : Real) : upd a i v i = v.
Proof. unfold upd. now rewrite Z.eqb_refl. Qed.

Lemma upd_other (a : array) (i j : Z) (v : Real) : j <> i -> upd a i v j = a j.
Proof. intros H. unfold upd. apply Z.eqb_neq in H. now rewrite H. Qed.

(** A loop whose body stores, at the loop index, a value that depends on the
    index alone. *)
Lemma for_loop_write (f : Z -> Real) (lo hi : Z) (a : array) (i : Z) :
  for_loop lo hi (fun l zf => upd zf l (f l)) a i
  = if (lo <=? i) && (i <=? hi) then f i else a i.
Proof.
  destruct (Z_lt_le_dec hi lo) as [Hlt|Hle].
  - rewrite for_loop_empty by assumption.
    destruct (Z.leb_spec lo i), (Z.leb_spec i hi); simpl; try reflexivity; lia.
  - pose (Inv := fun (l : Z) (t : array) =>
        forall j, t j = if (lo <=? j) && (j <? l) then f j else a j).
    assert (H : Inv (hi + 1) (for_loop lo hi (fun l zf => upd zf l (f l)) a)).
    { apply for_loop_inv; [lia | |].
      - intros j. destruct (Z.leb_spec lo j), (Z.ltb_spec j lo); simpl;
          try reflexivity; lia.
      - intros l t Hl Ht j. destruct (Z.eq_dec j l) as [->|Hne].
        + rewrite upd_same.
          destruct (Z.leb_spec lo l), (Z.ltb_spec l (l + 1)); simpl;
            try reflexivity; lia.
        + rewrite upd_other by assumption. rewrite Ht.
          destruct (Z.leb_spec lo j), (Z.ltb_spec j l), (Z.ltb_spec j (l + 1));
            simpl; try reflexivity; lia. }
    rewrite (H i).
    destruct (Z.leb_spec lo i), (Z.ltb_spec i (hi + 1)), (Z.leb_spec i hi);
      simpl; try reflexivity; lia.
Qed.

(** The two-array loops that fill the centres and the spacings. *)
Lemma for_loop_write2 (f g : Z -> Real) (lo hi : Z) (a b : array) :
  for_loop lo hi (fun l (s : array * array) =>
                    let (x, y) := s in (upd x l (f l), upd y l (g l))) (a, b)
  = (for_loop lo hi (fun l zf => upd zf l (f l)) a,
     for_loop lo hi (fun l zf => upd zf l (g l)) b).
Proof.
  unfold for_loop. generalize (Z.to_nat (hi + 1 - lo)) as n.
  intros n. revert lo a b. induction n as [|n IH]; intros lo a b; simpl.
  - reflexivity.
  - apply IH.
Qed.

(** ** Centres of the angular cells *)

Lemma zetav_eq (G nzeta l : Z) :
  zs G - G <= l <= ze G nzeta + G ->
  zetav G nzeta l
  = ((zetaf G nzeta (l + 1)%Z * fcos (zetaf G nzeta (l + 1)%Z)
      - fsin (zetaf G nzeta (l + 1)%Z)
      - zetaf G nzeta l * fcos (zetaf G nzeta l) + fsin (zetaf G nzeta l))
     / (fcos (zetaf G nzeta (l + 1)%Z) - fcos (zetaf G nzeta l)))%xr.
Proof.
  intros Hl. unfold zetav, zeta_centres, zetav_body.
  rewrite for_loop_write2. cbn [fst]. rewrite for_loop_write.
  destruct (Z.leb_spec (zs G - G) l), (Z.leb_spec l (ze G nzeta + G));
    simpl; try reflexivity; lia.
Qed.

Lemma dzetaf_eq (G nzeta l : Z) :
  zs G - G <= l <= ze G nzeta + G ->
  dzetaf G nzeta l = (zetaf G nzeta (l + 1)%Z - zetaf G nzeta l)%xr.
Proof.
  intros Hl. unfold dzetaf, zeta_centres, zetav_body.
  rewrite for_loop_write2. cbn [snd]. rewrite for_loop_write.
  destruct (Z.leb_spec (zs G - G) l), (Z.leb_spec l (ze G nzeta + G));
    simpl; try reflexivity; lia.
Qed.

Lemma psiv_eq (G npsi m : Z) :
  ps G - G <= m <= pe G npsi + G ->
  psiv G npsi m = (Fin (1/2) * (psif G npsi m + psif G npsi (m + 1)%Z))%xr.
Proof.
  intros Hm. unfold psiv, psi_centres, psiv_body.
  rewrite for_loop_write2. cbn [fst]. rewrite for_loop_write.
  destruct (Z.leb_spec (ps G - G) m), (Z.leb_spec m (pe G npsi + G));
    simpl; try reflexivity; lia.
Qed.

Lemma dpsif_eq (G npsi m : Z) :
  ps G - G <= m <= pe G npsi + G ->
  dpsif G npsi m = (psif G npsi (m + 1)%Z - psif G npsi m)%xr.
Proof.
  intros Hm. unfold dpsif, psi_centres, psiv_body.
  rewrite for_loop_write2. cbn [snd]. rewrite for_loop_write.
  destruct (Z.leb_spec (ps G - G) m), (Z.leb_spec m (pe G npsi + G));
    simpl; try reflexivity; lia.
Qed.

(** ** The polar faces in closed form *)

(** The cosine of the [j]-th interior face, counted from the north pole. *)
Definition czetaR (nzeta j : Z) : R := (1 + IZR j * (-2 / IZR nzeta))%R.

Lemma czeta_val (nzeta j : Z) :
  nzeta <> 0 ->
  (Fin 1 + of_int j * dczeta nzeta)%xr = Fin (czetaR nzeta j).
Proof.
  intros Hn. unfold dczeta, of_int, fdiv, czetaR.
  destruct (Req_dec_T (IZR nzeta) 0) as [E|_].
  - apply eq_IZR in E. contradiction.
  - reflexivity.
Qed.

Lemma czetaR_ratio (nzeta j : Z) :
  1 <= nzeta -> czetaR nzeta j = (1 - 2 * (IZR j / IZR nzeta))%R.
Proof.
  intros Hn. unfold czetaR.
  assert (0 < IZR nzeta)%R by (apply IZR_lt; lia).
  field. lra.
Qed.

Lemma czetaR_bounds (nzeta j : Z) :
  1 <= nzeta -> 0 <= j <= nzeta -> (-1 <= czetaR nzeta j <= 1)%R.
Proof.
  intros Hn Hj. rewrite czetaR_ratio by assumption.
  assert (Hpos : (0 < IZR nzeta)%R) by (apply IZR_lt; lia).
  assert (H0 : (0 <= IZR j)%R) by (apply IZR_le; lia).
  assert (H1 : (IZR j <= IZR nzeta)%R) by (apply IZR_le; lia).
  assert (Hq0 : (0 <= IZR j / IZR nzeta)%R).
  { apply Rmult_le_pos; [assumption|]. left. now apply Rinv_0_lt_compat. }
  assert (Hq1 : (IZR j / IZR nzeta <= 1)%R).
  { apply Rmult_le_reg_r with (IZR nzeta); [assumption|].
    unfold Rdiv. rewrite Rmult_assoc, Rinv_l by lra. lra. }
  lra.
Qed.

Lemma czetaR_decr (nzeta j k : Z) :
  1 <= nzeta -> j < k -> (czetaR nzeta k < czetaR nzeta j)%R.
Proof.
  intros Hn Hjk. rewrite !czetaR_ratio by assumption.
  assert (Hpos : (0 < IZR nzeta)%R) by (apply IZR_lt; lia).
  assert (H : (IZR j < IZR k)%R) by (apply IZR_lt; lia).
  assert (IZR j / IZR nzeta < IZR k / IZR nzeta)%R.
  { unfold Rdiv. apply Rmult_lt_compat_r; [now apply Rinv_0_lt_compat | assumption]. }
  lra.
Qed.

Lemma czetaR_mirror (nzeta j : Z) :
  1 <= nzeta -> czetaR nzeta (nzeta - j) = (- czetaR nzeta j)%R.
Proof.
  intros Hn. unfold czetaR. rewrite minus_IZR.
  assert (0 < IZR nzeta)%R by (apply IZR_lt; lia).
  field. lra.
Qed.

Lemma czetaR_0 (nzeta : Z) : czetaR nzeta 0 = 1%R.
Proof. unfold czetaR. simpl. lra. Qed.

Lemma czetaR_n (nzeta : Z) : 1 <= nzeta -> czetaR nzeta nzeta = (-1)%R.
Proof.
  intros Hn. replace nzeta with (nzeta - 0) at 2 by lia.
  rewrite czetaR_mirror, czetaR_0 by assumption. reflexivity.
Qed.

Lemma czetaR_half (nzeta : Z) :
  1 <= nzeta -> Z.rem nzeta 2 = 0 -> czetaR nzeta (Z.quot nzeta 2) = 0%R.
Proof.
  intros Hn Hr.
  assert (E : nzeta = 2 * Z.quot nzeta 2).
  { pose proof (Z.quot_rem' nzeta 2). lia. }
  rewrite czetaR_ratio by assumption.
  assert (Hpos : (0 < IZR nzeta)%R) by (apply IZR_lt; lia).
  assert (E' : IZR nzeta = (2 * IZR (Z.quot nzeta 2))%R).
  { rewrite E at 1. now rewrite mult_IZR. }
  field_simplify; [| lra]. rewrite E' at 1.
  unfold Rdiv. replace (2 * IZR (nzeta ÷ 2) - 2 * IZR (nzeta ÷ 2))%R with 0%R by ring.
  ring.
Qed.

Lemma facos_fin (x : R) : (-1 <= x <= 1)%R -> facos (Fin x) = Fin (acos x).
Proof.
  intros [H1 H2]. unfold facos.
  destruct (Rle_dec (-1) x); [| contradiction].
  destruct (Rle_dec x 1); [reflexivity | contradiction].
Qed.

Lemma acos_decr (x y : R) :
  (-1 <= x)%R -> (x < y)%R -> (y <= 1)%R -> (acos y < acos x)%R.
Proof.
  intros Hx Hxy Hy.
  pose proof (acos_bound x) as [Hx0 Hx1].
  pose proof (acos_bound y) as [Hy0 Hy1].
  apply cos_decreasing_0; try assumption.
  rewrite !cos_acos by lra. assumption.
Qed.

Lemma acos_m1 : acos (-1) = PI.
Proof.
  replace (-1)%R with (- (1))%R by lra. rewrite acos_opp, acos_1. lra.
Qed.

Section PolarFaces.

Variables G nzeta : Z.
Hypothesis Hn : 1 <= nzeta.
Hypothesis HG : 0 <= G <= nzeta.

Let h : Z := Z.quot (nzeta - 1) 2.

Lemma half_bounds : 0 <= h /\ 2 * h <= nzeta - 1 /\ nzeta - 2 <= 2 * h.
Proof.
  unfold h. rewrite Z.quot_div_nonneg by lia.
  pose proof (Z.div_mod (nzeta - 1) 2 ltac:(lia)).
  pose proof (Z.mod_pos_bound (nzeta - 1) 2 ltac:(lia)). lia.
Qed.

Lemma zetaf_poles_eq (i : Z) :
  zetaf_poles G nzeta i
  = if i =? nzeta + G then PI_ else if i =? G then Fin 0 else Fin 0.
Proof.
  unfold zetaf_poles, upd, zs, ze, NewAthenaArray.
  replace (nzeta + G - 1 + 1) with (nzeta + G) by lia. reflexivity.
Qed.

(** The loop over the northern active faces and their southern mirrors. *)
Lemma zetaf_active_spec :
  (forall i, G + 1 <= i <= h + G ->
     zetaf_active G nzeta i = Fin (acos (czetaR nzeta (i - G)))) /\
  (forall i, nzeta + G - h <= i <= nzeta + G - 1 ->
     zetaf_active G nzeta i = Fin (acos (czetaR nzeta (i - G)))) /\
  (forall i, ~ (G + 1 <= i <= h + G) ->
             ~ (nzeta + G - h <= i <= nzeta + G - 1) ->
     zetaf_active G nzeta i = zetaf_poles G nzeta i).
Proof.
  destruct half_bounds as (Hh0 & Hh1 & Hh2).
  pose (Inv := fun (l : Z) (a : array) =>
    (forall i, G + 1 <= i < l -> a i = Fin (acos (czetaR nzeta (i - G)))) /\
    (forall i, nzeta + 2 * G - l < i <= nzeta + G - 1 ->
       a i = Fin (acos (czetaR nzeta (i - G)))) /\
    (forall i, ~ (G + 1 <= i < l) ->
               ~ (nzeta + 2 * G - l < i <= nzeta + G - 1) ->
       a i = zetaf_poles G nzeta i)).
  assert (H : Inv (h + G + 1) (zetaf_active G nzeta)).
  { unfold zetaf_active. fold h. apply for_loop_inv.
    - unfold zs. lia.
    - unfold zs. repeat split; intros; lia.
    - unfold zs. intros l a Hl (I1 & I2 & I3).
      assert (Hbody : forall i, zetaf_active_body G nzeta l a i =
         if i =? nzeta + 2 * G - l then Fin (acos (czetaR nzeta (i - G)))
         else if i =? l then Fin (acos (czetaR nzeta (i - G))) else a i).
      { intros i. unfold zetaf_active_body, upd, ze.
        replace (nzeta + G - 1 + G + 1 - l) with (nzeta + 2 * G - l) by lia.
        rewrite czeta_val by lia.
        rewrite facos_fin by (apply czetaR_bounds; lia).
        destruct (Z.eqb_spec i (nzeta + 2 * G - l)) as [->|Hne].
        - unfold PI_, fsub, fneg, fadd. f_equal.
          replace (nzeta + 2 * G - l - G) with (nzeta - (l - G)) by lia.
          rewrite czetaR_mirror by lia. rewrite acos_opp. lra.
        - destruct (Z.eqb_spec i l) as [->|Hne']; reflexivity. }
      repeat split; intros i; rewrite Hbody.
      + intros Hi. destruct (Z.eqb_spec i (nzeta + 2 * G - l)); [reflexivity|].
        destruct (Z.eqb_spec i l); [reflexivity|]. apply I1. lia.
      + intros Hi. destruct (Z.eqb_spec i (nzeta + 2 * G - l)); [reflexivity|].
        destruct (Z.eqb_spec i l); [reflexivity|]. apply I2. lia.
      + intros N1 N2. destruct (Z.eqb_spec i (nzeta + 2 * G - l)); [lia|].
        destruct (Z.eqb_spec i l); [lia|]. apply I3; lia. }
  destruct H as (I1 & I2 & I3). repeat split; intros i.
  - intros Hi. apply I1. lia.
  - intros Hi. apply I2. lia.
  - intros N1 N2. apply I3; lia.
Qed.

(** Every interior face, the poles included. *)
Lemma zetaf_equator_interior (j : Z) :
  0 <= j <= nzeta ->
  zetaf_equator G nzeta (G + j) = Fin (acos (czetaR nzeta j)).
Proof.
  intros Hj.
  destruct half_bounds as (Hh0 & Hh1 & Hh2).
  destruct zetaf_active_spec as (A1 & A2 & A3).
  assert (Hact : forall j, 0 <= j <= nzeta -> ~ (Z.rem nzeta 2 = 0 /\ j = Z.quot nzeta 2) ->
     zetaf_active G nzeta (G + j) = Fin (acos (czetaR nzeta j))).
  { intros k Hk Hne.
    assert (Hq : Z.rem nzeta 2 = nzeta mod 2) by (apply Z.rem_mod_nonneg; lia).
    assert (Hd : Z.quot nzeta 2 = nzeta / 2) by (apply Z.quot_div_nonneg; lia).
    pose proof (Z.div_mod nzeta 2 ltac:(lia)).
    pose proof (Z.mod_pos_bound nzeta 2 ltac:(lia)).
    destruct (Z_le_gt_dec k 0).
    { assert (k = 0) by lia. subst k.
      rewrite A3 by lia. rewrite zetaf_poles_eq.
      destruct (Z.eqb_spec (G + 0) (nzeta + G)); [lia|].
      rewrite czetaR_0, acos_1. now destruct (G + 0 =? G). }
    destruct (Z_le_gt_dec nzeta k).
    { assert (k = nzeta) by lia. subst k.
      rewrite A3 by lia. rewrite zetaf_poles_eq.
      destruct (Z.eqb_spec (G + nzeta) (nzeta + G)); [|lia].
      rewrite czetaR_n, acos_m1 by lia. reflexivity. }
    destruct (Z_le_gt_dec k h).
    { rewrite A1 by lia. do 3 f_equal. lia. }
    destruct (Z_le_gt_dec (nzeta - h) k).
    { rewrite A2 by lia. do 3 f_equal. lia. }
    exfalso. apply Hne. lia. }
  unfold zetaf_equator.
  destruct (Z.eqb_spec (Z.rem nzeta 2) 0) as [Hr|Hr].
  - unfold upd. destruct (Z.eqb_spec (G + j) (Z.quot nzeta 2 + G)) as [E|E].
    + assert (j = Z.quot nzeta 2) by lia. subst j.
      rewrite czetaR_half, acos_0 by assumption.
      unfold PI_, fdiv. destruct (Req_dec_T 2 0); [lra | reflexivity].
    + apply Hact; [assumption|]. intros [_ Ej]. lia.
  - apply Hact; [assumption|]. intros [Ej _]. contradiction.
Qed.

(** The ghost loop mirrors interior faces through each pole. *)
Lemma zetaf_ghost_spec :
  (forall i, 0 <= i < G ->
     zetaf G nzeta i = (- zetaf_equator G nzeta (2 * G - i)%Z)%xr) /\
  (forall i, nzeta + G < i <= nzeta + 2 * G ->
     zetaf G nzeta i
     = (Fin 2 * PI_ - zetaf_equator G nzeta (2 * nzeta + 2 * G - i)%Z)%xr) /\
  (forall i, G <= i <= nzeta + G ->
     zetaf G nzeta i = zetaf_equator G nzeta i).
Proof.
  pose (Inv := fun (l : Z) (a : array) =>
    (forall i, 0 <= i < l ->
       a i = (- zetaf_equator G nzeta (2 * G - i)%Z)%xr) /\
    (forall i, nzeta + 2 * G - l < i <= nzeta + 2 * G ->
       a i = (Fin 2 * PI_ - zetaf_equator G nzeta (2 * nzeta + 2 * G - i)%Z)%xr) /\
    (forall i, G <= i <= nzeta + G -> a i = zetaf_equator G nzeta i)).
  assert (H : Inv (zs G - 1 + 1) (zetaf G nzeta)).
  { unfold zetaf. apply for_loop_inv.
    - unfold zs. lia.
    - unfold zs. repeat split; intros; lia.
    - unfold zs. intros l a Hl (I1 & I2 & I3).
      assert (Hbody : forall i, zetaf_ghost_body G nzeta l a i =
         if i =? nzeta + 2 * G - l
         then (Fin 2 * PI_ - zetaf_equator G nzeta (nzeta + l)%Z)%xr
         else if i =? l then (- zetaf_equator G nzeta (2 * G - l)%Z)%xr
         else a i).
      { intros i. unfold zetaf_ghost_body, ze.
        replace (nzeta + G - 1 + G + 1 - l) with (nzeta + 2 * G - l) by lia.
        unfold upd at 1.
        destruct (Z.eqb_spec i (nzeta + 2 * G - l)) as [->|Hne].
        - rewrite upd_other by lia. now rewrite I3 by lia.
        - unfold upd. destruct (Z.eqb_spec i l); [|reflexivity].
          now rewrite I3 by lia. }
      repeat split; intros i Hi; rewrite Hbody.
      + destruct (Z.eqb_spec i (nzeta + 2 * G - l)); [lia|].
        destruct (Z.eqb_spec i l) as [->|]; [reflexivity|]. apply I1. lia.
      + destruct (Z.eqb_spec i (nzeta + 2 * G - l)) as [->|].
        * replace (2 * nzeta + 2 * G - (nzeta + 2 * G - l)) with (nzeta + l)
            by lia.
          reflexivity.
        * destruct (Z.eqb_spec i l); [lia|]. apply I2. lia.
      + destruct (Z.eqb_spec i (nzeta + 2 * G - l)); [lia|].
        destruct (Z.eqb_spec i l); [lia|]. apply I3. lia. }
  unfold zs in H. destruct H as (I1 & I2 & I3). repeat split; intros i Hi.
  - apply I1. lia.
  - apply I2. lia.
  - apply I3. lia.
Qed.

(** The value of the face [j] places south of the north pole
    ([-G <= j <= nzeta + G]). *)
Definition zface (j : Z) : R :=
  if j <? 0 then (- acos (czetaR nzeta (- j)))%R
  else if j <=? nzeta then acos (czetaR nzeta j)
  else (2 * PI - acos (czetaR nzeta (2 * nzeta - j)))%R.

Lemma zetaf_closed_form (j : Z) :
  - G <= j <= nzeta + G -> zetaf G nzeta (G + j) = Fin (zface j).
Proof.
  intros Hj. destruct zetaf_ghost_spec as (Z1 & Z2 & Z3). unfold zface.
  destruct (Z.ltb_spec j 0).
  - rewrite Z1 by lia.
    replace (2 * G - (G + j)) with (G + - j) by lia.
    rewrite zetaf_equator_interior by lia. reflexivity.
  - destruct (Z.leb_spec j nzeta).
    + rewrite Z3 by lia. apply zetaf_equator_interior. lia.
    + rewrite Z2 by lia.
      replace (2 * nzeta + 2 * G - (G + j)) with (G + (2 * nzeta - j)) by lia.
      rewrite zetaf_equator_interior by lia.
      unfold PI_, fmul, fsub, fneg, fadd. f_equal.
Qed.

Lemma zface_incr (j k : Z) :
  - nzeta <= j -> j < k -> k <= 2 * nzeta -> (zface j < zface k)%R.
Proof.
  intros Hj Hjk Hk. unfold zface.
  pose proof PI_RGT_0 as Hpi.
  assert (Hb : forall i, 0 <= i <= nzeta -> (0 <= acos (czetaR nzeta i) <= PI)%R)
    by (intros; apply acos_bound).
  assert (Hpos : forall i, 0 < i <= nzeta -> (0 < acos (czetaR nzeta i))%R).
  { intros i Hi. rewrite <- acos_1, <- (czetaR_0 nzeta).
    apply acos_decr.
    - apply czetaR_bounds; lia.
    - apply czetaR_decr; lia.
    - rewrite czetaR_0. lra. }
  assert (Hlt : forall i, 0 <= i < nzeta -> (acos (czetaR nzeta i) < PI)%R).
  { intros i Hi. rewrite <- acos_m1. rewrite <- (czetaR_n Hn).
    apply acos_decr.
    - rewrite czetaR_n by lia. lra.
    - apply czetaR_decr; lia.
    - apply czetaR_bounds; lia. }
  assert (Hmono : forall a b, 0 <= a -> a < b -> b <= nzeta ->
            (acos (czetaR nzeta a) < acos (czetaR nzeta b))%R).
  { intros a b Ha Hab Hbn. apply acos_decr.
    - apply czetaR_bounds; lia.
    - apply czetaR_decr; lia.
    - apply czetaR_bounds; lia. }
  destruct (Z.ltb_spec j 0), (Z.ltb_spec k 0); try lia.
  - pose proof (Hmono (- k) (- j) ltac:(lia) ltac:(lia) ltac:(lia)). lra.
  - pose proof (Hpos (- j) ltac:(lia)).
    destruct (Z.leb_spec k nzeta).
    + pose proof (Hb k ltac:(lia)). lra.
    + pose proof (Hb (2 * nzeta - k) ltac:(lia)). lra.
  - destruct (Z.leb_spec j nzeta), (Z.leb_spec k nzeta); try lia.
    + apply Hmono; lia.
    + pose proof (Hb j ltac:(lia)).
      pose proof (Hlt (2 * nzeta - k) ltac:(lia)). lra.
    + pose proof (Hmono (2 * nzeta - k) (2 * nzeta - j)
                    ltac:(lia) ltac:(lia) ltac:(lia)). lra.
Qed.

End PolarFaces.

Lemma zface_interior (nzeta j : Z) :
  0 <= j <= nzeta -> zface nzeta j = acos (czetaR nzeta j).
Proof.
  intros Hj. unfold zface.
  destruct (Z.ltb_spec j 0); [lia|]. destruct (Z.leb_spec j nzeta); [|lia].
  reflexivity.
Qed.

Lemma zface_north (nzeta j : Z) :
  j < 0 -> zface nzeta j = (- acos (czetaR nzeta (- j)))%R.
Proof.
  intros Hj. unfold zface. destruct (Z.ltb_spec j 0); [|lia]. reflexivity.
Qed.

Lemma zface_south (nzeta j : Z) :
  nzeta < j -> 0 <= j ->
  zface nzeta j = (2 * PI - acos (czetaR nzeta (2 * nzeta - j)))%R.
Proof.
  intros Hj H0. unfold zface.
  destruct (Z.ltb_spec j 0); [lia|]. destruct (Z.leb_spec j nzeta); [lia|].
  reflexivity.
Qed.

(** Strict order between two finite values. *)
Definition fin_lt (a b : Real) : Prop :=
  exists x y : R, a = Fin x /\ b = Fin y /\ (x < y)%R.

(** ** The azimuthal faces in closed form *)

Section AzimuthalFaces.

Variables G npsi : Z.
Hypothesis Hn : 1 <= npsi.
Hypothesis HG : 0 <= G <= npsi.

Lemma dpsi_val : dpsi npsi = Fin (2 * PI / IZR npsi).
Proof.
  unfold dpsi, PI_, of_int, fmul, fdiv.
  destruct (Req_dec_T (IZR npsi) 0) as [E|_]; [|reflexivity].
  apply eq_IZR in E. lia.
Qed.

Lemma psif_active_eq (i : Z) :
  psif_active G npsi i
  = if (G + 1 <=? i) && (i <=? npsi + G - 1)
    then Fin (IZR (i - G) * (2 * PI / IZR npsi))
    else if i =? npsi + G then Fin (2 * PI)
    else Fin 0.
Proof.
  unfold psif_active, psif_active_body, ps, pe.
  rewrite for_loop_write. rewrite dpsi_val.
  destruct ((G + 1 <=? i) && (i <=? npsi + G - 1)); [reflexivity|].
  unfold psif_origin, upd, ps, pe, NewAthenaArray, PI_, fmul.
  replace (npsi + G - 1 + 1) with (npsi + G) by lia.
  destruct (i =? npsi + G); [reflexivity|]. now destruct (i =? G).
Qed.

Lemma psif_active_interior (j : Z) :
  0 <= j <= npsi ->
  psif_active G npsi (G + j) = Fin (IZR j * (2 * PI / IZR npsi)).
Proof.
  intros Hj. rewrite psif_active_eq.
  assert (Hpos : (0 < IZR npsi)%R) by (apply IZR_lt; lia).
  destruct (Z.leb_spec (G + 1) (G + j)), (Z.leb_spec (G + j) (npsi + G - 1));
    simpl.
  - do 3 f_equal. lia.
  - assert (j = npsi) by lia. subst j.
    destruct (Z.eqb_spec (G + npsi) (npsi + G)); [|lia].
    f_equal. field. lra.
  - assert (j = 0) by lia. subst j.
    destruct (Z.eqb_spec (G + 0) (npsi + G)); [lia|].
    f_equal. simpl. lra.
  - lia.
Qed.

(** The ghost loop copies interior faces across the seam. *)
Lemma psif_ghost_spec :
  (forall i, 0 <= i < G ->
     psif G npsi i = (psif_active G npsi (npsi + i)%Z - Fin 2 * PI_)%xr) /\
  (forall i, npsi + G < i <= npsi + 2 * G ->
     psif G npsi i = (psif_active G npsi (i - npsi)%Z + Fin 2 * PI_)%xr) /\
  (forall i, G <= i <= npsi + G -> psif G npsi i = psif_active G npsi i).
Proof.
  pose (Inv := fun (l : Z) (a : array) =>
    (forall i, 0 <= i < l ->
       a i = (psif_active G npsi (npsi + i)%Z - Fin 2 * PI_)%xr) /\
    (forall i, npsi + 2 * G - l < i <= npsi + 2 * G ->
       a i = (psif_active G npsi (i - npsi)%Z + Fin 2 * PI_)%xr) /\
    (forall i, G <= i <= npsi + G -> a i = psif_active G npsi i)).
  assert (H : Inv (ps G - 1 + 1) (psif G npsi)).
  { unfold psif. apply for_loop_inv.
    - unfold ps. lia.
    - unfold ps. repeat split; intros; lia.
    - unfold ps. intros l a Hl (I1 & I2 & I3).
      assert (Hbody : forall i, psif_ghost_body G npsi l a i =
         if i =? npsi + 2 * G - l
         then (psif_active G npsi (2 * G - l)%Z + Fin 2 * PI_)%xr
         else if i =? l then (psif_active G npsi (npsi + l)%Z - Fin 2 * PI_)%xr
         else a i).
      { intros i. unfold psif_ghost_body, pe.
        replace (npsi + G - 1 + G + 1 - l) with (npsi + 2 * G - l) by lia.
        unfold upd at 1.
        destruct (Z.eqb_spec i (npsi + 2 * G - l)) as [->|Hne].
        - rewrite upd_other by lia. now rewrite I3 by lia.
        - unfold upd. destruct (Z.eqb_spec i l); [|reflexivity].
          now rewrite I3 by lia. }
      repeat split; intros i Hi; rewrite Hbody.
      + destruct (Z.eqb_spec i (npsi + 2 * G - l)); [lia|].
        destruct (Z.eqb_spec i l) as [->|]; [reflexivity|]. apply I1. lia.
      + destruct (Z.eqb_spec i (npsi + 2 * G - l)) as [->|].
        * replace (npsi + 2 * G - l - npsi) with (2 * G - l) by lia.
          reflexivity.
        * destruct (Z.eqb_spec i l); [lia|]. apply I2. lia.
      + destruct (Z.eqb_spec i (npsi + 2 * G - l)); [lia|].
        destruct (Z.eqb_spec i l); [lia|]. apply I3. lia. }
  unfold ps in H. destruct H as (I1 & I2 & I3). repeat split; intros i Hi.
  - apply I1. lia.
  - apply I2. lia.
  - apply I3. lia.
Qed.

Lemma psif_closed_form (j : Z) :
  - G <= j <= npsi + G ->
  psif G npsi (G + j) = Fin (IZR j * (2 * PI / IZR npsi)).
Proof.
  intros Hj. destruct psif_ghost_spec as (P1 & P2 & P3).
  assert (Hpos : (0 < IZR npsi)%R) by (apply IZR_lt; lia).
  destruct (Z_lt_le_dec j 0).
  - rewrite P1 by lia.
    replace (npsi + (G + j)) with (G + (npsi + j)) by lia.
    rewrite psif_active_interior by lia.
    unfold PI_, fmul, fsub, fneg, fadd. f_equal.
    rewrite plus_IZR. field. lra.
  - destruct (Z_le_gt_dec j npsi).
    + rewrite P3 by lia. apply psif_active_interior. lia.
    + rewrite P2 by lia.
      replace (G + j - npsi) with (G + (j - npsi)) by lia.
      rewrite psif_active_interior by lia.
      unfold PI_, fmul, fadd. f_equal.
      rewrite minus_IZR. field. lra.
Qed.

End AzimuthalFaces.

(** ** The unit-direction table, cell by cell *)

Section UnitDirectionFacts.

Variable idx2 : Z -> Z -> Z.
Variable idx3 : Z -> Z -> Z -> Z.
Variable G : Z.
Variables nzeta npsi : Z.

Hypothesis Hnz : 1 <= nzeta.
Hypothesis Hnp : 1 <= npsi.
Hypothesis HG : 0 <= G.
Hypothesis Hinj : idx2_injective idx2 G nzeta npsi.
Hypothesis Hapart :
  nzeta = 1 -> idx3_apart idx2 idx3 G nzeta npsi.

Lemma AngleInd_range (l m : Z) :
  in_padded G nzeta npsi l m ->
  0 <= AngleInd G npsi l m < nang G nzeta npsi.
Proof.
  unfold in_padded, AngleInd, nang. intros [Hl Hm]. nia.
Qed.

Lemma AngleInd_inj (l m l' m' : Z) :
  in_padded G nzeta npsi l m -> in_padded G nzeta npsi l' m' ->
  AngleInd G npsi l m = AngleInd G npsi l' m' ->
  l = l' /\ m = m'.
Proof.
  unfold in_padded, AngleInd. intros [Hl Hm] [Hl' Hm'] E.
  assert (l = l') by nia. subst l'. split; [reflexivity | lia].
Qed.

(** One iteration stores the four assigned components of its own bin and
    leaves the two-index cells of every other bin as they were. *)
Lemma nh_g_body_cell (l m : Z) (nh : array) (p l' m' : Z) :
  in_padded G nzeta npsi l m -> in_padded G nzeta npsi l' m' ->
  0 <= p < 4 ->
  nh_g_body idx2 idx3 G nzeta npsi l m nh (idx2 p (AngleInd G npsi l' m'))
  = if (l' =? l) && (m' =? m) then nh_assigned G nzeta npsi p l m
    else nh (idx2 p (AngleInd G npsi l' m')).
Proof.
  intros Hlm Hlm' Hp.
  pose proof (AngleInd_range Hlm) as Hr.
  pose proof (AngleInd_range Hlm') as Hr'.
  set (o := idx2 p (AngleInd G npsi l' m')).
  assert (H3 : nzeta = 1 -> forall n x (a : array), 1 <= n <= 2 ->
            upd a (idx3 n l m) x o = a o).
  { intros H1 n x a Hn. apply upd_other. intros E. symmetry in E.
    revert E. apply (Hapart H1); assumption. }
  assert (Hcore :
    upd (upd (upd (upd nh (idx2 0 (AngleInd G npsi l m)) (Fin 1))
                (idx2 1 (AngleInd G npsi l m))
                (fsin (zetav G nzeta l) * fcos (psiv G npsi m))%xr)
           (idx2 2 (AngleInd G npsi l m))
           (fsin (zetav G nzeta l) * fsin (psiv G npsi m))%xr)
      (idx2 3 (AngleInd G npsi l m)) (fcos (zetav G nzeta l)) o
    = if (l' =? l) && (m' =? m) then nh_assigned G nzeta npsi p l m else nh o).
  { destruct (Z.eqb_spec l' l) as [El|El];
      [destruct (Z.eqb_spec m' m) as [Em|Em]|]; simpl.
    - subst l' m'. unfold nh_assigned, o.
      assert (Hc : p = 0 \/ p = 1 \/ p = 2 \/ p = 3) by lia.
      assert (Hd : forall q, 0 <= q < 4 -> q <> p ->
                idx2 p (AngleInd G npsi l m)
                <> idx2 q (AngleInd G npsi l m)).
      { intros q Hq Hne E. apply Hinj in E; try assumption. lia. }
      destruct Hc as [ -> | [ -> | [ -> | -> ] ] ]; simpl;
        repeat first [ rewrite upd_same | rewrite upd_other by (apply Hd; lia) ];
        reflexivity.
    - assert (Hd : forall q, 0 <= q < 4 ->
                o <> idx2 q (AngleInd G npsi l m)).
      { intros q Hq E. apply Hinj in E; try assumption. destruct E as [_ E].
        apply AngleInd_inj in E; try assumption. lia. }
      rewrite !upd_other by (apply Hd; lia). reflexivity.
    - assert (Hd : forall q, 0 <= q < 4 ->
                o <> idx2 q (AngleInd G npsi l m)).
      { intros q Hq E. apply Hinj in E; try assumption. destruct E as [_ E].
        apply AngleInd_inj in E; try assumption. lia. }
      rewrite !upd_other by (apply Hd; lia). reflexivity. }
  unfold nh_g_body. destruct (Z.eqb_spec nzeta 1) as [H1|H1].
  - rewrite !(H3 H1) by lia. exact Hcore.
  - exact Hcore.
Qed.

(** The finished table: every two-index cell holds what its own iteration
    assigned, whatever [nzeta] is. *)
Lemma nh_g_cell (p l m : Z) :
  in_padded G nzeta npsi l m -> 0 <= p < 4 ->
  nh_g idx2 idx3 G nzeta npsi (idx2 p (AngleInd G npsi l m))
  = nh_assigned G nzeta npsi p l m.
Proof.
  intros Hlm Hp.
  set (L := nzeta + 2 * G). set (M := npsi + 2 * G).
  pose (Done := fun (l0 m0 : Z) (a : array) =>
    forall l' m',
      in_padded G nzeta npsi l' m' -> l' < l0 \/ (l' = l0 /\ m' < m0) ->
      a (idx2 p (AngleInd G npsi l' m')) = nh_assigned G nzeta npsi p l' m').
  assert (H : Done L 0 (nh_g idx2 idx3 G nzeta npsi)).
  { unfold nh_g, zs, ze, ps, pe.
    replace L with (nzeta + G - 1 + G + 1) by (unfold L; lia).
    apply (for_loop_inv (fun l0 a => Done l0 0 a)).
    - lia.
    - intros l' m' [Hl' Hm'] Hc. lia.
    - intros l0 a Hl0 Ha.
      assert (Hin : Done l0 M
        (for_loop (G - G) (npsi + G - 1 + G)
           (fun m nh => nh_g_body idx2 idx3 G nzeta npsi l0 m nh) a)).
      { replace M with (npsi + G - 1 + G + 1) by (unfold M; lia).
        apply (for_loop_inv (fun m0 a => Done l0 m0 a)).
        - lia.
        - replace (G - G) with 0 by lia. exact Ha.
        - intros m0 b Hm0 Hb l' m' Hlm' Hc.
          rewrite nh_g_body_cell; try assumption.
          2:{ unfold in_padded. lia. }
          destruct (Z.eqb_spec l' l0) as [El|El];
            [destruct (Z.eqb_spec m' m0) as [Em|Em]|]; simpl.
          + subst. reflexivity.
          + apply Hb; [assumption | lia].
          + apply Hb; [assumption | lia]. }
      intros l' m' Hlm' Hc. apply Hin; [assumption|].
      destruct Hlm' as [_ Hm']. fold M in Hm'. lia. }
  apply H; [assumption|]. destruct Hlm as [Hl _]. fold L in Hl. lia.
Qed.

End UnitDirectionFacts.

(** ** The centres in closed form *)

Section PolarCentres.

Variables G nzeta : Z.
Hypothesis Hnz : 1 <= nzeta.
Hypothesis HGz : 0 <= G <= nzeta.

(** The interior face whose cosine the face [j] shares. *)
Definition fold_face (j : Z) : Z :=
  if j <? 0 then - j else if j <=? nzeta then j else 2 * nzeta - j.

Lemma cos_zface (j : Z) :
  - nzeta <= j <= 2 * nzeta ->
  cos (zface nzeta j) = czetaR nzeta (fold_face j).
Proof.
  intros Hj. unfold zface, fold_face.
  destruct (Z.ltb_spec j 0).
  - rewrite cos_neg. apply cos_acos. apply czetaR_bounds; lia.
  - destruct (Z.leb_spec j nzeta).
    + apply cos_acos. apply czetaR_bounds; lia.
    + rewrite cos_minus, cos_2PI, sin_2PI.
      rewrite cos_acos by (apply czetaR_bounds; lia). ring.
Qed.

Lemma cos_zface_step (j : Z) :
  - nzeta <= j < 2 * nzeta ->
  (cos (zface nzeta (j + 1)) - cos (zface nzeta j) <> 0)%R.
Proof.
  intros Hj. rewrite !cos_zface by lia.
  unfold fold_face.
  destruct (Z.ltb_spec j 0), (Z.ltb_spec (j + 1) 0); try lia.
  - pose proof (@czetaR_decr nzeta (- (j + 1)) (- j) Hnz ltac:(lia)). lra.
  - destruct (Z.leb_spec (j + 1) nzeta); [|lia].
    pose proof (@czetaR_decr nzeta (j + 1) (- j) Hnz ltac:(lia)). lra.
  - destruct (Z.leb_spec j nzeta), (Z.leb_spec (j + 1) nzeta); try lia.
    + pose proof (@czetaR_decr nzeta j (j + 1) Hnz ltac:(lia)). lra.
    + pose proof (@czetaR_decr nzeta (2 * nzeta - (j + 1)) j Hnz ltac:(lia)). lra.
    + pose proof (@czetaR_decr nzeta (2 * nzeta - (j + 1)) (2 * nzeta - j)
                    Hnz ltac:(lia)). lra.
Qed.

(** The centre of the polar cell between the faces [j] and [j + 1]. *)
Definition zcentre (j : Z) : R :=
  ((zface nzeta (j + 1) * cos (zface nzeta (j + 1)) - sin (zface nzeta (j + 1))
    - zface nzeta j * cos (zface nzeta j) + sin (zface nzeta j))
   / (cos (zface nzeta (j + 1)) - cos (zface nzeta j)))%R.

Lemma zetav_closed_form (j : Z) :
  - G <= j <= nzeta + G - 1 ->
  zetav G nzeta (G + j) = Fin (zcentre j).
Proof.
  intros Hj. rewrite zetav_eq by (unfold zs, ze; lia).
  replace (G + j + 1) with (G + (j + 1)) by lia.
  rewrite !zetaf_closed_form by lia.
  unfold fcos, fsin, fmul, fsub, fneg, fadd, fdiv.
  destruct (Req_dec_T _ 0) as [E|_].
  - exfalso. revert E.
    replace (cos (zface nzeta (j + 1)) + - cos (zface nzeta j))%R
      with (cos (zface nzeta (j + 1)) - cos (zface nzeta j))%R by ring.
    apply cos_zface_step. lia.
  - reflexivity.
Qed.

Lemma dzetaf_closed_form (j : Z) :
  - G <= j <= nzeta + G - 1 ->
  dzetaf G nzeta (G + j) = Fin (zface nzeta (j + 1) - zface nzeta j).
Proof.
  intros Hj. rewrite dzetaf_eq by (unfold zs, ze; lia).
  replace (G + j + 1) with (G + (j + 1)) by lia.
  rewrite !zetaf_closed_form by lia. reflexivity.
Qed.

End PolarCentres.

Section AzimuthalCentres.

Variables G npsi : Z.
Hypothesis Hnp : 1 <= npsi.
Hypothesis HGp : 0 <= G <= npsi.

Lemma psiv_closed_form (j : Z) :
  - G <= j <= npsi + G - 1 ->
  psiv G npsi (G + j) = Fin ((IZR j + 1 / 2) * (2 * PI / IZR npsi)).
Proof.
  intros Hj. rewrite psiv_eq by (unfold ps, pe; lia).
  replace (G + j + 1) with (G + (j + 1)) by lia.
  rewrite !psif_closed_form by lia.
  unfold fmul, fadd. f_equal. rewrite plus_IZR.
  assert (0 < IZR npsi)%R by (apply IZR_lt; lia).
  field. lra.
Qed.

Lemma dpsif_closed_form (j : Z) :
  - G <= j <= npsi + G - 1 ->
  dpsif G npsi (G + j) = Fin (2 * PI / IZR npsi).
Proof.
  intros Hj. rewrite dpsif_eq by (unfold ps, pe; lia).
  replace (G + j + 1) with (G + (j + 1)) by lia.
  rewrite !psif_closed_form by lia.
  unfold fsub, fneg, fadd. f_equal. rewrite plus_IZR.
  assert (0 < IZR npsi)%R by (apply IZR_lt; lia).
  field. lra.
Qed.

End AzimuthalCentres.

(** * Properties *)

(** ** Allocation of the reflection tables *)

(** The face whose boundary kind guards the construction of the reflection
    table of face [f]. *)
Definition guard_face (f : BoundaryFace) : BoundaryFace :=
  match f with
  | outer_x3 => outer_x2
  | f => f
  end.

Lemma guarded_table (flag : bool) (blk : Temps * Table -> Temps * Table)
    (t t' : Temps) (r : option Table) :
  guarded flag blk t = (t', r) -> (r <> None <-> flag = true).
Proof.
  unfold guarded. destruct flag; intros E; injection E as _ <-; split;
    intros H; try reflexivity; try discriminate. now contradiction H.
Qed.

Lemma flag_eqb_eq (a b : BoundaryFlag) : flag_eqb a b = true <-> a = b.
Proof. destruct a, b; simpl; split; intros H; try reflexivity; discriminate. Qed.

Lemma reflect_table_guard
    (G NGHOST nzeta npsi : Z) (bcs : BoundaryFace -> BoundaryFlag)
    (is_ ie js je ks ke : Z) (x1v x2v x3v : Z -> Real)
    (Tetrad : Real -> Real -> Real -> mat * mat) (nh : Z -> Z -> Real)
    (f : BoundaryFace) :
  reflect_table G NGHOST nzeta npsi bcs is_ ie js je ks ke x1v x2v x3v Tetrad nh f
    <> None
  <-> bcs (guard_face f) = reflect.
Proof.
  rewrite <- flag_eqb_eq.
  unfold reflect_table, construct_tables.
  repeat match goal with
         | |- context [guarded ?fl ?b ?t] =>
             let E := fresh "E" in
             destruct (guarded fl b t) as [? ?] eqn:E;
             apply guarded_table in E
         end.
  destruct f; simpl; assumption.
Qed.

(** Every face periodic, except a reflecting outer-x3 face. *)
Definition bcs_reflect_ox3_only (f : BoundaryFace) : BoundaryFlag :=
  match f with outer_x3 => reflect | _ => periodic end.

(** Every face periodic, except a reflecting outer-x2 face. *)
Definition bcs_reflect_ox2_only (f : BoundaryFace) : BoundaryFlag :=
  match f with outer_x2 => reflect | _ => periodic end.

(** C1 (the code departs from the claim): the claim asks that the outer-x3
    reflection table exist exactly when the outer-x3 boundary is reflecting.
    The constructor tests the outer-x2 flag instead: with a reflecting
    outer-x3 face and a periodic outer-x2 face no outer-x3 table is built,
    and with a reflecting outer-x2 face and a periodic outer-x3 face one is
    built. *)
Theorem outer_x3_table_follows_outer_x2_flag
    (G NGHOST nzeta npsi : Z) (is_ ie js je ks ke : Z)
    (x1v x2v x3v : Z -> Real)
    (Tetrad : Real -> Real -> Real -> mat * mat) (nh : Z -> Z -> Real) :
  (bcs_reflect_ox3_only outer_x3 = reflect /\
   reflect_table G NGHOST nzeta npsi bcs_reflect_ox3_only
     is_ ie js je ks ke x1v x2v x3v Tetrad nh outer_x3 = None) /\
  (bcs_reflect_ox2_only outer_x3 <> reflect /\
   reflect_table G NGHOST nzeta npsi bcs_reflect_ox2_only
     is_ ie js je ks ke x1v x2v x3v Tetrad nh outer_x3 <> None).
Proof.
  split; split.
  - reflexivity.
  - reflexivity.
  - discriminate.
  - apply reflect_table_guard. reflexivity.
Qed.

(** ** The face arrays *)

(** C7: for a resolution [1 <= nzeta] and a ghost width
    [0 <= NGHOST_RAD <= nzeta], [zetaf] is strictly increasing over the whole
    padded range, is exactly 0 at index [NGHOST_RAD] and exactly PI at index
    [nzeta + NGHOST_RAD], and, for even [nzeta], is exactly PI/2 at index
    [nzeta/2 + NGHOST_RAD]. *)
Theorem zetaf_increasing_with_exact_poles (G nzeta : Z) :
  1 <= nzeta -> 0 <= G <= nzeta ->
  (forall i k, 0 <= i -> i < k -> k <= nzeta + 2 * G ->
     fin_lt (zetaf G nzeta i) (zetaf G nzeta k)) /\
  zetaf G nzeta G = Fin 0 /\
  zetaf G nzeta (nzeta + G) = Fin PI /\
  (Z.rem nzeta 2 = 0 -> zetaf G nzeta (Z.quot nzeta 2 + G) = Fin (PI / 2)).
Proof.
  intros Hn HG. repeat split.
  - intros i k Hi Hik Hk. exists (zface nzeta (i - G)), (zface nzeta (k - G)).
    repeat split.
    + replace i with (G + (i - G)) at 1 by lia.
      apply zetaf_closed_form; lia.
    + replace k with (G + (k - G)) at 1 by lia.
      apply zetaf_closed_form; lia.
    + apply zface_incr; lia.
  - replace G with (G + 0) at 2 by lia.
    rewrite zetaf_closed_form by lia.
    unfold zface. simpl. destruct (Z.leb_spec 0 nzeta); [|lia].
    now rewrite czetaR_0, acos_1.
  - rewrite (Z.add_comm nzeta G), zetaf_closed_form by lia.
    unfold zface. destruct (Z.ltb_spec nzeta 0); [lia|].
    rewrite Z.leb_refl. now rewrite czetaR_n, acos_m1 by lia.
  - intros Hr.
    assert (Hq : Z.quot nzeta 2 = nzeta / 2) by (apply Z.quot_div_nonneg; lia).
    pose proof (Z.div_mod nzeta 2 ltac:(lia)).
    pose proof (Z.mod_pos_bound nzeta 2 ltac:(lia)).
    rewrite (Z.add_comm _ G), zetaf_closed_form by lia.
    unfold zface. destruct (Z.ltb_spec (Z.quot nzeta 2) 0); [lia|].
    destruct (Z.leb_spec (Z.quot nzeta 2) nzeta); [|lia].
    now rewrite czetaR_half, acos_0 by assumption.
Qed.

Lemma zetaf_increasing_with_exact_poles_witness :
  (forall i k, 0 <= i -> i < k -> k <= 2 + 2 * 1 ->
     fin_lt (zetaf 1 2 i) (zetaf 1 2 k)) /\
  zetaf 1 2 1 = Fin 0 /\
  zetaf 1 2 (2 + 1) = Fin PI /\
  (Z.rem 2 2 = 0 -> zetaf 1 2 (Z.quot 2 2 + 1) = Fin (PI / 2)).
Proof.
  apply (@zetaf_increasing_with_exact_poles 1 2); lia.
Defined.

(** C8: for a resolution [1 <= npsi] and a ghost width
    [0 <= NGHOST_RAD <= npsi], [psif] is exactly 0 at index [NGHOST_RAD] and
    exactly 2 PI at index [npsi + NGHOST_RAD]; each beginning ghost face [m]
    equals the face [npsi + m] minus 2 PI, and each end ghost face
    [pe + NGHOST_RAD + 1 - m] equals the face [2 NGHOST_RAD - m] plus 2 PI. *)
Theorem psif_exact_span_and_ghost_shift (G npsi : Z) :
  1 <= npsi -> 0 <= G <= npsi ->
  psif G npsi G = Fin 0 /\
  psif G npsi (npsi + G) = Fin (2 * PI) /\
  (forall m, 0 <= m < G ->
     psif G npsi m = (psif G npsi (npsi + m)%Z - Fin 2 * PI_)%xr) /\
  (forall m, 0 <= m < G ->
     psif G npsi (pe G npsi + G + 1 - m)
     = (psif G npsi (2 * G - m)%Z + Fin 2 * PI_)%xr).
Proof.
  intros Hn HG.
  destruct (@psif_ghost_spec G npsi Hn HG) as (P1 & P2 & P3).
  assert (Hpos : (0 < IZR npsi)%R) by (apply IZR_lt; lia).
  repeat split.
  - replace G with (G + 0) at 2 by lia.
    rewrite psif_closed_form by lia. f_equal. simpl. lra.
  - rewrite (Z.add_comm npsi G), psif_closed_form by lia. f_equal. field. lra.
  - intros m Hm. rewrite P1 by lia. now rewrite (P3 (npsi + m)) by lia.
  - intros m Hm. unfold pe. rewrite P2 by lia.
    replace (npsi + G - 1 + G + 1 - m - npsi) with (2 * G - m) by lia.
    now rewrite (P3 (2 * G - m)) by lia.
Qed.

Lemma psif_exact_span_and_ghost_shift_witness :
  psif 1 2 1 = Fin 0 /\
  psif 1 2 (2 + 1) = Fin (2 * PI) /\
  (forall m, 0 <= m < 1 ->
     psif 1 2 m = (psif 1 2 (2 + m)%Z - Fin 2 * PI_)%xr) /\
  (forall m, 0 <= m < 1 ->
     psif 1 2 (pe 1 2 + 1 + 1 - m) = (psif 1 2 (2 * 1 - m)%Z + Fin 2 * PI_)%xr).
Proof.
  apply (@psif_exact_span_and_ghost_shift 1 2); lia.
Defined.

(** The ghost width matters: with [NGHOST_RAD = 2] and a single interior
    bin the ghost loops read faces that are not written yet, and neither
    face array has the shape stated above. *)
Remark zetaf_ghost_wider_than_grid :
  zetaf 2 1 0 = Fin (- 0) /\ zetaf 2 1 1 = Fin (- PI).
Proof. split; reflexivity. Qed.

Remark psif_ghost_wider_than_grid :
  psif 2 1 0 = Fin (0 + - (2 * PI)) /\ psif 2 1 1 = Fin (0 + - (2 * PI)).
Proof. split; reflexivity. Qed.

(** ** The centre arrays *)

(** C9: for every polar bin [l] of the padded range, [zetav (l)] is the
    closed-form average
    [(zf2 cos zf2 - sin zf2 - zf1 cos zf1 + sin zf1) / (cos zf2 - cos zf1)] of
    its faces [zf1 = zetaf (l)] and [zf2 = zetaf (l+1)]; for every azimuthal
    bin [m], [psiv (m)] is the midpoint [0.5 * (psif (m) + psif (m+1))]. *)
Theorem zetav_flux_weighted_psiv_midpoint (G nzeta npsi l m : Z) :
  0 <= l <= nzeta + 2 * G - 1 ->
  0 <= m <= npsi + 2 * G - 1 ->
  zetav G nzeta l
  = ((zetaf G nzeta (l + 1)%Z * fcos (zetaf G nzeta (l + 1)%Z)
      - fsin (zetaf G nzeta (l + 1)%Z)
      - zetaf G nzeta l * fcos (zetaf G nzeta l) + fsin (zetaf G nzeta l))
     / (fcos (zetaf G nzeta (l + 1)%Z) - fcos (zetaf G nzeta l)))%xr
  /\ psiv G npsi m
     = (Fin (1 / 2) * (psif G npsi m + psif G npsi (m + 1)%Z))%xr.
Proof.
  intros Hl Hm. split.
  - apply zetav_eq. unfold zs, ze. lia.
  - apply psiv_eq. unfold ps, pe. lia.
Qed.

Lemma zetav_flux_weighted_psiv_midpoint_witness :
  zetav 1 2 1
  = ((zetaf 1 2 (1 + 1)%Z * fcos (zetaf 1 2 (1 + 1)%Z)
      - fsin (zetaf 1 2 (1 + 1)%Z)
      - zetaf 1 2 1 * fcos (zetaf 1 2 1) + fsin (zetaf 1 2 1))
     / (fcos (zetaf 1 2 (1 + 1)%Z) - fcos (zetaf 1 2 1)))%xr
  /\ psiv 1 2 1 = (Fin (1 / 2) * (psif 1 2 1 + psif 1 2 (1 + 1)%Z))%xr.
Proof.
  apply (@zetav_flux_weighted_psiv_midpoint 1 2 2 1 1); lia.
Defined.

(** ** The unit-direction table *)

(** The contiguous layout with the last index fastest, for an array whose
    innermost extent is [nx1] and next extent [nx2]. *)
Definition row_major2 (nx1 : Z) (n i : Z) : Z := i + nx1 * n.
Definition row_major3 (nx1 nx2 : Z) (n j i : Z) : Z := i + nx1 * (j + nx2 * n).

Lemma row_major2_injective (G nzeta npsi : Z) :
  idx2_injective (row_major2 (nang G nzeta npsi)) G nzeta npsi.
Proof.
  unfold idx2_injective, row_major2. intros p lm p' lm' Hp Hp' Hlm Hlm' E.
  assert (p = p') by nia. subst p'. split; [reflexivity | lia].
Qed.

Lemma row_major3_apart (G nzeta npsi : Z) :
  idx3_apart (row_major2 (nang G nzeta npsi))
    (row_major3 (nang G nzeta npsi) 4) G nzeta npsi.
Proof.
  unfold idx3_apart, row_major2, row_major3, in_padded.
  intros n l m p lm Hn [Hl Hm] Hp Hlm. nia.
Qed.

Lemma sum_squares_unit (zeta psi : R) :
  ((sin zeta * cos psi) * (sin zeta * cos psi)
   + (sin zeta * sin psi) * (sin zeta * sin psi)
   + cos zeta * cos zeta = 1)%R.
Proof.
  pose proof (sin2_cos2 zeta) as Hz. pose proof (sin2_cos2 psi) as Hp.
  unfold Rsqr in Hz, Hp.
  replace ((sin zeta * cos psi) * (sin zeta * cos psi)
           + (sin zeta * sin psi) * (sin zeta * sin psi)
           + cos zeta * cos zeta)%R
    with ((sin zeta * sin zeta) * (sin psi * sin psi + cos psi * cos psi)
          + cos zeta * cos zeta)%R by ring.
  rewrite Hp. lra.
Qed.

(** The stored direction of a bin, in terms of its two centre angles. *)
Lemma nh_g_direction (idx2 : Z -> Z -> Z) (idx3 : Z -> Z -> Z -> Z)
    (G nzeta npsi l m : Z) :
  1 <= nzeta -> 1 <= npsi -> 0 <= G <= nzeta -> G <= npsi ->
  idx2_injective idx2 G nzeta npsi ->
  (nzeta = 1 -> idx3_apart idx2 idx3 G nzeta npsi) ->
  in_padded G nzeta npsi l m ->
  exists zeta psi : R,
    zetav G nzeta l = Fin zeta /\ psiv G npsi m = Fin psi /\
    nh_g idx2 idx3 G nzeta npsi (idx2 0 (AngleInd G npsi l m)) = Fin 1 /\
    nh_g idx2 idx3 G nzeta npsi (idx2 1 (AngleInd G npsi l m))
      = Fin (sin zeta * cos psi) /\
    nh_g idx2 idx3 G nzeta npsi (idx2 2 (AngleInd G npsi l m))
      = Fin (sin zeta * sin psi) /\
    nh_g idx2 idx3 G nzeta npsi (idx2 3 (AngleInd G npsi l m))
      = Fin (cos zeta).
Proof.
  intros Hnz Hnp HGz HGp Hinj Hap Hlm.
  assert (Hz : zetav G nzeta l = Fin (zcentre nzeta (l - G))).
  { replace l with (G + (l - G)) at 1 by lia.
    apply zetav_closed_form; try assumption. destruct Hlm. lia. }
  assert (Hp : psiv G npsi m
               = Fin ((IZR (m - G) + 1 / 2) * (2 * PI / IZR npsi))).
  { replace m with (G + (m - G)) at 1 by lia.
    apply psiv_closed_form; try lia. destruct Hlm. lia. }
  eexists _, _. split; [exact Hz|]. split; [exact Hp|].
  assert (Hcell : forall p, 0 <= p < 4 ->
     nh_g idx2 idx3 G nzeta npsi (idx2 p (AngleInd G npsi l m))
     = nh_assigned G nzeta npsi p l m).
  { intros p Hp'. apply nh_g_cell; try assumption; lia. }
  rewrite !Hcell by lia. unfold nh_assigned. simpl.
  rewrite Hz, Hp. repeat split.
Qed.

(** C10: for a grid with [nzeta > 1] (and a ghost width not exceeding either
    resolution), every bin of the padded grid stores a direction with
    time-like component exactly 1, spatial components
    [sin zetav cos psiv], [sin zetav sin psiv], [cos zetav], and the squares
    of the three spatial components add up to 1. *)
Theorem unit_direction_normalised (idx2 : Z -> Z -> Z) (idx3 : Z -> Z -> Z -> Z)
    (G nzeta npsi l m : Z) :
  1 < nzeta -> 1 <= npsi -> 0 <= G <= nzeta -> G <= npsi ->
  idx2_injective idx2 G nzeta npsi ->
  in_padded G nzeta npsi l m ->
  exists zeta psi x y z : R,
    zetav G nzeta l = Fin zeta /\ psiv G npsi m = Fin psi /\
    x = (sin zeta * cos psi)%R /\ y = (sin zeta * sin psi)%R /\
    z = cos zeta /\
    nh_g idx2 idx3 G nzeta npsi (idx2 0 (AngleInd G npsi l m)) = Fin 1 /\
    nh_g idx2 idx3 G nzeta npsi (idx2 1 (AngleInd G npsi l m)) = Fin x /\
    nh_g idx2 idx3 G nzeta npsi (idx2 2 (AngleInd G npsi l m)) = Fin y /\
    nh_g idx2 idx3 G nzeta npsi (idx2 3 (AngleInd G npsi l m)) = Fin z /\
    (x * x + y * y + z * z = 1)%R.
Proof.
  intros Hnz Hnp HGz HGp Hinj Hlm.
  destruct (@nh_g_direction idx2 idx3 G nzeta npsi l m) as
    (zeta & psi & Hz & Hp & H0 & H1 & H2 & H3); try assumption; try lia.
  exists zeta, psi, (sin zeta * cos psi)%R, (sin zeta * sin psi)%R, (cos zeta).
  repeat split; try assumption. apply sum_squares_unit.
Qed.

Lemma unit_direction_normalised_witness :
  exists zeta psi x y z : R,
    zetav 1 2 1 = Fin zeta /\ psiv 1 2 1 = Fin psi /\
    x = (sin zeta * cos psi)%R /\ y = (sin zeta * sin psi)%R /\
    z = cos zeta /\
    nh_g (row_major2 (nang 1 2 2)) (row_major3 (nang 1 2 2) 4) 1 2 2
      (row_major2 (nang 1 2 2) 0 (AngleInd 1 2 1 1)) = Fin 1 /\
    nh_g (row_major2 (nang 1 2 2)) (row_major3 (nang 1 2 2) 4) 1 2 2
      (row_major2 (nang 1 2 2) 1 (AngleInd 1 2 1 1)) = Fin x /\
    nh_g (row_major2 (nang 1 2 2)) (row_major3 (nang 1 2 2) 4) 1 2 2
      (row_major2 (nang 1 2 2) 2 (AngleInd 1 2 1 1)) = Fin y /\
    nh_g (row_major2 (nang 1 2 2)) (row_major3 (nang 1 2 2) 4) 1 2 2
      (row_major2 (nang 1 2 2) 3 (AngleInd 1 2 1 1)) = Fin z /\
    (x * x + y * y + z * z = 1)%R.
Proof.
  apply (@unit_direction_normalised (row_major2 (nang 1 2 2))
           (row_major3 (nang 1 2 2) 4) 1 2 2 1 1); try lia.
  - apply row_major2_injective.
  - unfold in_padded. lia.
Defined.

(** The single interior bin of the grid with [nzeta = 1], [npsi = 1]:
    its centre angles are PI/2 and PI. *)
Lemma zetav_single_ring : zetav 1 1 1 = Fin (PI / 2).
Proof.
  replace 1 with (1 + 0) at 3 by lia.
  rewrite zetav_closed_form by lia. f_equal.
  unfold zcentre. replace (0 + 1) with 1 by lia.
  rewrite !zface_interior by lia.
  assert (E1 : czetaR 1 1 = (-1)%R) by (apply czetaR_n; lia).
  rewrite E1, czetaR_0, acos_1, acos_m1.
  rewrite cos_PI, sin_PI, cos_0, sin_0. field.
Qed.

Lemma psiv_single_sector : psiv 1 1 1 = Fin PI.
Proof.
  replace 1 with (1 + 0) at 3 by lia.
  rewrite psiv_closed_form by lia. f_equal. simpl. field.
Qed.

(** C4 (the code departs from the claim): the claim asks that, for
    [nzeta = 1], the two transverse components of every cached direction
    carry the factor 0.816496580927726.  The constructor applies the factor
    through the three-index access [nh_g (1, l, m)], [nh_g (2, l, m)] to an
    array allocated with the two dimensions [(4, nang)]; in the contiguous
    layout that access lies beyond the last two-index cell, so the cells
    [nh_g (1, lm)], [nh_g (2, lm)] keep the unscaled values.  At
    [nzeta = npsi = NGHOST_RAD = 1] the interior bin holds
    [sin (PI/2) cos PI = -1] in component 1, not [-0.816496580927726]. *)
Theorem single_ring_direction_not_rescaled :
  zetav 1 1 1 = Fin (PI / 2) /\ psiv 1 1 1 = Fin PI /\
  nh_g (row_major2 (nang 1 1 1)) (row_major3 (nang 1 1 1) 4) 1 1 1
    (row_major2 (nang 1 1 1) 1 (AngleInd 1 1 1 1))
  = Fin (sin (PI / 2) * cos PI) /\
  nh_g (row_major2 (nang 1 1 1)) (row_major3 (nang 1 1 1) 4) 1 1 1
    (row_major2 (nang 1 1 1) 1 (AngleInd 1 1 1 1))
  <> Fin (sin (PI / 2) * cos PI * iso_factor).
Proof.
  assert (H : nh_g (row_major2 (nang 1 1 1)) (row_major3 (nang 1 1 1) 4) 1 1 1
                (row_major2 (nang 1 1 1) 1 (AngleInd 1 1 1 1))
              = Fin (sin (PI / 2) * cos PI)).
  { destruct (@nh_g_direction (row_major2 (nang 1 1 1))
                (row_major3 (nang 1 1 1) 4) 1 1 1 1 1) as
      (zeta & psi & Hz & Hp & _ & H1 & _); try lia.
    - apply row_major2_injective.
    - intros _. apply row_major3_apart.
    - unfold in_padded. lia.
    - rewrite zetav_single_ring in Hz. rewrite psiv_single_sector in Hp.
      injection Hz as <-. injection Hp as <-. exact H1. }
  repeat split.
  - exact zetav_single_ring.
  - exact psiv_single_sector.
  - exact H.
  - rewrite H. rewrite sin_PI2, cos_PI. unfold iso_factor. intros E.
    injection E as E. lra.
Qed.

(** ** Facts about single entries *)

Lemma fdiv_zero_not_finite (a : Real) : facos (a / Fin 0)%xr = NaN.
Proof.
  destruct a as [x| | |]; unfold fdiv.
  - destruct (Req_dec_T 0 0) as [_|N]; [|now contradiction N].
    unfold inf_scaled. destruct (Rlt_dec 0 x); [reflexivity|].
    destruct (Rlt_dec x 0); reflexivity.
  - destruct (Rlt_dec 0 0); reflexivity.
  - destruct (Rlt_dec 0 0); reflexivity.
  - reflexivity.
Qed.

Lemma fgt_nan (a : Real) : (a >? NaN)%xr = false.
Proof. destruct a; reflexivity. Qed.

Lemma scan_up_range (c : array) (a : Real) (n : nat) (x : Z) :
  x <= scan_up n x c a <= x + Z.of_nat n.
Proof.
  revert x. induction n as [|n IH]; intros x; simpl scan_up.
  - lia.
  - destruct (c x >? a)%xr; [lia|]. specialize (IH (x + 1)). lia.
Qed.

Lemma scan_up_found (c : array) (a : Real) (n : nat) (x : Z) :
  scan_up n x c a < x + Z.of_nat n ->
  (c (scan_up n x c a) >? a)%xr = true.
Proof.
  revert x. induction n as [|n IH]; intros x; simpl scan_up.
  - lia.
  - destruct (c x >? a)%xr eqn:E; [intros _; exact E|].
    intros H. apply IH. lia.
Qed.

Lemma scan_up_passed (c : array) (a : Real) (n : nat) (x : Z) :
  forall y, x <= y < scan_up n x c a -> (c y >? a)%xr = false.
Proof.
  revert x. induction n as [|n IH]; intros x y; simpl scan_up.
  - lia.
  - destruct (c x >? a)%xr eqn:E; [lia|].
    intros Hy. destruct (Z.eq_dec y x) as [->|Hne]; [exact E|].
    apply (IH (x + 1)). lia.
Qed.

Lemma scan_up_nan (c : array) (n : nat) (x : Z) :
  scan_up n x c NaN = x + Z.of_nat n.
Proof.
  revert x. induction n as [|n IH]; intros x; simpl scan_up.
  - lia.
  - rewrite ?fgt_nan. cbv iota. rewrite IH. lia.
Qed.

Lemma bracket_range (lo hi : Z) (c : array) (a : Real) :
  lo <= hi + 1 -> lo <= bracket lo hi c a <= hi + 1.
Proof.
  intros H. unfold bracket.
  pose proof (scan_up_range c a (Z.to_nat (hi + 1 - lo)) lo). lia.
Qed.

Lemma bracket_found (lo hi : Z) (c : array) (a : Real) :
  lo <= hi + 1 -> bracket lo hi c a <= hi ->
  (c (bracket lo hi c a) >? a)%xr = true.
Proof.
  intros H Hb. unfold bracket in *. apply scan_up_found. lia.
Qed.

Lemma bracket_passed (lo hi : Z) (c : array) (a : Real) (y : Z) :
  lo <= y < bracket lo hi c a -> (c y >? a)%xr = false.
Proof. unfold bracket. apply scan_up_passed. Qed.

Lemma bracket_nan (lo hi : Z) (c : array) :
  lo <= hi + 1 -> bracket lo hi c NaN = hi + 1.
Proof. intros H. unfold bracket. rewrite scan_up_nan. lia. Qed.

(** A search stops at the first position [r] whose centre exceeds the
    angle. *)
Lemma bracket_at (lo hi : Z) (c : array) (a : Real) (r : Z) :
  lo <= r <= hi ->
  (forall y, lo <= y < r -> (c y >? a)%xr = false) ->
  (c r >? a)%xr = true ->
  bracket lo hi c a = r.
Proof.
  intros Hr Hbefore Hat.
  pose proof (@bracket_range lo hi c a ltac:(lia)) as Hrange.
  destruct (Z_lt_le_dec (bracket lo hi c a) r) as [Hlt|Hge].
  - pose proof (@bracket_found lo hi c a ltac:(lia) ltac:(lia)) as Hf.
    rewrite Hbefore in Hf by lia. discriminate.
  - destruct (Z.eq_dec (bracket lo hi c a) r) as [E|Hne]; [exact E|].
    pose proof (@bracket_passed lo hi c a r ltac:(lia)) as Hp.
    rewrite Hat in Hp. discriminate.
Qed.

(** The unrolled sums behind the two frame changes. *)
Lemma coordinate_components_eq (e : mat) (nh : vec) (n : Z) :
  0 <= n <= 3 ->
  coordinate_components e nh n
  = (Fin 0 + e 0 n * nh 0 + e 1 n * nh 1 + e 2 n * nh 2 + e 3 n * nh 3)%xr.
Proof.
  intros Hn.
  assert (Hc : n = 0 \/ n = 1 \/ n = 2 \/ n = 3) by lia.
  destruct Hc as [ -> | [ -> | [ -> | -> ] ] ]; reflexivity.
Qed.

Lemma tetrad_components_eq (e : mat) (v : vec) (n : Z) :
  0 <= n <= 3 ->
  tetrad_components e v n
  = if n =? 0
    then ((Fin 0 + e 0 0 * v 0 + e 0 1 * v 1 + e 0 2 * v 2 + e 0 3 * v 3)
          * Fin (-1))%xr
    else (Fin 0 + e n 0 * v 0 + e n 1 * v 1 + e n 2 * v 2 + e n 3 * v 3)%xr.
Proof.
  intros Hn.
  assert (Hc : n = 0 \/ n = 1 \/ n = 2 \/ n = 3) by lia.
  destruct Hc as [ -> | [ -> | [ -> | -> ] ] ]; reflexivity.
Qed.

Lemma copy_components_eq (v : vec) (n : Z) :
  0 <= n <= 3 -> for_loop 0 3 (fun n w => upd w n (v n)) zero_vec n = v n.
Proof.
  intros Hn.
  assert (Hc : n = 0 \/ n = 1 \/ n = 2 \/ n = 3) by lia.
  destruct Hc as [ -> | [ -> | [ -> | -> ] ] ]; reflexivity.
Qed.

(** *** Finite inputs: the transformed direction over the reals *)

Definition fin_mat (E : Z -> Z -> R) : mat := fun p n => Fin (E p n).
Definition fin_vec (w : Z -> R) : vec := fun p => Fin (w p).

Definition coordinateR (E : Z -> Z -> R) (w : Z -> R) (n : Z) : R :=
  (0 + E 0%Z n * w 0%Z + E 1%Z n * w 1%Z + E 2%Z n * w 2%Z
   + E 3%Z n * w 3%Z)%R.

Definition flipR (flips : list Z) (w : Z -> R) : Z -> R :=
  fold_left (fun v c => fun j => if j =? c then (v c * -1)%R else v j) flips w.

Definition tetradR (C : Z -> Z -> R) (v : Z -> R) (n : Z) : R :=
  if n =? 0
  then ((0 + C 0%Z 0%Z * v 0%Z + C 0%Z 1%Z * v 1%Z + C 0%Z 2%Z * v 2%Z
         + C 0%Z 3%Z * v 3%Z) * -1)%R
  else (0 + C n 0%Z * v 0%Z + C n 1%Z * v 1%Z + C n 2%Z * v 2%Z
        + C n 3%Z * v 3%Z)%R.

Definition directionR (E C : Z -> Z -> R) (flips : list Z) (w : Z -> R)
  : Z -> R :=
  tetradR C (flipR flips (fun n => if (0 <=? n) && (n <=? 3)
                                    then coordinateR E w n else 0%R)).

Lemma flips_fin (flips : list Z) :
  forall (v : vec) (w : Z -> R),
    (forall j, v j = Fin (w j)) ->
    forall j,
      fold_left (fun v c => upd v c (v c * Fin (-1))%xr) flips v j
      = Fin (flipR flips w j).
Proof.
  induction flips as [|c flips IH]; intros v w H j; simpl.
  - apply H.
  - unfold flipR. simpl. apply IH. intros k. unfold upd.
    destruct (k =? c); [|apply H]. rewrite H. reflexivity.
Qed.

Lemma transformed_direction_fin (E C : Z -> Z -> R) (flips : list Z)
    (nh : vec) (w : Z -> R) (n : Z) :
  (forall p, 0 <= p <= 3 -> nh p = Fin (w p)) ->
  0 <= n <= 3 ->
  transformed_direction (fin_mat E) (fin_mat C) flips nh n
  = Fin (directionR E C flips w n).
Proof.
  intros Hnh Hn. unfold transformed_direction, directionR.
  rewrite tetrad_components_eq by assumption.
  unfold transformed_components.
  assert (Hv : forall j,
    fold_left (fun v c => upd v c (v c * Fin (-1))%xr) flips
      (for_loop 0 3
         (fun n v => upd v n (coordinate_components (fin_mat E) nh n))
         zero_vec) j
    = Fin (flipR flips (fun n => if (0 <=? n) && (n <=? 3)
                                  then coordinateR E w n else 0%R) j)).
  { apply flips_fin. intros j. rewrite for_loop_write.
    destruct ((0 <=? j) && (j <=? 3)) eqn:Ej; [|reflexivity].
    rewrite coordinate_components_eq by lia.
    rewrite !Hnh by lia. reflexivity. }
  rewrite !Hv. unfold tetradR, fin_mat.
  destruct (n =? 0); reflexivity.
Qed.

(** *** A vanishing time-like component *)

Lemma zeta_of_zero_time (nh_a : vec) : nh_a 0 = Fin 0 -> zeta_of nh_a = NaN.
Proof. intros H. unfold zeta_of. rewrite H. apply fdiv_zero_not_finite. Qed.

Lemma interpolate_nan_zeta (G nzeta npsi : Z) (psi_a : Real) :
  let e := interpolate G nzeta npsi NaN psi_a in
  frac0 e = NaN /\ frac1 e = NaN /\ frac2 e = NaN /\ frac3 e = NaN.
Proof.
  unfold interpolate, frac_l_of. cbn [frac0 frac1 frac2 frac3].
  change (NaN - ?x)%xr with NaN. change (NaN / ?x)%xr with NaN.
  change (Fin 1 - NaN)%xr with NaN. repeat split.
Qed.

Lemma l_of_nan (G nzeta : Z) :
  0 <= nzeta + 2 -> l_of G nzeta NaN = ze G nzeta + 2.
Proof.
  intros H. unfold l_of. rewrite bracket_nan; unfold zs, ze; lia.
Qed.

(** A tetrad aligned with the coordinate axes, and the zero matrix. *)
Definition identityR (p n : Z) : R := if p =? n then 1%R else 0%R.
Definition zeroR (p n : Z) : R := 0%R.

(** *** The bracket searches *)

Lemma fgt_fin (x y : R) : (Fin x >? Fin y)%xr = true <-> (y < x)%R.
Proof.
  unfold fgt, flt. destruct (Rlt_dec y x); split; intros H;
    try reflexivity; try assumption; try discriminate; contradiction.
Qed.

Lemma fgt_fin_false (x y : R) : (Fin x >? Fin y)%xr = false <-> (x <= y)%R.
Proof.
  unfold fgt, flt. destruct (Rlt_dec y x); split; intros H;
    try reflexivity; try discriminate; lra.
Qed.

Lemma atan2R_origin : atan2R 0 0 = 0%R.
Proof.
  unfold atan2R. destruct (Rlt_dec 0 0); [lra|]. reflexivity.
Qed.

Lemma psi_of_origin (nh_a : vec) :
  nh_a 1 = Fin 0 -> nh_a 2 = Fin 0 -> psi_of nh_a = Fin 0.
Proof.
  intros H1 H2. unfold psi_of. rewrite H1, H2. unfold fatan2.
  rewrite atan2R_origin. unfold flt.
  destruct (Rlt_dec 0 0); [lra|]. unfold fadd. f_equal. lra.
Qed.

(** Every stored index is a bin of the padded grid as soon as both searches
    stop inside [zs .. ze+1] and [ps .. pe+1]. *)
Lemma remap_indices_valid (G nzeta npsi l_a m_a : Z) :
  1 <= G -> 1 <= nzeta -> 1 <= npsi ->
  zs G <= l_a <= ze G nzeta + 1 ->
  ps G <= m_a <= pe G npsi + 1 ->
  forall l m, (l = l_a - 1 \/ l = l_a) -> (m = m_a - 1 \/ m = m_a) ->
    0 <= AngleInd G npsi l m < nang G nzeta npsi.
Proof.
  unfold zs, ze, ps, pe. intros HG Hnz Hnp Hl Hm l m Hl' Hm'.
  apply AngleInd_range; [lia | lia |]. unfold in_padded. lia.
Qed.

(** *** Where the searches stop for angles that are numbers *)

Lemma x_cos_lt_sin (x : R) : (0 < x <= PI)%R -> (x * cos x < sin x)%R.
Proof.
  intros [H0 H1].
  pose proof PI_RGT_0 as Hpi.
  pose (f := (sin - id * cos)%F).
  assert (Hf : (f 0 < f x)%R).
  { eapply (MVT.derive_increasing_interv 0 PI (sin - id * cos)%F); try lra.
    intros t Ht.
    rewrite derive_pt_minus, derive_pt_mult, derive_pt_id, derive_pt_sin,
      derive_pt_cos.
    unfold id.
    pose proof (sin_gt_0 t ltac:(lra) ltac:(lra)).
    replace (cos t - (1 * cos t + t * - sin t))%R with (t * sin t)%R by ring.
    apply Rmult_lt_0_compat; lra. }
  unfold f, minus_fct, mult_fct, id in Hf.
  rewrite sin_0, cos_0 in Hf. lra.
Qed.

Section SearchRange.

Variables G nzeta npsi : Z.
Hypothesis HG : 1 <= G.
Hypothesis Hnz : G <= nzeta.
Hypothesis Hnp : G <= npsi.

(** The first scanned polar centre, in the northern ghost cell, is
    negative. *)
Lemma zcentre_north_ghost : (zcentre nzeta (-1) < 0)%R.
Proof.
  unfold zcentre. replace (-1 + 1) with 0 by lia.
  rewrite (@zface_interior nzeta 0) by lia.
  rewrite (@zface_north nzeta (-1)) by lia.
  replace (- -1) with 1 by lia.
  rewrite czetaR_0, acos_1, cos_0, sin_0, cos_neg, sin_neg.
  set (a := acos (czetaR nzeta 1)).
  assert (Hc : cos a = czetaR nzeta 1).
  { apply cos_acos. apply czetaR_bounds; lia. }
  assert (Hlt : (czetaR nzeta 1 < 1)%R).
  { rewrite <- (czetaR_0 nzeta). apply czetaR_decr; lia. }
  assert (Ha : (0 < a <= PI)%R).
  { split; [|apply acos_bound].
    unfold a. rewrite <- acos_1. apply acos_decr; try lra.
    apply czetaR_bounds; lia. }
  pose proof (x_cos_lt_sin Ha) as Hs.
  assert (Hd : (0 < 1 - cos a)%R) by lra.
  replace ((0 * 1 - 0 - - a * cos a + - sin a) / (1 - cos a))%R
    with (- ((sin a - a * cos a) * / (1 - cos a)))%R by (field; lra).
  assert (0 < (sin a - a * cos a) * / (1 - cos a))%R.
  { apply Rmult_lt_0_compat; [lra|]. now apply Rinv_0_lt_compat. }
  lra.
Qed.

(** The last scanned polar centre, in the southern ghost cell, exceeds PI. *)
Lemma zcentre_south_ghost : (PI < zcentre nzeta nzeta)%R.
Proof.
  unfold zcentre.
  rewrite (@zface_interior nzeta nzeta) by lia.
  rewrite (@zface_south nzeta (nzeta + 1)) by lia.
  replace (2 * nzeta - (nzeta + 1)) with (nzeta - 1) by lia.
  rewrite czetaR_n, acos_m1 by lia.
  set (b := acos (czetaR nzeta (nzeta - 1))).
  assert (Hcb : cos b = czetaR nzeta (nzeta - 1)).
  { apply cos_acos. apply czetaR_bounds; lia. }
  assert (Hgt : (-1 < czetaR nzeta (nzeta - 1))%R).
  { rewrite <- (@czetaR_n nzeta) by lia. apply czetaR_decr; lia. }
  assert (Hb : (0 <= b < PI)%R).
  { split; [apply acos_bound|].
    unfold b. rewrite <- acos_m1. apply acos_decr; try lra.
    apply czetaR_bounds; lia. }
  rewrite cos_minus, sin_minus, cos_2PI, sin_2PI, cos_PI, sin_PI.
  pose proof (@x_cos_lt_sin (PI - b) ltac:(lra)) as Hs.
  rewrite cos_minus, sin_minus, cos_PI, sin_PI in Hs.
  assert (Hd : (0 < cos b + 1)%R) by lra.
  replace (((2 * PI - b) * (1 * cos b + 0 * sin b) - (0 * cos b - 1 * sin b)
            - PI * -1 + 0) / (1 * cos b + 0 * sin b - -1))%R
    with (PI + ((PI - b) * cos b + sin b) * / (cos b + 1))%R by (field; lra).
  assert (0 < ((PI - b) * cos b + sin b) * / (cos b + 1))%R.
  { apply Rmult_lt_0_compat; [lra|]. now apply Rinv_0_lt_compat. }
  lra.
Qed.

Lemma facos_cases (a : Real) : facos a = NaN \/ exists z, facos a = Fin z.
Proof.
  destruct a as [x| | |]; simpl; auto.
  destruct (Rle_dec (-1) x); [|auto]. destruct (Rle_dec x 1); [|auto].
  right. eexists. reflexivity.
Qed.

Lemma psi_of_cases (nh_a : vec) :
  psi_of nh_a = NaN \/ exists p, psi_of nh_a = Fin p.
Proof.
  unfold psi_of.
  assert (H : fatan2 (nh_a 2) (nh_a 1) = NaN
              \/ exists q, fatan2 (nh_a 2) (nh_a 1) = Fin q).
  { destruct (nh_a 2) as [y| | |], (nh_a 1) as [x| | |]; simpl; auto;
      try (right; eexists; reflexivity).
    destruct (Rlt_dec y 0); right; eexists; reflexivity. }
  destruct H as [-> | [q ->]]; [left; reflexivity|].
  right. unfold flt. destruct (Rlt_dec q 0); eexists; reflexivity.
Qed.

Lemma facos_range (a : Real) (z : R) :
  facos a = Fin z -> (0 <= z <= PI)%R.
Proof.
  destruct a as [x| | |]; simpl; try discriminate.
  destruct (Rle_dec (-1) x); [|discriminate].
  destruct (Rle_dec x 1); [|discriminate].
  intros E. injection E as <-. apply acos_bound.
Qed.

Lemma atan2R_range (y x : R) : (- (2 * PI) < atan2R y x < 2 * PI)%R.
Proof.
  pose proof PI_RGT_0. pose proof (atan_bound (y / x)).
  unfold atan2R.
  repeat match goal with |- context [Rlt_dec ?u ?v] => destruct (Rlt_dec u v) end;
    lra.
Qed.

Lemma fatan2_range (a b : Real) (q : R) :
  fatan2 a b = Fin q -> (- (2 * PI) < q < 2 * PI)%R.
Proof.
  pose proof PI_RGT_0.
  destruct a as [y| | |], b as [x| | |]; simpl; try discriminate;
    try (intros E; injection E as <-; lra).
  - intros E; injection E as <-. apply atan2R_range.
  - destruct (Rlt_dec y 0); intros E; injection E as <-; lra.
Qed.

Lemma psi_of_range (nh_a : vec) (p : R) :
  psi_of nh_a = Fin p -> (0 <= p < 2 * PI)%R.
Proof.
  unfold psi_of.
  destruct (fatan2 (nh_a 2) (nh_a 1)) as [q| | |] eqn:E; simpl;
    try discriminate.
  pose proof (fatan2_range _ _ E) as Hq.
  destruct (Rlt_dec q 0); unfold PI_; simpl; intros E'; injection E' as <-; lra.
Qed.

(** For a polar angle in [0, PI] the search stops inside [zs .. ze+1]. *)
Lemma l_of_range (z : R) :
  (0 <= z <= PI)%R -> zs G <= l_of G nzeta (Fin z) <= ze G nzeta + 1.
Proof.
  intros Hz. unfold l_of.
  set (r := bracket (zs G - 1) (ze G nzeta + 1) (zetav G nzeta) (Fin z)).
  assert (Hr : zs G - 1 <= r <= ze G nzeta + 1 + 1).
  { apply bracket_range. unfold zs, ze. lia. }
  assert (Hfirst : zetav G nzeta (zs G - 1) = Fin (zcentre nzeta (-1))).
  { unfold zs. replace (G - 1) with (G + -1) by lia.
    apply zetav_closed_form; lia. }
  assert (Hlast : zetav G nzeta (ze G nzeta + 1) = Fin (zcentre nzeta nzeta)).
  { unfold ze. replace (nzeta + G - 1 + 1) with (G + nzeta) by lia.
    apply zetav_closed_form; lia. }
  split.
  - destruct (Z.eq_dec r (zs G - 1)) as [E|Hne]; [|lia]. exfalso.
    assert (Hf : (zetav G nzeta r >? Fin z)%xr = true).
    { apply bracket_found; unfold zs, ze in *; lia. }
    rewrite E, Hfirst in Hf. apply fgt_fin in Hf.
    pose proof zcentre_north_ghost. lra.
  - destruct (Z_le_gt_dec r (ze G nzeta + 1)) as [Hle|Hgt]; [exact Hle|].
    exfalso.
    assert (Hp : (zetav G nzeta (ze G nzeta + 1)%Z >? Fin z)%xr = false).
    { apply (@bracket_passed (zs G - 1) (ze G nzeta + 1)). fold r.
      unfold zs, ze in *. lia. }
    rewrite Hlast in Hp. apply fgt_fin_false in Hp.
    pose proof zcentre_south_ghost. lra.
Qed.

(** For an azimuth in [0, 2 PI) the search stops inside [ps .. pe+1]. *)
Lemma m_of_range (p : R) :
  (0 <= p < 2 * PI)%R -> ps G <= m_of G npsi (Fin p) <= pe G npsi + 1.
Proof.
  intros Hp. unfold m_of. pose proof PI_RGT_0 as Hpi.
  assert (Hpos : (0 < IZR npsi)%R) by (apply IZR_lt; lia).
  assert (Hinv : (0 < PI / IZR npsi)%R).
  { apply Rmult_lt_0_compat; [lra|]. now apply Rinv_0_lt_compat. }
  set (r := bracket (ps G - 1) (pe G npsi + 1) (psiv G npsi) (Fin p)).
  assert (Hr : ps G - 1 <= r <= pe G npsi + 1 + 1).
  { apply bracket_range. unfold ps, pe. lia. }
  assert (Hfirst : psiv G npsi (ps G - 1)
                   = Fin ((IZR (-1) + 1 / 2) * (2 * PI / IZR npsi))).
  { unfold ps. replace (G - 1) with (G + -1) by lia.
    apply psiv_closed_form; lia. }
  assert (Hlast : psiv G npsi (pe G npsi + 1)
                  = Fin ((IZR npsi + 1 / 2) * (2 * PI / IZR npsi))).
  { unfold pe. replace (npsi + G - 1 + 1) with (G + npsi) by lia.
    apply psiv_closed_form; lia. }
  split.
  - destruct (Z.eq_dec r (ps G - 1)) as [E|Hne]; [|lia]. exfalso.
    assert (Hf : (psiv G npsi r >? Fin p)%xr = true).
    { apply bracket_found; unfold ps, pe in *; lia. }
    rewrite E, Hfirst in Hf. apply fgt_fin in Hf.
    replace ((IZR (-1) + 1 / 2) * (2 * PI / IZR npsi))%R
      with (- (PI / IZR npsi))%R in Hf by (field; lra).
    lra.
  - destruct (Z_le_gt_dec r (pe G npsi + 1)) as [Hle|Hgt]; [exact Hle|].
    exfalso.
    assert (Hq : (psiv G npsi (pe G npsi + 1)%Z >? Fin p)%xr = false).
    { apply (@bracket_passed (ps G - 1) (pe G npsi + 1)). fold r.
      unfold ps, pe in *. lia. }
    rewrite Hlast in Hq. apply fgt_fin_false in Hq.
    replace ((IZR npsi + 1 / 2) * (2 * PI / IZR npsi))%R
      with (2 * PI + PI / IZR npsi)%R in Hq by (field; lra).
    lra.
Qed.

End SearchRange.

(** *** Interpolation fractions and weights *)

Lemma fdiv_fin (x y : R) : y <> 0%R -> (Fin x / Fin y)%xr = Fin (x / y).
Proof.
  intros H. unfold fdiv. destruct (Req_dec_T y 0); [contradiction|reflexivity].
Qed.

Lemma weights_in_unit_interval (a b : R) :
  (0 <= a <= 1)%R -> (0 <= b <= 1)%R ->
  (0 <= (1 - a) * (1 - b) <= 1)%R /\ (0 <= (1 - a) * b <= 1)%R /\
  (0 <= a * (1 - b) <= 1)%R /\ (0 <= a * b <= 1)%R.
Proof. intros Ha Hb. repeat split; nra. Qed.

Section Fractions.

Variables G nzeta npsi : Z.
Hypothesis HG : 1 <= G.
Hypothesis Hnz : G <= nzeta.
Hypothesis Hnp : G <= npsi.

(** For a polar angle in [0, PI], [frac_l] is a non-negative number. *)
Lemma frac_l_nonneg (z : R) :
  (0 <= z <= PI)%R ->
  exists a : R, frac_l_of G nzeta (Fin z) = Fin a /\ (0 <= a)%R.
Proof.
  intros Hz. unfold frac_l_of.
  pose proof (@l_of_range G nzeta HG Hnz z Hz) as Hl.
  set (l_a := l_of G nzeta (Fin z)) in *.
  unfold zs, ze in Hl.
  assert (Hc : zetav G nzeta (l_a - 1) = Fin (zcentre nzeta (l_a - 1 - G))).
  { replace (l_a - 1) with (G + (l_a - 1 - G)) at 1 by lia.
    apply zetav_closed_form; lia. }
  assert (Hd : dzetaf G nzeta (l_a - 1)
               = Fin (zface nzeta (l_a - 1 - G + 1) - zface nzeta (l_a - 1 - G))).
  { replace (l_a - 1) with (G + (l_a - 1 - G)) at 1 by lia.
    apply dzetaf_closed_form; lia. }
  assert (Hp : (zetav G nzeta (l_a - 1)%Z >? Fin z)%xr = false).
  { apply (@bracket_passed (zs G - 1) (ze G nzeta + 1)).
    fold (l_of G nzeta (Fin z)). fold l_a. unfold zs. lia. }
  rewrite Hc in Hp. apply fgt_fin_false in Hp.
  assert (Hpos : (zface nzeta (l_a - 1 - G)
                  < zface nzeta (l_a - 1 - G + 1))%R).
  { apply zface_incr; lia. }
  rewrite Hc, Hd. unfold fsub, fneg, fadd. rewrite fdiv_fin by lra.
  eexists. split; [reflexivity|].
  apply Rmult_le_pos; [lra|]. left. apply Rinv_0_lt_compat. lra.
Qed.

(** For an azimuth in [0, 2 PI), [frac_m] is a number in [0, 1). *)
Lemma frac_m_unit (p : R) :
  (0 <= p < 2 * PI)%R ->
  exists b : R, frac_m_of G npsi (Fin p) = Fin b /\ (0 <= b < 1)%R.
Proof.
  intros Hp. unfold frac_m_of. pose proof PI_RGT_0 as Hpi.
  pose proof (@m_of_range G npsi HG Hnp p Hp) as Hm.
  set (m_a := m_of G npsi (Fin p)) in *.
  unfold ps, pe in Hm.
  assert (Hpos : (0 < IZR npsi)%R) by (apply IZR_lt; lia).
  assert (Hstep : (0 < 2 * PI / IZR npsi)%R).
  { apply Rmult_lt_0_compat; [lra|]. now apply Rinv_0_lt_compat. }
  assert (Hlo : psiv G npsi (m_a - 1)
                = Fin ((IZR (m_a - 1 - G) + 1 / 2) * (2 * PI / IZR npsi))).
  { replace (m_a - 1) with (G + (m_a - 1 - G)) at 1 by lia.
    apply psiv_closed_form; lia. }
  assert (Hhi : psiv G npsi m_a
                = Fin ((IZR (m_a - G) + 1 / 2) * (2 * PI / IZR npsi))).
  { replace m_a with (G + (m_a - G)) at 1 by lia.
    apply psiv_closed_form; lia. }
  assert (Hd : dpsif G npsi (m_a - 1) = Fin (2 * PI / IZR npsi)).
  { replace (m_a - 1) with (G + (m_a - 1 - G)) at 1 by lia.
    apply dpsif_closed_form; lia. }
  assert (Hpass : (psiv G npsi (m_a - 1)%Z >? Fin p)%xr = false).
  { apply (@bracket_passed (ps G - 1) (pe G npsi + 1)).
    fold (m_of G npsi (Fin p)). fold m_a. unfold ps. lia. }
  assert (Hfound : (psiv G npsi m_a >? Fin p)%xr = true).
  { apply bracket_found; [unfold ps, pe; lia|].
    change (m_a <= pe G npsi + 1). unfold pe. lia. }
  rewrite Hlo in Hpass. apply fgt_fin_false in Hpass.
  rewrite Hhi in Hfound. apply fgt_fin in Hfound.
  replace (m_a - G) with (m_a - 1 - G + 1) in Hfound by lia.
  rewrite plus_IZR in Hfound.
  set (j := IZR (m_a - 1 - G)) in *. set (d := (2 * PI / IZR npsi)%R) in *.
  rewrite Hlo, Hd. unfold fsub, fneg, fadd. rewrite fdiv_fin by lra.
  eexists. split; [reflexivity|].
  assert (Hinv : (0 < / d)%R) by now apply Rinv_0_lt_compat.
  unfold Rdiv. split.
  - apply Rmult_le_pos; lra.
  - apply Rmult_lt_reg_r with d; [assumption|].
    rewrite Rmult_assoc, Rinv_l by lra. lra.
Qed.

End Fractions.

(** The flat dual tetrad [diag (-1, 1, 1, 1)]. *)
Definition minkowskiR (n p : Z) : R :=
  if n =? p then (if n =? 0 then (-1)%R else 1%R) else 0%R.

(** *** A weight outside the unit interval *)

(** Numerical facts needed for the grid with [nzeta = 4]. *)
Lemma PI_lt_34 : (PI < 34 / 10)%R.
Proof.
  pose proof (PI_ineq 2) as [_ H].
  unfold sum_f_R0, tg_alt, PI_tg in H. simpl in H. lra.
Qed.

Lemma sqrt3_gt_17 : (17 / 10 < sqrt 3)%R.
Proof.
  apply Rsqr_incrst_0.
  - rewrite Rsqr_sqrt by lra. unfold Rsqr. lra.
  - lra.
  - apply sqrt_pos.
Qed.

Lemma acos_half : acos (1 / 2) = (PI / 3)%R.
Proof.
  rewrite <- cos_PI3. apply acos_cos. pose proof PI_RGT_0. lra.
Qed.

Lemma czetaR_4_1 : czetaR 4 1 = (1 / 2)%R.
Proof. unfold czetaR. lra. Qed.

Lemma zface_4_1 : zface 4 1 = (PI / 3)%R.
Proof. rewrite zface_interior by lia. now rewrite czetaR_4_1, acos_half. Qed.

Lemma zface_4_0 : zface 4 0 = 0%R.
Proof. rewrite zface_interior by lia. now rewrite czetaR_0, acos_1. Qed.

Lemma zface_4_m1 : zface 4 (-1) = (- (PI / 3))%R.
Proof.
  rewrite zface_north by lia. change (- -1) with 1.
  now rewrite czetaR_4_1, acos_half.
Qed.

(** The centre of the first interior polar cell, and of the ghost cell
    north of it. *)
Lemma zcentre_4_0 : zcentre 4 0 = (sqrt 3 - PI / 3)%R.
Proof.
  unfold zcentre. change (0 + 1) with 1.
  rewrite zface_4_1, zface_4_0, cos_PI3, sin_PI3, cos_0, sin_0. field.
Qed.

Lemma zcentre_4_m1 : zcentre 4 (-1) = (PI / 3 - sqrt 3)%R.
Proof.
  unfold zcentre. change (-1 + 1) with 0.
  rewrite zface_4_0, zface_4_m1, cos_neg, sin_neg, cos_PI3, sin_PI3, cos_0,
    sin_0.
  field.
Qed.

(** The flat dual tetrad turned about the first axis by the angle
    [alpha]. *)
Definition tilted_dualR (alpha : R) (n p : Z) : R :=
  if (n =? 0) && (p =? 0) then (-1)%R
  else if (n =? 1) && (p =? 1) then 1%R
  else if (n =? 2) && (p =? 2) then cos alpha
  else if (n =? 2) && (p =? 3) then sin alpha
  else if (n =? 3) && (p =? 2) then (- sin alpha)%R
  else if (n =? 3) && (p =? 3) then cos alpha
  else 0%R.

(** The turn that brings the first interior ring to the polar angle PI/6. *)
Definition tilt : R := (PI / 6 - zcentre 4 0)%R.

(** The column of the unit-direction table for the interior bin
    [(l, m) = (1, 1)] of the grid [nzeta = 4], [npsi = 2],
    [NGHOST_RAD = 1]. *)
Definition first_ring_column (p : Z) : Real :=
  nh_g (row_major2 (nang 1 4 2)) (row_major3 (nang 1 4 2) 4) 1 4 2
    (row_major2 (nang 1 4 2) p (AngleInd 1 2 1 1)).

Definition first_ringR (p : Z) : R :=
  if p =? 0 then 1%R
  else if p =? 1 then (sin (zcentre 4 0) * cos (PI / 2))%R
  else if p =? 2 then (sin (zcentre 4 0) * sin (PI / 2))%R
  else cos (zcentre 4 0).

Lemma first_ring_column_eq (p : Z) :
  0 <= p <= 3 -> first_ring_column p = Fin (first_ringR p).
Proof.
  intros Hp.
  destruct (@nh_g_direction (row_major2 (nang 1 4 2))
              (row_major3 (nang 1 4 2) 4) 1 4 2 1 1) as
    (zeta & psi & Hz & Hpsi & H0 & H1 & H2 & H3); try lia.
  - apply row_major2_injective.
  - unfold in_padded. lia.
  - change (zetav 1 4 1) with (zetav 1 4 (1 + 0)) in Hz.
    rewrite zetav_closed_form in Hz by lia. injection Hz as <-.
    change (psiv 1 2 1) with (psiv 1 2 (1 + 0)) in Hpsi.
    rewrite psiv_closed_form in Hpsi by lia. injection Hpsi as <-.
    replace ((IZR 0 + 1 / 2) * (2 * PI / IZR 2))%R with (PI / 2)%R
      in * by field.
    unfold first_ring_column, first_ringR.
    assert (Hc : p = 0 \/ p = 1 \/ p = 2 \/ p = 3) by lia.
    destruct Hc as [ -> | [ -> | [ -> | -> ] ] ]; simpl Z.eqb; cbv iota;
      assumption.
Qed.

(** Reflection through the inner-x1 face with the active tetrad turned by
    [alpha]: the direction of the first ring comes back at the polar angle
    [zcentre 4 0 + alpha], in the plane [psi = PI/2]. *)
Lemma tilted_direction (alpha : R) (n : Z) :
  0 <= n <= 3 ->
  transformed_direction (fin_mat identityR) (fin_mat (tilted_dualR alpha)) [1]
    first_ring_column n
  = Fin (if n =? 0 then 1
         else if n =? 1 then 0
         else if n =? 2 then sin (zcentre 4 0 + alpha)
         else cos (zcentre 4 0 + alpha))%R.
Proof.
  intros Hn.
  rewrite (@transformed_direction_fin identityR (tilted_dualR alpha) [1] _
             first_ringR)
    by (try assumption; apply first_ring_column_eq).
  f_equal. rewrite sin_plus, cos_plus.
  assert (Hc : n = 0 \/ n = 1 \/ n = 2 \/ n = 3) by lia.
  destruct Hc as [ -> | [ -> | [ -> | -> ] ] ];
    unfold directionR, tetradR, flipR, coordinateR, tilted_dualR, identityR,
      first_ringR;
    simpl; rewrite ?cos_PI2, ?sin_PI2; ring.
Qed.

Lemma tilted_zeta (alpha : R) :
  (0 <= zcentre 4 0 + alpha <= PI)%R ->
  zeta_of (transformed_direction (fin_mat identityR)
             (fin_mat (tilted_dualR alpha)) [1] first_ring_column)
  = Fin (zcentre 4 0 + alpha).
Proof.
  intros Ha. unfold zeta_of. rewrite !tilted_direction by lia.
  change (3 =? 0) with false. change (3 =? 1) with false.
  change (3 =? 2) with false. change (0 =? 0) with true. cbv iota.
  rewrite fdiv_fin by lra.
  pose proof (COS_bound (zcentre 4 0 + alpha)) as Hb.
  replace (cos (zcentre 4 0 + alpha) / 1)%R
    with (cos (zcentre 4 0 + alpha)) by field.
  rewrite facos_fin by lra. f_equal. apply acos_cos. lra.
Qed.

Lemma tilted_psi (alpha : R) :
  (0 < sin (zcentre 4 0 + alpha))%R ->
  psi_of (transformed_direction (fin_mat identityR)
            (fin_mat (tilted_dualR alpha)) [1] first_ring_column)
  = Fin (PI / 2).
Proof.
  intros Hs. unfold psi_of. rewrite !tilted_direction by lia.
  change (2 =? 0) with false. change (2 =? 1) with false.
  change (2 =? 2) with true. change (1 =? 0) with false.
  change (1 =? 1) with true. cbv iota.
  pose proof PI_RGT_0 as Hpi.
  assert (Ha : atan2R (sin (zcentre 4 0 + alpha)) 0 = (PI / 2)%R).
  { unfold atan2R.
    destruct (Rlt_dec 0 0); [lra|].
    destruct (Rlt_dec 0 (sin (zcentre 4 0 + alpha))); [reflexivity | lra]. }
  unfold fatan2. rewrite Ha. unfold flt.
  destruct (Rlt_dec (PI / 2) 0); [lra|]. unfold fadd. f_equal. lra.
Qed.

Lemma first_ring_centre_range : (0 < zcentre 4 0 < PI)%R.
Proof.
  rewrite zcentre_4_0. pose proof PI_RGT_0. pose proof PI_lt_34.
  pose proof sqrt3_gt_17. pose proof PI2_3_2.
  assert (sqrt 3 < 2)%R.
  { apply Rsqr_incrst_0; [|apply sqrt_pos|lra].
    rewrite Rsqr_sqrt by lra. unfold Rsqr. lra. }
  lra.
Qed.

Lemma tilted_l : l_of 1 4 (Fin (PI / 6)) = 1.
Proof.
  unfold l_of. pose proof PI_RGT_0 as Hpi.
  pose proof PI_lt_34. pose proof sqrt3_gt_17.
  apply bracket_at.
  - unfold zs, ze. lia.
  - intros y Hy. assert (y = 1 + -1) as -> by (unfold zs in Hy; lia).
    rewrite zetav_closed_form by lia. apply fgt_fin_false.
    rewrite zcentre_4_m1. lra.
  - change (zetav 1 4 1) with (zetav 1 4 (1 + 0)).
    rewrite zetav_closed_form by lia. apply fgt_fin.
    rewrite zcentre_4_0. lra.
Qed.

Lemma tilted_m : m_of 1 2 (Fin (PI / 2)) = 2.
Proof.
  unfold m_of. pose proof PI_RGT_0 as Hpi.
  apply bracket_at.
  - unfold ps, pe. lia.
  - intros y Hy. unfold ps in Hy.
    replace y with (1 + (y - 1)) by lia.
    rewrite psiv_closed_form by lia. apply fgt_fin_false.
    replace (2 * PI / IZR 2)%R with PI by field.
    assert (Hc : y - 1 = -1 \/ y - 1 = 0) by lia.
    destruct Hc as [ -> | -> ]; simpl IZR; lra.
  - change (psiv 1 2 2) with (psiv 1 2 (1 + 1)).
    rewrite psiv_closed_form by lia. apply fgt_fin.
    replace (2 * PI / IZR 2)%R with PI by field. lra.
Qed.

(** With the turn [tilt] the first weight of that entry is negative. *)
Lemma tilted_entry_weight :
  exists w : R,
    frac0 (remap_entry 1 4 2 (fin_mat identityR) (fin_mat (tilted_dualR tilt))
             [1] first_ring_column) = Fin w /\ (w < 0)%R.
Proof.
  pose proof PI_RGT_0 as Hpi.
  pose proof PI_lt_34 as Hpi34. pose proof sqrt3_gt_17 as Hs3.
  assert (Hsum : (zcentre 4 0 + tilt = PI / 6)%R) by (unfold tilt; ring).
  assert (Hz : zeta_of (transformed_direction (fin_mat identityR)
                          (fin_mat (tilted_dualR tilt)) [1] first_ring_column)
               = Fin (PI / 6)).
  { rewrite tilted_zeta by (rewrite Hsum; lra). now rewrite Hsum. }
  assert (Hp : psi_of (transformed_direction (fin_mat identityR)
                         (fin_mat (tilted_dualR tilt)) [1] first_ring_column)
               = Fin (PI / 2)).
  { apply tilted_psi. rewrite Hsum, sin_PI6. lra. }
  assert (Hfl : frac_l_of 1 4 (Fin (PI / 6))
                = Fin ((PI / 6 - (PI / 3 - sqrt 3)) / (PI / 3))).
  { unfold frac_l_of. rewrite tilted_l.
    change (1 - 1) with (1 + -1).
    rewrite zetav_closed_form, dzetaf_closed_form by lia.
    change (-1 + 1) with 0.
    rewrite zcentre_4_m1, zface_4_0, zface_4_m1.
    unfold fsub, fneg, fadd. rewrite fdiv_fin by lra. f_equal. field. lra. }
  assert (Hfm : frac_m_of 1 2 (Fin (PI / 2)) = Fin 0).
  { unfold frac_m_of. rewrite tilted_m.
    change (2 - 1) with (1 + 0).
    rewrite psiv_closed_form, dpsif_closed_form by lia.
    unfold fsub, fneg, fadd.
    replace (2 * PI / IZR 2)%R with PI by field.
    rewrite fdiv_fin by lra. f_equal. simpl IZR. field. lra. }
  eexists.
  unfold remap_entry. rewrite Hz, Hp.
  cbn [frac0 interpolate]. rewrite Hfl, Hfm.
  split; [reflexivity|].
  assert (Hgt : (1 < (PI / 6 - (PI / 3 - sqrt 3)) / (PI / 3))%R).
  { apply Rmult_lt_reg_r with (PI / 3)%R; [lra|].
    unfold Rdiv at 2. rewrite Rmult_assoc, Rinv_l by lra. lra. }
  nra.
Qed.

(** ** The tables filled by one block *)

Lemma for_loop_post {S : Type} (Inv : Z -> S -> Prop) (P : S -> Prop)
    (body : Z -> S -> S) (lo hi : Z) (s : S) :
  Inv lo s ->
  (forall l t, lo <= l <= hi -> Inv l t -> Inv (l + 1) (body l t)) ->
  (forall t, hi + 1 <= lo -> Inv lo t -> P t) ->
  (forall t, lo <= hi + 1 -> Inv (hi + 1) t -> P t) ->
  P (for_loop lo hi body s).
Proof.
  intros H0 Hstep Hempty Hfull.
  destruct (Z_lt_le_dec hi lo) as [Hlt|Hle].
  - rewrite for_loop_empty by assumption. apply Hempty; [lia | exact H0].
  - apply Hfull; [lia|]. apply for_loop_inv; [lia | exact H0 | exact Hstep].
Qed.

Section BlockTables.

Variables G nzeta npsi : Z.
Variable nh : Z -> Z -> Real.
Variables alo ahi blo bhi clo chi : Z.
Variable tetrads : Z -> Z -> Z -> Temps -> Temps.
Variable flips : list Z.

(** What the [Tetrad] calls of one ghost cell leave in [e_g] and
    [e_cov_a], as long as the temporaries satisfy [I]. *)
Variable I : Temps -> Prop.
Variables Eg Ec : Z -> Z -> Z -> mat.
Hypothesis I_kept : forall a b c t, I t -> I (tetrads a b c t).
Hypothesis e_g_set : forall a b c t, I t -> e_g (tetrads a b c t) = Eg a b c.
Hypothesis e_cov_a_read :
  forall a b c t, I t -> e_cov_a (tetrads a b c t) = Ec a b c.

Let entry (a b c lm : Z) : RemapEntry :=
  remap_entry G nzeta npsi (Eg a b c) (Ec a b c) flips (fun p => nh p lm).

Let in_block (a b c lm : Z) : Prop :=
  alo <= a <= ahi /\ blo <= b <= bhi /\ clo <= c <= chi /\
  0 <= lm < nang G nzeta npsi.

Lemma lm_loop_spec (a b c : Z) (t : Temps) (tab : Table) :
  fst (lm_loop G nzeta npsi nh flips a b c (t, tab)) = t /\
  forall lm a' b' c',
    snd (lm_loop G nzeta npsi nh flips a b c (t, tab)) lm a' b' c'
    = if (0 <=? lm) && (lm <? nang G nzeta npsi)
         && (a' =? a) && (b' =? b) && (c' =? c)
      then remap_entry G nzeta npsi (e_g t) (e_cov_a t) flips (fun p => nh p lm)
      else tab lm a' b' c'.
Proof.
  split; [reflexivity|]. intros lm a' b' c'. unfold lm_loop. cbn [fst snd].
  set (N := nang G nzeta npsi).
  pose (Inv := fun (l0 : Z) (x : Table) =>
    forall lm a' b' c',
      x lm a' b' c'
      = if (0 <=? lm) && (lm <? l0) && (a' =? a) && (b' =? b) && (c' =? c)
        then remap_entry G nzeta npsi (e_g t) (e_cov_a t) flips
               (fun p => nh p lm)
        else tab lm a' b' c').
  apply (for_loop_post Inv
           (fun x => x lm a' b' c'
              = if (0 <=? lm) && (lm <? N) && (a' =? a) && (b' =? b)
                   && (c' =? c)
                then remap_entry G nzeta npsi (e_g t) (e_cov_a t) flips
                       (fun p => nh p lm)
                else tab lm a' b' c')).
  - intros k x y z.
    destruct (Z.leb_spec 0 k), (Z.ltb_spec k 0); simpl; try reflexivity; lia.
  - intros l0 x Hl0 Hx k x' y' z'. unfold store. rewrite Hx.
    destruct (Z.eqb_spec k l0), (Z.leb_spec 0 k), (Z.ltb_spec k l0),
      (Z.ltb_spec k (l0 + 1)), (Z.eqb_spec x' a), (Z.eqb_spec y' b),
      (Z.eqb_spec z' c); simpl; subst; try reflexivity; lia.
  - intros x Hemp Hx. rewrite Hx.
    destruct (Z.leb_spec 0 lm), (Z.ltb_spec lm 0), (Z.ltb_spec lm N); simpl;
      try reflexivity; lia.
  - intros x Hfull Hx. rewrite Hx.
    replace (N - 1 + 1) with N by lia. reflexivity.
Qed.

(** Ghost cells visited before [(a0, b0, c0)]. *)
Let before (a0 b0 c0 a b c : Z) : Prop :=
  a < a0 \/ (a = a0 /\ (b < b0 \/ (b = b0 /\ c < c0))).

Let Done (a0 b0 c0 : Z) (s : Temps * Table) : Prop :=
  I (fst s) /\
  forall a b c lm, in_block a b c lm -> before a0 b0 c0 a b c ->
    snd s lm a b c = entry a b c lm.

(** After the block, every slot of every ghost cell of the block holds the
    entry computed from [Eg] and [Ec] at that cell. *)
Lemma face_block_spec (s : Temps * Table) :
  I (fst s) ->
  let s' := face_block G nzeta npsi nh alo ahi blo bhi clo chi tetrads flips s in
  I (fst s') /\
  forall a b c lm, in_block a b c lm -> snd s' lm a b c = entry a b c lm.
Proof.
  intros HI. cbv zeta. unfold face_block.
  assert (Hfin : forall t, Done (ahi + 1) blo clo t \/
                           (ahi + 1 <= alo /\ Done alo blo clo t) ->
     I (fst t) /\
     forall a b c lm, in_block a b c lm -> snd t lm a b c = entry a b c lm).
  { intros t [[Ht Hd]|[He [Ht Hd]]]; (split; [exact Ht|]);
      intros a b c lm Hin; apply Hd; try assumption;
      destruct Hin as (Ha & Hb & Hc & Hlm); unfold before; lia. }
  apply (for_loop_post (fun a0 t => Done a0 blo clo t)
           (fun t => I (fst t) /\
              forall a b c lm, in_block a b c lm ->
                snd t lm a b c = entry a b c lm)).
  - split; [exact HI|]. intros a b c lm (Ha & Hb' & Hc & _) Hb.
    unfold before in Hb. lia.
  - intros a0 t Ha0 Ht.
    apply (for_loop_post (fun b0 u => Done a0 b0 clo u)
             (fun u => Done (a0 + 1) blo clo u)).
    + destruct Ht as [Ht Hd]. split; [exact Ht|].
      intros a b c lm Hin Hb. apply Hd; [assumption|].
      destruct Hin as (Ha & Hb' & Hc & Hlm). unfold before in *. lia.
    + intros b0 u Hb0 Hu.
      apply (for_loop_post (fun c0 v => Done a0 b0 c0 v)
               (fun v => Done a0 (b0 + 1) clo v)).
      * exact Hu.
      * intros c0 v Hc0 [Hv Hd].
        destruct (lm_loop_spec a0 b0 c0 (tetrads a0 b0 c0 (fst v)) (snd v))
          as [Hf Hs].
        split.
        -- rewrite Hf. apply I_kept. exact Hv.
        -- intros a b c lm Hin Hb. rewrite Hs.
           destruct Hin as (Ha & Hb' & Hc & Hlm).
           destruct (Z.leb_spec 0 lm), (Z.ltb_spec lm (nang G nzeta npsi)),
             (Z.eqb_spec a a0), (Z.eqb_spec b b0), (Z.eqb_spec c c0);
             simpl; try lia;
             try (apply Hd; [unfold in_block; lia | unfold before in *; lia]).
           subst. unfold entry.
           rewrite e_g_set, e_cov_a_read by assumption. reflexivity.
      * intros v He [Hv Hd]. split; [exact Hv|].
        intros a b c lm Hin Hb. apply Hd; [assumption|].
        destruct Hin as (Ha & Hb' & Hc & Hlm). unfold before in *. lia.
      * intros v Hf [Hv Hd]. split; [exact Hv|].
        intros a b c lm Hin Hb. apply Hd; [assumption|].
        destruct Hin as (Ha & Hb' & Hc & Hlm). unfold before in *. lia.
    + intros u He [Hu Hd]. split; [exact Hu|].
      intros a b c lm Hin Hb. apply Hd; [assumption|].
      destruct Hin as (Ha & Hb' & Hc & Hlm). unfold before in *. lia.
    + intros u Hf [Hu Hd]. split; [exact Hu|].
      intros a b c lm Hin Hb. apply Hd; [assumption|].
      destruct Hin as (Ha & Hb' & Hc & Hlm). unfold before in *. lia.
  - intros t He Ht. apply Hfin. right. split; assumption.
  - intros t Hf Ht. apply Hfin. left. assumption.
Qed.

End BlockTables.

(** ** The dual tetrad read by the blocks *)

Section BlockDuals.

Variables G NGHOST nzeta npsi : Z.
Variables is_ ie js je ks ke : Z.
Variables x1v x2v x3v : Z -> Real.
Variable Tetrad : Real -> Real -> Real -> mat * mat.
Variable nh : Z -> Z -> Real.

Lemma Tetrad_g_fields (x1 x2 x3 : Real) (t : Temps) :
  e_g (Tetrad_g Tetrad x1 x2 x3 t) = fst (Tetrad x1 x2 x3) /\
  e_cov_g (Tetrad_g Tetrad x1 x2 x3 t) = snd (Tetrad x1 x2 x3) /\
  e_a (Tetrad_g Tetrad x1 x2 x3 t) = e_a t /\
  e_cov_a (Tetrad_g Tetrad x1 x2 x3 t) = e_cov_a t.
Proof. unfold Tetrad_g. destruct (Tetrad x1 x2 x3). repeat split. Qed.

Lemma Tetrad_a_fields (x1 x2 x3 : Real) (t : Temps) :
  e_g (Tetrad_a Tetrad x1 x2 x3 t) = e_g t /\
  e_cov_g (Tetrad_a Tetrad x1 x2 x3 t) = e_cov_g t /\
  e_a (Tetrad_a Tetrad x1 x2 x3 t) = fst (Tetrad x1 x2 x3) /\
  e_cov_a (Tetrad_a Tetrad x1 x2 x3 t) = snd (Tetrad x1 x2 x3).
Proof. unfold Tetrad_a. destruct (Tetrad x1 x2 x3). repeat split. Qed.

(** A reflection block converts back with the dual tetrad of the active
    cell, which it has just obtained from the tetrad provider. *)
Lemma reflect_ix1_entries (t0 : Temps) (tab0 : Table) (k j di lm : Z) :
  kl NGHOST ks ke <= k <= ku NGHOST ks ke ->
  jl NGHOST js je <= j <= ju NGHOST js je ->
  0 <= di <= NGHOST - 1 ->
  0 <= lm < nang G nzeta npsi ->
  snd (reflect_ix1 G NGHOST nzeta npsi is_ js je ks ke x1v x2v x3v Tetrad nh
         (t0, tab0)) lm k j di
  = remap_entry G nzeta npsi
      (fst (Tetrad (x1v (is_ - NGHOST + di)) (x2v j) (x3v k)))
      (snd (Tetrad (x1v (is_ + NGHOST - 1 - di)) (x2v j) (x3v k)))
      [1] (fun p => nh p lm).
Proof.
  intros Hk Hj Hdi Hlm. unfold reflect_ix1.
  apply (@face_block_spec G nzeta npsi nh _ _ _ _ _ _ _ [1] (fun _ => True)
           (fun k j di => fst (Tetrad (x1v (is_ - NGHOST + di)) (x2v j) (x3v k)))
           (fun k j di =>
              snd (Tetrad (x1v (is_ + NGHOST - 1 - di)) (x2v j) (x3v k))));
    try (intros; exact Logic.I); try (repeat split; lia).
  - intros a b c t _.
    destruct (Tetrad_a_fields (x1v (is_ + NGHOST - 1 - c)) (x2v b) (x3v a)
                (Tetrad_g Tetrad (x1v (is_ - NGHOST + c)) (x2v b) (x3v a) t))
      as (E & _). rewrite E.
    apply Tetrad_g_fields.
  - intros a b c t _. apply Tetrad_a_fields.
Qed.

(** The north polar block converts back with whatever [e_cov_a] held on
    entry to the block: its only [Tetrad] call fills [e_g] and [e_cov_g]. *)
Lemma polar_north_entries (t0 : Temps) (tab0 : Table) (k dj i lm : Z) :
  kl NGHOST ks ke <= k <= ku NGHOST ks ke ->
  0 <= dj <= NGHOST - 1 ->
  il NGHOST is_ <= i <= iu NGHOST ie ->
  0 <= lm < nang G nzeta npsi ->
  snd (polar_north G NGHOST nzeta npsi is_ ie js ks ke x1v x2v x3v Tetrad nh
         (t0, tab0)) lm k dj i
  = remap_entry G nzeta npsi
      (fst (Tetrad (x1v i) (x2v (js - NGHOST + dj)) (x3v k)))
      (e_cov_a t0)
      [2; 3] (fun p => nh p lm).
Proof.
  intros Hk Hdj Hi Hlm. unfold polar_north.
  apply (@face_block_spec G nzeta npsi nh _ _ _ _ _ _ _ [2; 3]
           (fun t => e_cov_a t = e_cov_a t0)
           (fun k dj i => fst (Tetrad (x1v i) (x2v (js - NGHOST + dj)) (x3v k)))
           (fun _ _ _ => e_cov_a t0));
    try reflexivity; try (repeat split; lia).
  - intros a b c t Ht. rewrite <- Ht. apply Tetrad_g_fields.
  - intros a b c t _. apply Tetrad_g_fields.
  - intros a b c t Ht. rewrite <- Ht. apply Tetrad_g_fields.
Qed.


End BlockDuals.

(** *** A polar cap on a block without reflecting faces *)

(** A north polar cap on the inner-x2 face, every other face periodic. *)
Definition bcs_north_pole (f : BoundaryFace) : BoundaryFlag :=
  match f with inner_x2 => polar | _ => periodic end.

(** The tetrad provider of flat space in Cartesian coordinates. *)
Definition flat_tetrad (x1 x2 x3 : Real) : mat * mat :=
  (fin_mat identityR, fin_mat minkowskiR).

(** The unit-direction table of the grid [nzeta = npsi = 2],
    [NGHOST_RAD = 1]. *)
Definition nh_g_2x2 (p lm : Z) : Real :=
  nh_g (row_major2 (nang 1 2 2)) (row_major3 (nang 1 2 2) 4) 1 2 2
    (row_major2 (nang 1 2 2) p lm).

Lemma nh_g_2x2_column :
  exists w : Z -> R,
    w 0 = 1%R /\ forall p, 0 <= p <= 3 -> nh_g_2x2 p 5 = Fin (w p).
Proof.
  destruct (@nh_g_direction (row_major2 (nang 1 2 2))
              (row_major3 (nang 1 2 2) 4) 1 2 2 1 1) as
    (zeta & psi & _ & _ & H0 & H1 & H2 & H3); try lia.
  - apply row_major2_injective.
  - unfold in_padded. lia.
  - exists (fun p => if p =? 0 then 1%R
                     else if p =? 1 then (sin zeta * cos psi)%R
                     else if p =? 2 then (sin zeta * sin psi)%R
                     else cos zeta).
    split; [reflexivity|]. intros p Hp. unfold nh_g_2x2.
    change 5 with (AngleInd 1 2 1 1).
    assert (Hc : p = 0 \/ p = 1 \/ p = 2 \/ p = 3) by lia.
    destruct Hc as [ -> | [ -> | [ -> | -> ] ] ]; simpl Z.eqb; cbv iota;
      assumption.
Qed.

Lemma zero_dual_gives_zero (E : Z -> Z -> R) (flips : list Z) (col : vec)
    (w : Z -> R) (n : Z) :
  (forall p, 0 <= p <= 3 -> col p = Fin (w p)) -> 0 <= n <= 3 ->
  transformed_direction (fin_mat E) zero_mat flips col n = Fin 0.
Proof.
  intros Hcol Hn. change zero_mat with (fin_mat zeroR).
  rewrite (@transformed_direction_fin E zeroR flips col w) by assumption.
  f_equal. unfold directionR, tetradR, zeroR. destruct (n =? 0); ring.
Qed.

Lemma flat_polar_time_component (col : vec) (w : Z -> R) :
  (forall p, 0 <= p <= 3 -> col p = Fin (w p)) ->
  transformed_direction (fin_mat identityR) (fin_mat minkowskiR) [2; 3] col 0
  = Fin (w 0).
Proof.
  intros Hcol.
  rewrite (@transformed_direction_fin identityR minkowskiR [2; 3] col w)
    by (try assumption; lia).
  f_equal.
  unfold directionR, tetradR, flipR, coordinateR, minkowskiR, identityR.
  simpl. ring.
Qed.

(** The table the constructor fills for that cap, on a block with
    [is = js = 2], [ie = je = 5], [ks = ke = 2], [NGHOST = 2] and integer
    cell centres; the ghost cell [(k, dj, i) = (2, 0, 2)] and the source bin
    [lm_g = 5 = AngleInd (1, 1)] are followed below. *)
Definition north_pole_table : Table :=
  snd (polar_north 1 2 2 2 2 5 2 2 2 of_int of_int of_int flat_tetrad
         nh_g_2x2 (new_temps, new_table)).

Lemma north_pole_table_built :
  polar_north_
    (construct_tables 1 2 2 2 bcs_north_pole 2 5 2 5 2 2
       of_int of_int of_int flat_tetrad nh_g_2x2) = Some north_pole_table.
Proof.
  cbv beta iota zeta delta [construct_tables guarded flag_eqb bcs_north_pole
                              polar_north_ north_pole_table].
  reflexivity.
Qed.

Lemma north_pole_entry :
  north_pole_table 5 2 0 2
  = remap_entry 1 2 2 (fin_mat identityR) zero_mat [2; 3]
      (fun p => nh_g_2x2 p 5).
Proof.
  unfold north_pole_table. rewrite polar_north_entries.
  - reflexivity.
  - unfold kl, ku. simpl. lia.
  - lia.
  - unfold il, iu. lia.
  - unfold nang. lia.
Qed.

Lemma north_pole_direction (n : Z) :
  0 <= n <= 3 ->
  transformed_direction (fin_mat identityR) zero_mat [2; 3]
    (fun p => nh_g_2x2 p 5) n = Fin 0.
Proof.
  intros Hn. destruct nh_g_2x2_column as (w & _ & Hw).
  apply (@zero_dual_gives_zero identityR [2; 3] _ w); assumption.
Qed.

Lemma north_pole_l :
  l_of 1 2 (zeta_of (transformed_direction (fin_mat identityR) zero_mat [2; 3]
                       (fun p => nh_g_2x2 p 5))) = 4.
Proof.
  rewrite (zeta_of_zero_time _ (@north_pole_direction 0 ltac:(lia))).
  rewrite l_of_nan by lia. reflexivity.
Qed.

Lemma north_pole_m :
  m_of 1 2 (psi_of (transformed_direction (fin_mat identityR) zero_mat [2; 3]
                      (fun p => nh_g_2x2 p 5))) = 1.
Proof.
  rewrite psi_of_origin by (apply north_pole_direction; lia).
  unfold m_of. pose proof PI_RGT_0 as Hpi.
  apply bracket_at.
  - unfold ps, pe. lia.
  - intros y Hy. assert (y = 1 + -1) as -> by (unfold ps in Hy; lia).
    rewrite psiv_closed_form by lia. apply fgt_fin_false.
    replace (IZR (-1) + 1 / 2)%R with (- (1 / 2))%R by lra.
    replace (2 * PI / IZR 2)%R with PI by field. lra.
  - change (psiv 1 2 1) with (psiv 1 2 (1 + 0)).
    rewrite psiv_closed_form by lia. apply fgt_fin.
    replace (2 * PI / IZR 2)%R with PI by field.
    replace (IZR 0 + 1 / 2)%R with (1 / 2)%R by lra. lra.
Qed.

(** C3 (the code departs from the claim): the claim asks that the polar
    blocks convert the transformed direction back with the dual tetrad
    evaluated at the ghost point, giving a positive time-like component.
    The polar blocks call [Tetrad] for [e_g], [e_cov_g] only and then read
    [e_cov_a].  On a block whose only special face is a north polar cap, in
    flat space, [e_cov_a] is still the zero array it was allocated as: the
    stored entry is the one computed with the zero matrix, its time-like
    component is 0 where the ghost point's dual tetrad gives 1, and its
    weight is NaN. *)
Theorem polar_block_reads_stale_dual_tetrad :
  polar_north_
    (construct_tables 1 2 2 2 bcs_north_pole 2 5 2 5 2 2
       of_int of_int of_int flat_tetrad nh_g_2x2) = Some north_pole_table /\
  north_pole_table 5 2 0 2
  = remap_entry 1 2 2 (fst (flat_tetrad (of_int 2) (of_int 0) (of_int 2)))
      zero_mat [2; 3] (fun p => nh_g_2x2 p 5) /\
  transformed_direction
    (fst (flat_tetrad (of_int 2) (of_int 0) (of_int 2))) zero_mat [2; 3]
    (fun p => nh_g_2x2 p 5) 0 = Fin 0 /\
  transformed_direction
    (fst (flat_tetrad (of_int 2) (of_int 0) (of_int 2)))
    (snd (flat_tetrad (of_int 2) (of_int 0) (of_int 2))) [2; 3]
    (fun p => nh_g_2x2 p 5) 0 = Fin 1 /\
  frac0 (north_pole_table 5 2 0 2) = NaN.
Proof.
  split; [exact north_pole_table_built|].
  split; [exact north_pole_entry|].
  split; [apply north_pole_direction; lia|].
  split.
  - destruct nh_g_2x2_column as (w & Hw0 & Hw).
    rewrite <- Hw0. apply flat_polar_time_component. exact Hw.
  - rewrite north_pole_entry. unfold remap_entry.
    rewrite (zeta_of_zero_time _ (@north_pole_direction 0 ltac:(lia))).
    apply interpolate_nan_zeta.
Qed.

(** ** Degenerate directions and exhausted searches *)

(** C6 (as amended): nothing inspects [nh_a[0]] before [zeta_a] and [psi_a]
    are computed, and no error is raised: when [nh_a[0]] is zero the builder
    still emits an entry, [zeta_a] is NaN and all four weights of the entry
    are NaN. *)
Theorem zero_time_component_gives_nan_entry
    (G nzeta npsi : Z) (e_g e_cov_a : mat) (flips : list Z) (nh : vec) :
  transformed_direction e_g e_cov_a flips nh 0 = Fin 0 ->
  exists e : RemapEntry,
    build_entry G nzeta npsi e_g e_cov_a flips nh = Emitted e /\
    zeta_of (transformed_direction e_g e_cov_a flips nh) = NaN /\
    frac0 e = NaN /\ frac1 e = NaN /\ frac2 e = NaN /\ frac3 e = NaN.
Proof.
  intros H. eexists. split; [reflexivity|].
  pose proof (zeta_of_zero_time _ H) as Hz. split; [exact Hz|].
  unfold remap_entry. rewrite Hz. apply interpolate_nan_zeta.
Qed.

Lemma zero_time_component_gives_nan_entry_witness :
  exists e : RemapEntry,
    build_entry 1 2 2 (fin_mat identityR) zero_mat [2; 3]
      (fun p => nh_g_2x2 p 5) = Emitted e /\
    zeta_of (transformed_direction (fin_mat identityR) zero_mat [2; 3]
               (fun p => nh_g_2x2 p 5)) = NaN /\
    frac0 e = NaN /\ frac1 e = NaN /\ frac2 e = NaN /\ frac3 e = NaN.
Proof.
  apply (@zero_time_component_gives_nan_entry 1 2 2 (fin_mat identityR)
           zero_mat [2; 3] (fun p => nh_g_2x2 p 5)).
  apply north_pole_direction. lia.
Defined.

(** The claim as stated fails: for the polar cap above the constructor
    stores, at ghost cell [(2, 0, 2)] and bin 5, the entry of a direction
    whose [nh_a[0]] is zero; no error is raised and the stored weight is
    NaN. *)
Lemma zero_time_component_not_detected :
  polar_north_
    (construct_tables 1 2 2 2 bcs_north_pole 2 5 2 5 2 2
       of_int of_int of_int flat_tetrad nh_g_2x2) = Some north_pole_table /\
  north_pole_table 5 2 0 2
  = remap_entry 1 2 2 (fin_mat identityR) zero_mat [2; 3]
      (fun p => nh_g_2x2 p 5) /\
  transformed_direction (fin_mat identityR) zero_mat [2; 3]
    (fun p => nh_g_2x2 p 5) 0 = Fin 0 /\
  (forall err,
     build_entry 1 2 2 (fin_mat identityR) zero_mat [2; 3]
       (fun p => nh_g_2x2 p 5) <> Raised err) /\
  is_nan (frac0 (north_pole_table 5 2 0 2)) = true.
Proof.
  pose proof (@north_pole_direction 0 ltac:(lia)) as H0.
  split; [exact north_pole_table_built|].
  split; [exact north_pole_entry|].
  split; [exact H0|]. split; [discriminate|].
  rewrite north_pole_entry. unfold remap_entry.
  rewrite (zeta_of_zero_time _ H0).
  destruct (interpolate_nan_zeta 1 2 2
              (psi_of (transformed_direction (fin_mat identityR) zero_mat
                         [2; 3] (fun p => nh_g_2x2 p 5)))) as (E0 & _).
  rewrite E0. reflexivity.
Qed.

(** C5 (as amended): the bracket searches raise no error and an entry is
    always emitted.  [l_a] ends in [zs-1 .. ze+2] and [m_a] in
    [ps-1 .. pe+2]; a search that stops inside its range stops at a centre
    exceeding the angle, and one that exhausts its range ends one past it
    ([ze+2], [pe+2]) after every comparison failed, the entry being built
    from that position all the same.  When [NGHOST_RAD] does not exceed
    either resolution, the positions [l_a - 1] and [m_a - 1] at which the
    centres and spacings are read afterwards lie in the padded ranges; if
    moreover [zeta_a], [psi_a] are numbers, [l_a] lies in [zs .. ze+1] and
    [m_a] in [ps .. pe+1]; and whenever they do, the four stored indices are
    bins of the padded grid. *)
Theorem bracket_search_emits_without_error
    (G nzeta npsi : Z) (e_g e_cov_a : mat) (flips : list Z) (nh : vec) :
  1 <= G -> 1 <= nzeta -> 1 <= npsi ->
  let nh_a := transformed_direction e_g e_cov_a flips nh in
  let l_a := l_of G nzeta (zeta_of nh_a) in
  let m_a := m_of G npsi (psi_of nh_a) in
  exists e : RemapEntry,
    build_entry G nzeta npsi e_g e_cov_a flips nh = Emitted e /\
    (zs G - 1 <= l_a <= ze G nzeta + 2) /\
    (ps G - 1 <= m_a <= pe G npsi + 2) /\
    (l_a <= ze G nzeta + 1 -> (zetav G nzeta l_a >? zeta_of nh_a)%xr = true) /\
    (m_a <= pe G npsi + 1 -> (psiv G npsi m_a >? psi_of nh_a)%xr = true) /\
    (l_a = ze G nzeta + 2 ->
       forall y, zs G - 1 <= y <= ze G nzeta + 1 ->
         (zetav G nzeta y >? zeta_of nh_a)%xr = false) /\
    (m_a = pe G npsi + 2 ->
       forall y, ps G - 1 <= y <= pe G npsi + 1 ->
         (psiv G npsi y >? psi_of nh_a)%xr = false) /\
    (ind0 e = AngleInd G npsi (l_a - 1) (m_a - 1) /\
     ind1 e = AngleInd G npsi (l_a - 1) m_a /\
     ind2 e = AngleInd G npsi l_a (m_a - 1) /\
     ind3 e = AngleInd G npsi l_a m_a) /\
    (G <= nzeta -> G <= npsi ->
       0 <= l_a - 1 <= nzeta + 2 * G - 1 /\
       0 <= m_a - 1 <= npsi + 2 * G - 1) /\
    (G <= nzeta -> G <= npsi ->
     forall z p : R, zeta_of nh_a = Fin z -> psi_of nh_a = Fin p ->
       zs G <= l_a <= ze G nzeta + 1 /\ ps G <= m_a <= pe G npsi + 1) /\
    (zs G <= l_a <= ze G nzeta + 1 -> ps G <= m_a <= pe G npsi + 1 ->
       0 <= ind0 e < nang G nzeta npsi /\ 0 <= ind1 e < nang G nzeta npsi /\
       0 <= ind2 e < nang G nzeta npsi /\ 0 <= ind3 e < nang G nzeta npsi).
Proof.
  intros HG Hnz Hnp nh_a l_a m_a.
  assert (Hlr : zs G - 1 <= ze G nzeta + 1 + 1) by (unfold zs, ze; lia).
  assert (Hmr : ps G - 1 <= pe G npsi + 1 + 1) by (unfold ps, pe; lia).
  eexists. split; [reflexivity|].
  split. { pose proof (@bracket_range _ _ (zetav G nzeta) (zeta_of nh_a) Hlr).
           unfold l_a, l_of. lia. }
  split. { pose proof (@bracket_range _ _ (psiv G npsi) (psi_of nh_a) Hmr).
           unfold m_a, m_of. lia. }
  split. { intros H. apply bracket_found; assumption. }
  split. { intros H. apply bracket_found; assumption. }
  split. { intros H y Hy. apply (@bracket_passed (zs G - 1) (ze G nzeta + 1)).
           fold (l_of G nzeta (zeta_of nh_a)). fold l_a. lia. }
  split. { intros H y Hy. apply (@bracket_passed (ps G - 1) (pe G npsi + 1)).
           fold (m_of G npsi (psi_of nh_a)). fold m_a. lia. }
  split. { repeat split. }
  split.
  { intros HGz HGp.
    pose proof (@bracket_range _ _ (zetav G nzeta) (zeta_of nh_a) Hlr) as Bl.
    pose proof (@bracket_range _ _ (psiv G npsi) (psi_of nh_a) Hmr) as Bm.
    fold (l_of G nzeta (zeta_of nh_a)) in Bl. fold l_a in Bl.
    fold (m_of G npsi (psi_of nh_a)) in Bm. fold m_a in Bm.
    assert (Hl0 : zs G <= l_a).
    { unfold l_a. destruct (facos_cases (nh_a 3 / nh_a 0)%xr) as [E|[z E]];
        fold (zeta_of nh_a) in E; rewrite E.
      - rewrite l_of_nan by lia. unfold zs, ze. lia.
      - apply l_of_range; try assumption. apply (facos_range _ E). }
    assert (Hm0 : ps G <= m_a).
    { unfold m_a. destruct (psi_of_cases nh_a) as [E|[p E]]; rewrite E.
      - unfold m_of. rewrite bracket_nan; unfold ps, pe; lia.
      - apply m_of_range; try assumption. apply (psi_of_range _ E). }
    unfold zs, ze, ps, pe in *. lia. }
  split.
  { intros HGz HGp z p Hz Hp. unfold l_a, m_a. rewrite Hz, Hp. split.
    - apply l_of_range; try assumption. apply (facos_range _ Hz).
    - apply m_of_range; try assumption. apply (psi_of_range _ Hp). }
  intros Hl Hm.
  pose proof (@remap_indices_valid G nzeta npsi l_a m_a HG Hnz Hnp Hl Hm) as V.
  cbn [ind0 ind1 ind2 ind3 remap_entry interpolate].
  fold nh_a. fold l_a. fold m_a.
  repeat split; apply V; auto.
Qed.

Lemma bracket_search_emits_without_error_witness :
  let nh_a := transformed_direction (fin_mat identityR) zero_mat [2; 3]
                (fun p => nh_g_2x2 p 5) in
  let l_a := l_of 1 2 (zeta_of nh_a) in
  let m_a := m_of 1 2 (psi_of nh_a) in
  exists e : RemapEntry,
    build_entry 1 2 2 (fin_mat identityR) zero_mat [2; 3]
      (fun p => nh_g_2x2 p 5) = Emitted e /\
    (zs 1 - 1 <= l_a <= ze 1 2 + 2) /\
    (ps 1 - 1 <= m_a <= pe 1 2 + 2) /\
    (l_a <= ze 1 2 + 1 -> (zetav 1 2 l_a >? zeta_of nh_a)%xr = true) /\
    (m_a <= pe 1 2 + 1 -> (psiv 1 2 m_a >? psi_of nh_a)%xr = true) /\
    (l_a = ze 1 2 + 2 ->
       forall y, zs 1 - 1 <= y <= ze 1 2 + 1 ->
         (zetav 1 2 y >? zeta_of nh_a)%xr = false) /\
    (m_a = pe 1 2 + 2 ->
       forall y, ps 1 - 1 <= y <= pe 1 2 + 1 ->
         (psiv 1 2 y >? psi_of nh_a)%xr = false) /\
    (ind0 e = AngleInd 1 2 (l_a - 1) (m_a - 1) /\
     ind1 e = AngleInd 1 2 (l_a - 1) m_a /\
     ind2 e = AngleInd 1 2 l_a (m_a - 1) /\
     ind3 e = AngleInd 1 2 l_a m_a) /\
    (1 <= 2 -> 1 <= 2 ->
       0 <= l_a - 1 <= 2 + 2 * 1 - 1 /\ 0 <= m_a - 1 <= 2 + 2 * 1 - 1) /\
    (1 <= 2 -> 1 <= 2 ->
     forall z p : R, zeta_of nh_a = Fin z -> psi_of nh_a = Fin p ->
       zs 1 <= l_a <= ze 1 2 + 1 /\ ps 1 <= m_a <= pe 1 2 + 1) /\
    (zs 1 <= l_a <= ze 1 2 + 1 -> ps 1 <= m_a <= pe 1 2 + 1 ->
       0 <= ind0 e < nang 1 2 2 /\ 0 <= ind1 e < nang 1 2 2 /\
       0 <= ind2 e < nang 1 2 2 /\ 0 <= ind3 e < nang 1 2 2).
Proof.
  apply (@bracket_search_emits_without_error 1 2 2 (fin_mat identityR)
           zero_mat [2; 3] (fun p => nh_g_2x2 p 5)); lia.
Defined.

(** The claim as stated fails: for the polar cap above, at ghost cell
    [(2, 0, 2)] and bin 5, the polar search runs past [ze+1], no error is
    raised, and the stored entry holds the index 17 in a grid of 16 bins. *)
Lemma exhausted_search_stores_invalid_bin :
  polar_north_
    (construct_tables 1 2 2 2 bcs_north_pole 2 5 2 5 2 2
       of_int of_int of_int flat_tetrad nh_g_2x2) = Some north_pole_table /\
  north_pole_table 5 2 0 2
  = remap_entry 1 2 2 (fin_mat identityR) zero_mat [2; 3]
      (fun p => nh_g_2x2 p 5) /\
  l_of 1 2 (zeta_of (transformed_direction (fin_mat identityR) zero_mat [2; 3]
                       (fun p => nh_g_2x2 p 5))) = ze 1 2 + 2 /\
  (forall err,
     build_entry 1 2 2 (fin_mat identityR) zero_mat [2; 3]
       (fun p => nh_g_2x2 p 5) <> Raised err) /\
  ind3 (north_pole_table 5 2 0 2) = 17 /\
  nang 1 2 2 = 16 /\
  ~ (0 <= ind3 (north_pole_table 5 2 0 2) < nang 1 2 2).
Proof.
  assert (Hi : ind3 (north_pole_table 5 2 0 2) = 17).
  { rewrite north_pole_entry. cbn [ind3 remap_entry interpolate].
    rewrite north_pole_l, north_pole_m. reflexivity. }
  split; [exact north_pole_table_built|].
  split; [exact north_pole_entry|].
  split; [rewrite north_pole_l; reflexivity|].
  split; [discriminate|]. split; [exact Hi|]. split; [reflexivity|].
  rewrite Hi. unfold nang. lia.
Qed.

(** ** The bilinear weights *)

(** *** A reflecting inner-x1 face between two frames *)

(** A reflecting inner-x1 face, every other face periodic. *)
Definition bcs_reflect_ix1 (f : BoundaryFace) : BoundaryFlag :=
  match f with inner_x1 => reflect | _ => periodic end.

(** The flat tetrad turned about the first axis by [alpha]; its dual is
    [tilted_dualR alpha]. *)
Definition tilted_frameR (alpha : R) (p n : Z) : R :=
  if (p =? 0) && (n =? 0) then 1%R
  else if (p =? 1) && (n =? 1) then 1%R
  else if (p =? 2) && (n =? 2) then cos alpha
  else if (p =? 2) && (n =? 3) then sin alpha
  else if (p =? 3) && (n =? 2) then (- sin alpha)%R
  else if (p =? 3) && (n =? 3) then cos alpha
  else 0%R.

(** A tetrad provider whose frame is aligned with the axes for [x1 < 2] and
    turned by [tilt] from there on. *)
Definition tilted_provider (x1 x2 x3 : Real) : mat * mat :=
  if (x1 <? Fin 2)%xr
  then (fin_mat identityR, fin_mat minkowskiR)
  else (fin_mat (tilted_frameR tilt), fin_mat (tilted_dualR tilt)).

(** The unit-direction table of the grid [nzeta = 4], [npsi = 2],
    [NGHOST_RAD = 1]. *)
Definition nh_g_4x2 (p lm : Z) : Real :=
  nh_g (row_major2 (nang 1 4 2)) (row_major3 (nang 1 4 2) 4) 1 4 2
    (row_major2 (nang 1 4 2) p lm).

(** The inner-x1 reflection table of a block with [is = 2], [ie = 5],
    [js = je = ks = ke = 2], [NGHOST = 2] and integer cell centres; the
    ghost cell [(k, j, di) = (2, 2, 0)], whose mirror is the cell [i = 3],
    and the source bin [lm_g = 5 = AngleInd (1, 1)] are followed below. *)
Definition tilted_table : Table :=
  snd (reflect_ix1 1 2 4 2 2 2 2 2 2 of_int of_int of_int tilted_provider
         nh_g_4x2 (new_temps, new_table)).

Lemma tilted_table_built :
  reflect_table 1 2 4 2 bcs_reflect_ix1 2 5 2 2 2 2
    of_int of_int of_int tilted_provider nh_g_4x2 inner_x1
  = Some tilted_table.
Proof.
  cbv beta iota zeta delta [reflect_table construct_tables guarded flag_eqb
                              bcs_reflect_ix1 reflect_ix1_ tilted_table].
  reflexivity.
Qed.

Lemma tilted_entry :
  tilted_table 5 2 2 0
  = remap_entry 1 4 2 (fin_mat identityR) (fin_mat (tilted_dualR tilt)) [1]
      first_ring_column.
Proof.
  unfold tilted_table. rewrite reflect_ix1_entries.
  - unfold tilted_provider, of_int, flt.
    replace (2 - 2 + 0) with 0 by lia. replace (2 + 2 - 1 - 0) with 3 by lia.
    destruct (Rlt_dec (IZR 0) 2); [|lra].
    destruct (Rlt_dec (IZR 3) 2); [lra|].
    reflexivity.
  - unfold kl, ku. simpl. lia.
  - unfold jl, ju. simpl. lia.
  - lia.
  - unfold nang. lia.
Qed.

(** C2 (as amended): on a grid with
    [1 <= NGHOST_RAD <= min (nzeta, npsi)], for every entry whose angles
    [zeta_a] and [psi_a] are numbers, the two fractions are numbers with
    [0 <= frac_l] and [0 <= frac_m < 1], the four weights
    [(1-frac_l)(1-frac_m)], [(1-frac_l) frac_m], [frac_l (1-frac_m)],
    [frac_l frac_m] add up to 1, and each of them lies in [0, 1] whenever
    [frac_l <= 1]. *)
Theorem bilinear_weights_of_numeric_angles
    (G nzeta npsi : Z) (e_g e_cov_a : mat) (flips : list Z) (nh : vec)
    (z p : R) :
  1 <= G -> G <= nzeta -> G <= npsi ->
  zeta_of (transformed_direction e_g e_cov_a flips nh) = Fin z ->
  psi_of (transformed_direction e_g e_cov_a flips nh) = Fin p ->
  exists a b w0 w1 w2 w3 : R,
    frac_l_of G nzeta (Fin z) = Fin a /\
    frac_m_of G npsi (Fin p) = Fin b /\
    (0 <= a)%R /\ (0 <= b < 1)%R /\
    frac0 (remap_entry G nzeta npsi e_g e_cov_a flips nh) = Fin w0 /\
    frac1 (remap_entry G nzeta npsi e_g e_cov_a flips nh) = Fin w1 /\
    frac2 (remap_entry G nzeta npsi e_g e_cov_a flips nh) = Fin w2 /\
    frac3 (remap_entry G nzeta npsi e_g e_cov_a flips nh) = Fin w3 /\
    (w0 + w1 + w2 + w3 = 1)%R /\
    ((a <= 1)%R ->
     (0 <= w0 <= 1)%R /\ (0 <= w1 <= 1)%R /\
     (0 <= w2 <= 1)%R /\ (0 <= w3 <= 1)%R).
Proof.
  intros HG Hnz Hnp Hz Hp.
  pose proof (facos_range _ Hz) as Hzr.
  pose proof (psi_of_range _ Hp) as Hpr.
  destruct (@frac_l_nonneg G nzeta HG Hnz z Hzr) as (a & Ha & Ha0).
  destruct (@frac_m_unit G npsi HG Hnp p Hpr) as (b & Hb & Hb01).
  exists a, b, ((1 - a) * (1 - b))%R, ((1 - a) * b)%R,
         (a * (1 - b))%R, (a * b)%R.
  unfold remap_entry. rewrite Hz, Hp.
  cbn [frac0 frac1 frac2 frac3 interpolate]. rewrite Ha, Hb.
  repeat (split; [first [reflexivity | assumption | lra | ring] |]).
  intros Ha1. apply weights_in_unit_interval; lra.
Qed.

Lemma bilinear_weights_of_numeric_angles_witness :
  exists a b w0 w1 w2 w3 : R,
    frac_l_of 1 4 (Fin (zcentre 4 0 + 0)) = Fin a /\
    frac_m_of 1 2 (Fin (PI / 2)) = Fin b /\
    (0 <= a)%R /\ (0 <= b < 1)%R /\
    frac0 (remap_entry 1 4 2 (fin_mat identityR) (fin_mat (tilted_dualR 0))
             [1] first_ring_column) = Fin w0 /\
    frac1 (remap_entry 1 4 2 (fin_mat identityR) (fin_mat (tilted_dualR 0))
             [1] first_ring_column) = Fin w1 /\
    frac2 (remap_entry 1 4 2 (fin_mat identityR) (fin_mat (tilted_dualR 0))
             [1] first_ring_column) = Fin w2 /\
    frac3 (remap_entry 1 4 2 (fin_mat identityR) (fin_mat (tilted_dualR 0))
             [1] first_ring_column) = Fin w3 /\
    (w0 + w1 + w2 + w3 = 1)%R /\
    ((a <= 1)%R ->
     (0 <= w0 <= 1)%R /\ (0 <= w1 <= 1)%R /\
     (0 <= w2 <= 1)%R /\ (0 <= w3 <= 1)%R).
Proof.
  pose proof first_ring_centre_range as Hc.
  apply (@bilinear_weights_of_numeric_angles 1 4 2 (fin_mat identityR)
           (fin_mat (tilted_dualR 0)) [1] first_ring_column
           (zcentre 4 0 + 0) (PI / 2)); try lia.
  - apply tilted_zeta. lra.
  - apply tilted_psi. rewrite Rplus_0_r. apply sin_gt_0; lra.
Defined.

(** The claim as stated fails: for the reflecting face above, the entry the
    constructor stores at ghost cell [(2, 2, 0)] and bin 5 has a negative
    first weight. *)
Lemma tilted_reflection_negative_weight :
  reflect_table 1 2 4 2 bcs_reflect_ix1 2 5 2 2 2 2
    of_int of_int of_int tilted_provider nh_g_4x2 inner_x1
  = Some tilted_table /\
  exists w : R, frac0 (tilted_table 5 2 2 0) = Fin w /\ (w < 0)%R.
Proof.
  split; [exact tilted_table_built|].
  rewrite tilted_entry. exact tilted_entry_weight.
Qed.

(** * Further properties of the angular grid *)

(** ** Symmetries of the polar faces *)

Lemma zface_0 (nzeta : Z) : 1 <= nzeta -> zface nzeta 0 = 0%R.
Proof.
  intros Hn. rewrite zface_interior by lia. now rewrite czetaR_0, acos_1.
Qed.

Lemma zface_n (nzeta : Z) : 1 <= nzeta -> zface nzeta nzeta = PI.
Proof.
  intros Hn. rewrite zface_interior by lia. now rewrite czetaR_n, acos_m1.
Qed.

(** Reflection in the north pole. *)
Lemma zface_neg (nzeta j : Z) :
  1 <= nzeta -> - nzeta <= j <= nzeta ->
  zface nzeta (- j) = (- zface nzeta j)%R.
Proof.
  intros Hn Hj.
  destruct (Z.lt_trichotomy j 0) as [Hlt|[->|Hgt]].
  - rewrite (@zface_north nzeta j) by lia.
    rewrite zface_interior by lia. lra.
  - simpl. rewrite zface_0 by assumption. lra.
  - rewrite zface_north by lia. rewrite (@zface_interior nzeta j) by lia.
    now rewrite Z.opp_involutive.
Qed.

(** Reflection in the south pole. *)
Lemma zface_south_mirror (nzeta j : Z) :
  1 <= nzeta -> 0 <= j <= 2 * nzeta ->
  zface nzeta (2 * nzeta - j) = (2 * PI - zface nzeta j)%R.
Proof.
  intros Hn Hj.
  destruct (Z.lt_trichotomy j nzeta) as [Hlt|[->|Hgt]].
  - rewrite zface_south by lia. rewrite (@zface_interior nzeta j) by lia.
    now replace (2 * nzeta - (2 * nzeta - j)) with j by lia.
  - replace (2 * nzeta - nzeta) with nzeta by lia.
    rewrite zface_n by assumption. lra.
  - rewrite zface_interior by lia. rewrite (@zface_south nzeta j) by lia. lra.
Qed.

(** Reflection in the equator. *)
Lemma zface_equator_mirror (nzeta j : Z) :
  1 <= nzeta -> - nzeta <= j <= 2 * nzeta ->
  zface nzeta (nzeta - j) = (PI - zface nzeta j)%R.
Proof.
  intros Hn Hj.
  destruct (Z_lt_le_dec j 0) as [Hneg|Hpos].
  - rewrite zface_south by lia. rewrite (@zface_north nzeta j) by lia.
    replace (2 * nzeta - (nzeta - j)) with (nzeta - - j) by lia.
    rewrite czetaR_mirror, acos_opp by assumption. lra.
  - destruct (Z_le_gt_dec j nzeta) as [Hle|Hgt].
    + rewrite zface_interior by lia. rewrite (@zface_interior nzeta j) by lia.
      rewrite czetaR_mirror, acos_opp by assumption. reflexivity.
    + rewrite zface_north by lia. rewrite (@zface_south nzeta j) by lia.
      replace (2 * nzeta - j) with (nzeta - - (nzeta - j)) by lia.
      rewrite czetaR_mirror, acos_opp by assumption. lra.
Qed.

(** The faces of an interior bin lie in [[0, PI]]. *)
Lemma zface_interior_range (nzeta j : Z) :
  1 <= nzeta -> 0 <= j <= nzeta -> (0 <= zface nzeta j <= PI)%R.
Proof.
  intros Hn Hj. rewrite zface_interior by lia. apply acos_bound.
Qed.

(** ** The centre of a polar bin lies inside the bin *)

(** The centre [(b cos b - sin b - a cos a + sin a) / (cos b - cos a)] of
    an interval [[a, b]] of [[0, PI]] lies strictly between [a] and [b]. *)
Lemma weighted_centre_inside (a b : R) :
  (0 <= a)%R -> (a < b)%R -> (b <= PI)%R ->
  (a < (b * cos b - sin b - a * cos a + sin a) / (cos b - cos a) < b)%R.
Proof.
  intros Ha Hab Hb.
  assert (Hcos : (cos b < cos a)%R) by (apply cos_decreasing_1; lra).
  assert (Hinv : (/ (cos b - cos a) < 0)%R) by (apply Rinv_lt_0_compat; lra).
  assert (Hlow : (sin a - (a - a) * cos a < sin b - (b - a) * cos b)%R).
  { pose (f := (sin - (id - fct_cte a) * cos)%F).
    assert (Hf : (f a < f b)%R).
    { eapply (MVT.derive_increasing_interv a b
                (sin - (id - fct_cte a) * cos)%F); try lra.
      intros t Ht.
      rewrite derive_pt_minus, derive_pt_mult, derive_pt_minus, derive_pt_id,
        derive_pt_const, derive_pt_sin, derive_pt_cos.
      unfold minus_fct, id, fct_cte.
      pose proof (sin_gt_0 t ltac:(lra) ltac:(lra)).
      replace (cos t - ((1 - 0) * cos t + (t - a) * - sin t))%R
        with ((t - a) * sin t)%R by ring.
      apply Rmult_lt_0_compat; lra. }
    unfold f, minus_fct, mult_fct, id, fct_cte in Hf. exact Hf. }
  assert (Hhigh : ((a - b) * cos a - sin a < (b - b) * cos b - sin b)%R).
  { pose (f := ((id - fct_cte b) * cos - sin)%F).
    assert (Hf : (f a < f b)%R).
    { eapply (MVT.derive_increasing_interv a b
                ((id - fct_cte b) * cos - sin)%F); try lra.
      intros t Ht.
      rewrite derive_pt_minus, derive_pt_mult, derive_pt_minus, derive_pt_id,
        derive_pt_const, derive_pt_sin, derive_pt_cos.
      unfold minus_fct, id, fct_cte.
      pose proof (sin_gt_0 t ltac:(lra) ltac:(lra)).
      replace ((1 - 0) * cos t + (t - b) * - sin t - cos t)%R
        with ((b - t) * sin t)%R by ring.
      apply Rmult_lt_0_compat; lra. }
    unfold f, minus_fct, mult_fct, id, fct_cte in Hf. exact Hf. }
  split.
  - replace ((b * cos b - sin b - a * cos a + sin a) / (cos b - cos a))%R
      with (a + (sin b - (b - a) * cos b - (sin a - (a - a) * cos a))
                * - / (cos b - cos a))%R by (field; lra).
    assert (0 < (sin b - (b - a) * cos b - (sin a - (a - a) * cos a))
                * - / (cos b - cos a))%R by (apply Rmult_lt_0_compat; lra).
    lra.
  - replace ((b * cos b - sin b - a * cos a + sin a) / (cos b - cos a))%R
      with (b - ((b - b) * cos b - sin b - ((a - b) * cos a - sin a))
                * - / (cos b - cos a))%R by (field; lra).
    assert (0 < ((b - b) * cos b - sin b - ((a - b) * cos a - sin a))
                * - / (cos b - cos a))%R by (apply Rmult_lt_0_compat; lra).
    lra.
Qed.

(** The centres mirror like the faces. *)
Lemma zcentre_neg (nzeta j : Z) :
  1 <= nzeta -> 0 <= j < nzeta ->
  zcentre nzeta (- 1 - j) = (- zcentre nzeta j)%R.
Proof.
  intros Hn Hj. unfold zcentre.
  pose proof (@cos_zface_step nzeta Hn j ltac:(lia)) as Hd.
  replace (- 1 - j + 1) with (- j) by lia.
  replace (- 1 - j) with (- (j + 1)) by lia.
  rewrite !zface_neg by lia.
  rewrite !cos_neg, !sin_neg. field. lra.
Qed.

Lemma zcentre_south_mirror (nzeta j : Z) :
  1 <= nzeta -> 0 <= j < nzeta ->
  zcentre nzeta (2 * nzeta - 1 - j) = (2 * PI - zcentre nzeta j)%R.
Proof.
  intros Hn Hj. unfold zcentre.
  pose proof (@cos_zface_step nzeta Hn j ltac:(lia)) as Hd.
  replace (2 * nzeta - 1 - j + 1) with (2 * nzeta - j) by lia.
  replace (2 * nzeta - 1 - j) with (2 * nzeta - (j + 1)) by lia.
  rewrite !zface_south_mirror by lia.
  rewrite !cos_minus, !sin_minus, cos_2PI, sin_2PI. field. lra.
Qed.

Lemma zcentre_equator_mirror (nzeta j : Z) :
  1 <= nzeta -> - nzeta <= j < 2 * nzeta ->
  zcentre nzeta (nzeta - 1 - j) = (PI - zcentre nzeta j)%R.
Proof.
  intros Hn Hj. unfold zcentre.
  pose proof (@cos_zface_step nzeta Hn j ltac:(lia)) as Hd.
  replace (nzeta - 1 - j + 1) with (nzeta - j) by lia.
  replace (nzeta - 1 - j) with (nzeta - (j + 1)) by lia.
  rewrite !zface_equator_mirror by lia.
  rewrite !cos_minus, !sin_minus, cos_PI, sin_PI. field. lra.
Qed.

Lemma zcentre_inside (nzeta j : Z) :
  1 <= nzeta -> - nzeta <= j < 2 * nzeta ->
  (zface nzeta j < zcentre nzeta j < zface nzeta (j + 1))%R.
Proof.
  intros Hn Hj.
  assert (Hin : forall i, 0 <= i < nzeta ->
            (zface nzeta i < zcentre nzeta i < zface nzeta (i + 1))%R).
  { intros i Hi. unfold zcentre.
    pose proof (@zface_interior_range nzeta i Hn ltac:(lia)).
    pose proof (@zface_interior_range nzeta (i + 1) Hn ltac:(lia)).
    pose proof (@zface_incr nzeta Hn i (i + 1) ltac:(lia) ltac:(lia) ltac:(lia)).
    apply weighted_centre_inside; lra. }
  destruct (Z_lt_le_dec j 0) as [Hneg|Hpos].
  - assert (Ec : zcentre nzeta j = (- zcentre nzeta (- 1 - j))%R).
    { rewrite <- zcentre_neg by lia. f_equal. lia. }
    assert (Ea : zface nzeta j = (- zface nzeta (- 1 - j + 1))%R).
    { rewrite <- zface_neg by lia. f_equal. lia. }
    assert (Eb : zface nzeta (j + 1) = (- zface nzeta (- 1 - j))%R).
    { rewrite <- zface_neg by lia. f_equal. lia. }
    rewrite Ec, Ea, Eb.
    pose proof (Hin (- 1 - j) ltac:(lia)). lra.
  - destruct (Z_lt_le_dec j nzeta) as [Hlt|Hge]; [apply Hin; lia|].
    assert (Ec : zcentre nzeta j
                 = (2 * PI - zcentre nzeta (2 * nzeta - 1 - j))%R).
    { rewrite <- zcentre_south_mirror by lia. f_equal. lia. }
    assert (Ea : zface nzeta j
                 = (2 * PI - zface nzeta (2 * nzeta - 1 - j + 1))%R).
    { rewrite <- zface_south_mirror by lia. f_equal. lia. }
    assert (Eb : zface nzeta (j + 1)
                 = (2 * PI - zface nzeta (2 * nzeta - 1 - j))%R).
    { rewrite <- zface_south_mirror by lia. f_equal. lia. }
    rewrite Ec, Ea, Eb.
    pose proof (Hin (2 * nzeta - 1 - j) ltac:(lia)). lra.
Qed.

Lemma zcentre_incr (nzeta j k : Z) :
  1 <= nzeta -> - nzeta <= j -> j < k -> k < 2 * nzeta ->
  (zcentre nzeta j < zcentre nzeta k)%R.
Proof.
  intros Hn Hj Hjk Hk.
  pose proof (@zcentre_inside nzeta j Hn ltac:(lia)).
  pose proof (@zcentre_inside nzeta k Hn ltac:(lia)).
  destruct (Z.eq_dec (j + 1) k) as [<-|Hne]; [lra|].
  pose proof (@zface_incr nzeta Hn (j + 1) k ltac:(lia) ltac:(lia) ltac:(lia)).
  lra.
Qed.

(** X1: the interior polar faces lie in [[0, PI]], increase, and are
    equally spaced in cosine: face [l] has cosine
    [1 - 2 (l - NGHOST_RAD) / nzeta], so that every interior bin spans the
    same interval [2 / nzeta] of [cos zeta]. *)
Theorem polar_faces_equally_spaced_in_cosine (G nzeta l : Z) :
  1 <= nzeta -> 0 <= G <= nzeta -> zs G <= l <= ze G nzeta ->
  exists a b : R,
    zetaf G nzeta l = Fin a /\ zetaf G nzeta (l + 1) = Fin b /\
    (0 <= a)%R /\ (a < b)%R /\ (b <= PI)%R /\
    cos a = (1 - 2 * (IZR (l - G) / IZR nzeta))%R /\
    (cos a - cos b = 2 / IZR nzeta)%R.
Proof.
  unfold zs, ze. intros Hn HG Hl.
  assert (Hpos : (0 < IZR nzeta)%R) by (apply IZR_lt; lia).
  exists (zface nzeta (l - G)), (zface nzeta (l - G + 1)).
  pose proof (@zface_interior_range nzeta (l - G) Hn ltac:(lia)) as Ra.
  pose proof (@zface_interior_range nzeta (l - G + 1) Hn ltac:(lia)) as Rb.
  pose proof (@zface_incr nzeta Hn (l - G) (l - G + 1)
                ltac:(lia) ltac:(lia) ltac:(lia)) as Hinc.
  assert (Ca : cos (zface nzeta (l - G)) = czetaR nzeta (l - G)).
  { rewrite zface_interior by lia. apply cos_acos. apply czetaR_bounds; lia. }
  assert (Cb : cos (zface nzeta (l - G + 1)) = czetaR nzeta (l - G + 1)).
  { rewrite zface_interior by lia. apply cos_acos. apply czetaR_bounds; lia. }
  split.
  { replace l with (G + (l - G)) at 1 by lia. apply zetaf_closed_form; lia. }
  split.
  { replace (l + 1) with (G + (l - G + 1)) by lia.
    apply zetaf_closed_form; lia. }
  repeat split; try lra.
  - rewrite Ca. apply czetaR_ratio. assumption.
  - rewrite Ca, Cb. unfold czetaR. rewrite plus_IZR. field. lra.
Qed.

Lemma polar_faces_equally_spaced_in_cosine_witness :
  exists a b : R,
    zetaf 1 4 2 = Fin a /\ zetaf 1 4 (2 + 1) = Fin b /\
    (0 <= a)%R /\ (a < b)%R /\ (b <= PI)%R /\
    cos a = (1 - 2 * (IZR (2 - 1) / IZR 4))%R /\
    (cos a - cos b = 2 / IZR 4)%R.
Proof.
  apply (@polar_faces_equally_spaced_in_cosine 1 4 2); unfold zs, ze; lia.
Defined.

(** X2: the finished polar faces are symmetric about the equator over the
    whole padded range, [zetaf (i) + zetaf (nzeta + 2 NGHOST_RAD - i) = PI];
    every northern ghost face is the negative of the face mirrored in the
    north pole and every southern ghost face is [2 PI] minus the face
    mirrored in the south pole. *)
Theorem polar_faces_mirror_symmetric (G nzeta i : Z) :
  1 <= nzeta -> 0 <= G <= nzeta -> 0 <= i <= nzeta + 2 * G ->
  (zetaf G nzeta i + zetaf G nzeta (nzeta + 2 * G - i)%Z)%xr = Fin PI /\
  (i <= G -> zetaf G nzeta i = (- zetaf G nzeta (2 * G - i)%Z)%xr) /\
  (nzeta + G <= i ->
   zetaf G nzeta i
   = (Fin 2 * PI_ - zetaf G nzeta (2 * nzeta + 2 * G - i)%Z)%xr).
Proof.
  intros Hn HG Hi.
  assert (Ei : zetaf G nzeta i = Fin (zface nzeta (i - G))).
  { replace i with (G + (i - G)) at 1 by lia. apply zetaf_closed_form; lia. }
  split; [|split].
  - replace (nzeta + 2 * G - i) with (G + (nzeta - (i - G))) by lia.
    rewrite zetaf_closed_form by lia. rewrite Ei.
    rewrite zface_equator_mirror by lia.
    unfold fadd. f_equal. ring.
  - intros Hle.
    replace (2 * G - i) with (G + - (i - G)) by lia.
    rewrite zetaf_closed_form by lia. rewrite Ei.
    rewrite zface_neg by lia. unfold fneg. f_equal. ring.
  - intros Hge.
    replace (2 * nzeta + 2 * G - i) with (G + (2 * nzeta - (i - G))) by lia.
    rewrite zetaf_closed_form by lia. rewrite Ei.
    rewrite zface_south_mirror by lia.
    unfold PI_, fmul, fsub, fneg, fadd. f_equal. ring.
Qed.

Lemma polar_faces_mirror_symmetric_witness :
  (zetaf 1 3 0 + zetaf 1 3 (3 + 2 * 1 - 0)%Z)%xr = Fin PI /\
  (0 <= 1 -> zetaf 1 3 0 = (- zetaf 1 3 (2 * 1 - 0)%Z)%xr) /\
  (3 + 1 <= 0 ->
   zetaf 1 3 0 = (Fin 2 * PI_ - zetaf 1 3 (2 * 3 + 2 * 1 - 0)%Z)%xr).
Proof.
  apply (@polar_faces_mirror_symmetric 1 3 0); lia.
Defined.

(** X3: every bin of the padded polar range has a positive width
    [dzetaf (l) = zetaf (l+1) - zetaf (l)] and its centre [zetav (l)] is a
    number lying strictly between its two faces; the centre of an interior
    bin lies strictly between 0 and PI. *)
Theorem polar_centre_inside_bin (G nzeta l : Z) :
  1 <= nzeta -> 0 <= G <= nzeta -> 0 <= l <= nzeta + 2 * G - 1 ->
  exists a c b : R,
    zetaf G nzeta l = Fin a /\ zetav G nzeta l = Fin c /\
    zetaf G nzeta (l + 1) = Fin b /\ dzetaf G nzeta l = Fin (b - a) /\
    (a < c < b)%R /\
    (zs G <= l <= ze G nzeta -> (0 < c < PI)%R).
Proof.
  intros Hn HG Hl.
  exists (zface nzeta (l - G)), (zcentre nzeta (l - G)),
         (zface nzeta (l - G + 1)).
  pose proof (@zcentre_inside nzeta (l - G) Hn ltac:(lia)) as Hin.
  split.
  { replace l with (G + (l - G)) at 1 by lia. apply zetaf_closed_form; lia. }
  split.
  { replace l with (G + (l - G)) at 1 by lia. apply zetav_closed_form; lia. }
  split.
  { replace (l + 1) with (G + (l - G + 1)) by lia.
    apply zetaf_closed_form; lia. }
  split.
  { replace l with (G + (l - G)) at 1 by lia. apply dzetaf_closed_form; lia. }
  split; [exact Hin|].
  unfold zs, ze. intros Hint.
  pose proof (@zface_interior_range nzeta (l - G) Hn ltac:(lia)).
  pose proof (@zface_interior_range nzeta (l - G + 1) Hn ltac:(lia)).
  lra.
Qed.

Lemma polar_centre_inside_bin_witness :
  exists a c b : R,
    zetaf 1 2 1 = Fin a /\ zetav 1 2 1 = Fin c /\
    zetaf 1 2 (1 + 1) = Fin b /\ dzetaf 1 2 1 = Fin (b - a) /\
    (a < c < b)%R /\
    (zs 1 <= 1 <= ze 1 2 -> (0 < c < PI)%R).
Proof.
  apply (@polar_centre_inside_bin 1 2 1); lia.
Defined.

(** X4: the polar centres increase strictly over the padded range and are
    symmetric about the equator; the centre of a northern ghost bin is the
    negative of the centre of the interior bin mirrored in the north pole,
    and the centre of a southern ghost bin is [2 PI] minus the centre of the
    interior bin mirrored in the south pole. *)
Theorem polar_centres_increasing_and_mirrored (G nzeta l : Z) :
  1 <= nzeta -> 0 <= G <= nzeta -> 0 <= l <= nzeta + 2 * G - 1 ->
  (forall l', l < l' <= nzeta + 2 * G - 1 ->
     fin_lt (zetav G nzeta l) (zetav G nzeta l')) /\
  (zetav G nzeta l + zetav G nzeta (nzeta + 2 * G - 1 - l)%Z)%xr = Fin PI /\
  (l < G -> zetav G nzeta l = (- zetav G nzeta (2 * G - 1 - l)%Z)%xr) /\
  (nzeta + G <= l ->
   zetav G nzeta l
   = (Fin 2 * PI_ - zetav G nzeta (2 * nzeta + 2 * G - 1 - l)%Z)%xr).
Proof.
  intros Hn HG Hl.
  assert (Ec : forall k, 0 <= k <= nzeta + 2 * G - 1 ->
            zetav G nzeta k = Fin (zcentre nzeta (k - G))).
  { intros k Hk. replace k with (G + (k - G)) at 1 by lia.
    apply zetav_closed_form; lia. }
  split; [|split; [|split]].
  - intros l' Hl'. exists (zcentre nzeta (l - G)), (zcentre nzeta (l' - G)).
    split; [apply Ec; lia|]. split; [apply Ec; lia|].
    apply zcentre_incr; lia.
  - rewrite !Ec by lia.
    replace (nzeta + 2 * G - 1 - l - G) with (nzeta - 1 - (l - G)) by lia.
    rewrite zcentre_equator_mirror by lia. unfold fadd. f_equal. ring.
  - intros Hlt. rewrite !Ec by lia.
    assert (E : zcentre nzeta (l - G)
                = (- zcentre nzeta (2 * G - 1 - l - G))%R).
    { rewrite <- zcentre_neg by lia. f_equal. lia. }
    rewrite E. reflexivity.
  - intros Hge. rewrite !Ec by lia.
    assert (E : zcentre nzeta (l - G)
                = (2 * PI - zcentre nzeta (2 * nzeta + 2 * G - 1 - l - G))%R).
    { rewrite <- zcentre_south_mirror by lia. f_equal. lia. }
    rewrite E. unfold PI_, fmul, fsub, fneg, fadd. f_equal.
Qed.

Lemma polar_centres_increasing_and_mirrored_witness :
  (forall l', 0 < l' <= 2 + 2 * 1 - 1 ->
     fin_lt (zetav 1 2 0) (zetav 1 2 l')) /\
  (zetav 1 2 0 + zetav 1 2 (2 + 2 * 1 - 1 - 0)%Z)%xr = Fin PI /\
  (0 < 1 -> zetav 1 2 0 = (- zetav 1 2 (2 * 1 - 1 - 0)%Z)%xr) /\
  (2 + 1 <= 0 ->
   zetav 1 2 0 = (Fin 2 * PI_ - zetav 1 2 (2 * 2 + 2 * 1 - 1 - 0)%Z)%xr).
Proof.
  apply (@polar_centres_increasing_and_mirrored 1 2 0); lia.
Defined.

(** ** The azimuthal grid *)

(** X5: the azimuthal grid is uniform over the whole padded range, ghost
    bins included: with [d = 2 PI / npsi], face [m] is [(m - NGHOST_RAD) d],
    the centre of bin [m] is [(m - NGHOST_RAD + 1/2) d] and every width
    [dpsif (m)] is [d]. *)
Theorem azimuthal_grid_uniform (G npsi m : Z) :
  1 <= npsi -> 0 <= G <= npsi -> 0 <= m <= npsi + 2 * G - 1 ->
  psif G npsi m = Fin (IZR (m - G) * (2 * PI / IZR npsi)) /\
  psif G npsi (m + 1) = Fin (IZR (m - G + 1) * (2 * PI / IZR npsi)) /\
  psiv G npsi m = Fin ((IZR (m - G) + 1 / 2) * (2 * PI / IZR npsi)) /\
  dpsif G npsi m = Fin (2 * PI / IZR npsi) /\
  (0 < 2 * PI / IZR npsi)%R.
Proof.
  intros Hn HG Hm.
  split.
  { replace m with (G + (m - G)) at 1 by lia. apply psif_closed_form; lia. }
  split.
  { replace (m + 1) with (G + (m - G + 1)) at 1 by lia.
    apply psif_closed_form; lia. }
  split.
  { replace m with (G + (m - G)) at 1 by lia. apply psiv_closed_form; lia. }
  split.
  { replace m with (G + (m - G)) at 1 by lia. apply dpsif_closed_form; lia. }
  pose proof PI_RGT_0.
  assert (0 < IZR npsi)%R by (apply IZR_lt; lia).
  apply Rmult_lt_0_compat; [lra|]. now apply Rinv_0_lt_compat.
Qed.

Lemma azimuthal_grid_uniform_witness :
  psif 1 2 0 = Fin (IZR (0 - 1) * (2 * PI / IZR 2)) /\
  psif 1 2 (0 + 1) = Fin (IZR (0 - 1 + 1) * (2 * PI / IZR 2)) /\
  psiv 1 2 0 = Fin ((IZR (0 - 1) + 1 / 2) * (2 * PI / IZR 2)) /\
  dpsif 1 2 0 = Fin (2 * PI / IZR 2) /\
  (0 < 2 * PI / IZR 2)%R.
Proof.
  apply (@azimuthal_grid_uniform 1 2 0); lia.
Defined.

(** ** Directions stored for the ghost bins *)

Lemma psiv_wraps (G npsi m : Z) :
  1 <= npsi -> 0 <= G <= npsi ->
  0 <= m -> m + npsi <= npsi + 2 * G - 1 ->
  exists q : R,
    psiv G npsi m = Fin q /\ psiv G npsi (m + npsi) = Fin (q + 2 * PI).
Proof.
  intros Hnp HGp H0 H1.
  assert (Hpos : (0 < IZR npsi)%R) by (apply IZR_lt; lia).
  eexists. split.
  - replace m with (G + (m - G)) at 1 by lia. apply psiv_closed_form; lia.
  - replace (m + npsi) with (G + (m - G + npsi)) by lia.
    rewrite psiv_closed_form by lia. f_equal.
    rewrite plus_IZR. field. lra.
Qed.

(** The centre of a ghost bin in terms of the centre of the interior bin
    mirrored in its pole. *)
Lemma zetav_ghost_mirror (G nzeta l : Z) :
  1 <= nzeta -> 0 <= G <= nzeta ->
  0 <= l <= nzeta + 2 * G - 1 ->
  exists z : R,
    zetav G nzeta
      (if l <? G then 2 * G - 1 - l
       else if nzeta + G <=? l then 2 * nzeta + 2 * G - 1 - l else l)
    = Fin z /\
    zetav G nzeta l
    = Fin (if l <? G then - z
           else if nzeta + G <=? l then 2 * PI - z else z).
Proof.
  intros Hnz HGz Hl.
  assert (Ec : forall k, 0 <= k <= nzeta + 2 * G - 1 ->
            zetav G nzeta k = Fin (zcentre nzeta (k - G))).
  { intros k Hk. replace k with (G + (k - G)) at 1 by lia.
    apply zetav_closed_form; lia. }
  destruct (Z.ltb_spec l G) as [Hlt|Hge].
  - eexists. split; [apply Ec; lia|]. rewrite Ec by lia. f_equal.
    rewrite <- zcentre_neg by lia. f_equal. lia.
  - destruct (Z.leb_spec (nzeta + G) l) as [Hs|Hi].
    + eexists. split; [apply Ec; lia|]. rewrite Ec by lia. f_equal.
      rewrite <- zcentre_south_mirror by lia. f_equal. lia.
    + eexists. split; apply Ec; lia.
Qed.

(** X6: an azimuthal ghost bin stores the direction of the interior bin it
    wraps to: the centres of the bins [m] and [m + npsi] differ by exactly
    [2 PI], and all four stored components of the two bins agree, in every
    polar ring. *)
Theorem azimuthal_ghost_bins_repeat_directions
    (idx2 : Z -> Z -> Z) (idx3 : Z -> Z -> Z -> Z) (G nzeta npsi l m p : Z) :
  1 <= nzeta -> 1 <= npsi -> 0 <= G <= nzeta -> G <= npsi ->
  idx2_injective idx2 G nzeta npsi ->
  (nzeta = 1 -> idx3_apart idx2 idx3 G nzeta npsi) ->
  0 <= l <= nzeta + 2 * G - 1 ->
  0 <= m -> m + npsi <= npsi + 2 * G - 1 ->
  0 <= p < 4 ->
  psiv G npsi (m + npsi) = (psiv G npsi m + Fin 2 * PI_)%xr /\
  nh_g idx2 idx3 G nzeta npsi (idx2 p (AngleInd G npsi l (m + npsi)))
  = nh_g idx2 idx3 G nzeta npsi (idx2 p (AngleInd G npsi l m)).
Proof.
  intros Hnz Hnp HGz HGp Hinj Hap Hl Hm0 Hm1 Hp.
  destruct (@psiv_wraps G npsi m Hnp ltac:(lia) Hm0 Hm1) as (q & Eq & Eq').
  split.
  - rewrite Eq, Eq'. reflexivity.
  - rewrite !nh_g_cell by (try assumption; unfold in_padded; lia).
    unfold nh_assigned. rewrite Eq, Eq'. unfold fcos, fsin.
    rewrite cos_plus, sin_plus, cos_2PI, sin_2PI.
    replace (cos q * 1 - sin q * 0)%R with (cos q) by ring.
    replace (sin q * 1 + cos q * 0)%R with (sin q) by ring.
    reflexivity.
Qed.

Lemma azimuthal_ghost_bins_repeat_directions_witness :
  psiv 1 2 (0 + 2) = (psiv 1 2 0 + Fin 2 * PI_)%xr /\
  nh_g (row_major2 (nang 1 2 2)) (row_major3 (nang 1 2 2) 4) 1 2 2
    (row_major2 (nang 1 2 2) 1 (AngleInd 1 2 1 (0 + 2)))
  = nh_g (row_major2 (nang 1 2 2)) (row_major3 (nang 1 2 2) 4) 1 2 2
      (row_major2 (nang 1 2 2) 1 (AngleInd 1 2 1 0)).
Proof.
  apply (@azimuthal_ghost_bins_repeat_directions
           (row_major2 (nang 1 2 2)) (row_major3 (nang 1 2 2) 4) 1 2 2 1 0 1);
    try lia.
  apply row_major2_injective.
Defined.

(** X7: a polar ghost bin stores the direction of the interior bin mirrored
    in its pole, turned by half a revolution about the polar axis: the
    time-like and the polar components of the two bins agree and the two
    transverse components are opposite; this holds for the northern ghost
    bins ([l < NGHOST_RAD], mirror [2 NGHOST_RAD - 1 - l]) and the southern
    ones ([l >= nzeta + NGHOST_RAD], mirror
    [2 nzeta + 2 NGHOST_RAD - 1 - l]). *)
Theorem polar_ghost_bins_mirror_directions
    (idx2 : Z -> Z -> Z) (idx3 : Z -> Z -> Z -> Z) (G nzeta npsi l m : Z) :
  1 <= nzeta -> 1 <= npsi -> 0 <= G <= nzeta -> G <= npsi ->
  idx2_injective idx2 G nzeta npsi ->
  (nzeta = 1 -> idx3_apart idx2 idx3 G nzeta npsi) ->
  0 <= l <= nzeta + 2 * G - 1 -> l < G \/ nzeta + G <= l ->
  0 <= m <= npsi + 2 * G - 1 ->
  let l' := if l <? G then 2 * G - 1 - l else 2 * nzeta + 2 * G - 1 - l in
  let nh := fun p l m =>
    nh_g idx2 idx3 G nzeta npsi (idx2 p (AngleInd G npsi l m)) in
  G <= l' <= nzeta + G - 1 /\
  nh 0 l m = nh 0 l' m /\
  nh 1 l m = (- nh 1 l' m)%xr /\
  nh 2 l m = (- nh 2 l' m)%xr /\
  nh 3 l m = nh 3 l' m.
Proof.
  intros Hnz Hnp HGz HGp Hinj Hap Hl Hghost Hm l' nh.
  assert (Hl' : G <= l' <= nzeta + G - 1).
  { unfold l'. destruct (Z.ltb_spec l G); lia. }
  split; [exact Hl'|].
  assert (Hcell : forall p k, 0 <= p < 4 -> 0 <= k <= nzeta + 2 * G - 1 ->
            nh p k m = nh_assigned G nzeta npsi p k m).
  { intros p k Hp Hk. unfold nh.
    apply nh_g_cell; try assumption; try lia. unfold in_padded. lia. }
  destruct (@zetav_ghost_mirror G nzeta l Hnz HGz Hl) as (z & Ez' & Ez).
  assert (Epsi : exists q, psiv G npsi m = Fin q).
  { eexists. replace m with (G + (m - G)) at 1 by lia.
    apply psiv_closed_form; lia. }
  destruct Epsi as (q & Eq).
  rewrite !Hcell by lia. unfold nh_assigned. simpl Z.eqb. cbv iota.
  rewrite Ez, Eq. unfold l'.
  destruct (Z.ltb_spec l G) as [Hlt|Hge].
  - rewrite Ez'. unfold fsin, fcos, fmul, fneg.
    rewrite sin_neg, cos_neg.
    repeat split; f_equal; ring.
  - destruct (Z.leb_spec (nzeta + G) l) as [Hs|Hi]; [|lia].
    rewrite Ez'. unfold fsin, fcos, fmul, fneg.
    rewrite sin_minus, cos_minus, cos_2PI, sin_2PI.
    repeat split; f_equal; ring.
Qed.

Lemma polar_ghost_bins_mirror_directions_witness :
  let l' := if 0 <? 1 then 2 * 1 - 1 - 0 else 2 * 2 + 2 * 1 - 1 - 0 in
  let nh := fun p l m =>
    nh_g (row_major2 (nang 1 2 2)) (row_major3 (nang 1 2 2) 4) 1 2 2
      (row_major2 (nang 1 2 2) p (AngleInd 1 2 l m)) in
  1 <= l' <= 2 + 1 - 1 /\
  nh 0 0 1 = nh 0 l' 1 /\
  nh 1 0 1 = (- nh 1 l' 1)%xr /\
  nh 2 0 1 = (- nh 2 l' 1)%xr /\
  nh 3 0 1 = nh 3 l' 1.
Proof.
  apply (@polar_ghost_bins_mirror_directions
           (row_major2 (nang 1 2 2)) (row_major3 (nang 1 2 2) 4) 1 2 2 0 1);
    try lia.
  apply row_major2_injective.
Defined.

(** * Further properties of the remapping tables *)

(** ** Every slot of a reflection table *)

Lemma for_loop_keep {S : Type} (P : S -> Prop) (body : Z -> S -> S)
      (lo hi : Z) (s : S) :
  P s ->
  (forall l t, lo <= l <= hi -> P t -> P (body l t)) ->
  P (for_loop lo hi body s).
Proof.
  intros H0 Hstep. apply (for_loop_post (fun _ t => P t) P); auto.
Qed.

(** A block stores nothing outside the ghost cells and bins it loops
    over. *)
Lemma face_block_frame (G nzeta npsi : Z) (nh : Z -> Z -> Real)
    (alo ahi blo bhi clo chi : Z) (tetrads : Z -> Z -> Z -> Temps -> Temps)
    (flips : list Z) (s : Temps * Table) (lm a b c : Z) :
  ~ (alo <= a <= ahi /\ blo <= b <= bhi /\ clo <= c <= chi /\
     0 <= lm < nang G nzeta npsi) ->
  snd (face_block G nzeta npsi nh alo ahi blo bhi clo chi tetrads flips s)
    lm a b c
  = snd s lm a b c.
Proof.
  intros Hout. unfold face_block.
  apply (for_loop_keep (fun t => snd t lm a b c = snd s lm a b c));
    [reflexivity|].
  intros a0 t Ha0 Ht.
  apply (for_loop_keep (fun u => snd u lm a b c = snd s lm a b c));
    [exact Ht|].
  intros b0 u Hb0 Hu.
  apply (for_loop_keep (fun v => snd v lm a b c = snd s lm a b c));
    [exact Hu|].
  intros c0 v Hc0 Hv.
  destruct (lm_loop_spec G nzeta npsi nh flips a0 b0 c0
              (tetrads a0 b0 c0 (fst v)) (snd v)) as [_ Hs].
  rewrite Hs.
  destruct (Z.leb_spec 0 lm), (Z.ltb_spec lm (nang G nzeta npsi)),
    (Z.eqb_spec a a0), (Z.eqb_spec b b0), (Z.eqb_spec c c0);
    simpl; try exact Hv.
  exfalso. apply Hout. lia.
Qed.

Section ReflectionBlocks.

Variables G NGHOST nzeta npsi : Z.
Variables is_ ie js je ks ke : Z.
Variables x1v x2v x3v : Z -> Real.
Variable Tetrad : Real -> Real -> Real -> mat * mat.
Variable nh : Z -> Z -> Real.

(** The tetrad provider at the cell [(i, j, k)]. *)
Definition tetrad_at (cell : Z * Z * Z) : mat * mat :=
  let '(i, j, k) := cell in Tetrad (x1v i) (x2v j) (x3v k).

(** The ghost cell [(i, j, k)] a reflection block visits when its three
    loop variables, from the outermost inwards, are [(a, b, c)] ... *)
Definition ghost_cell (f : BoundaryFace) (a b c : Z) : Z * Z * Z :=
  match f with
  | inner_x1 => (is_ - NGHOST + c, b, a)
  | outer_x1 => (ie + 1 + c, b, a)
  | inner_x2 => (c, js - NGHOST + b, a)
  | outer_x2 => (c, je + 1 + b, a)
  | inner_x3 => (c, b, ks - NGHOST + a)
  | outer_x3 => (c, b, ke + 1 + a)
  end.

(** ... and the active cell it pairs with the ghost cell. *)
Definition mirror_cell (f : BoundaryFace) (a b c : Z) : Z * Z * Z :=
  match f with
  | inner_x1 => (is_ + NGHOST - 1 - c, b, a)
  | outer_x1 => (ie - c, b, a)
  | inner_x2 => (c, js + NGHOST - 1 - b, a)
  | outer_x2 => (c, je - b, a)
  | inner_x3 => (c, b, ks + NGHOST - 1 - a)
  | outer_x3 => (c, b, ke - a)
  end.

(** The component negated between the two frame changes. *)
Definition normal_axis (f : BoundaryFace) : Z :=
  match f with
  | inner_x1 | outer_x1 => 1
  | inner_x2 | outer_x2 => 2
  | inner_x3 | outer_x3 => 3
  end.

(** The ranges of the three loop variables of a reflection block. *)
Definition in_ghost_range (f : BoundaryFace) (a b c : Z) : Prop :=
  match f with
  | inner_x1 | outer_x1 =>
      kl NGHOST ks ke <= a <= ku NGHOST ks ke /\
      jl NGHOST js je <= b <= ju NGHOST js je /\ 0 <= c <= NGHOST - 1
  | inner_x2 | outer_x2 =>
      kl NGHOST ks ke <= a <= ku NGHOST ks ke /\
      0 <= b <= NGHOST - 1 /\ il NGHOST is_ <= c <= iu NGHOST ie
  | inner_x3 | outer_x3 =>
      0 <= a <= NGHOST - 1 /\
      jl NGHOST js je <= b <= ju NGHOST js je /\
      il NGHOST is_ <= c <= iu NGHOST ie
  end.

(** The block that fills the reflection table of a face. *)
Definition reflect_block (f : BoundaryFace)
  : Temps * Table -> Temps * Table :=
  match f with
  | inner_x1 =>
      reflect_ix1 G NGHOST nzeta npsi is_ js je ks ke x1v x2v x3v Tetrad nh
  | outer_x1 =>
      reflect_ox1 G NGHOST nzeta npsi ie js je ks ke x1v x2v x3v Tetrad nh
  | inner_x2 =>
      reflect_ix2 G NGHOST nzeta npsi is_ ie js ks ke x1v x2v x3v Tetrad nh
  | outer_x2 =>
      reflect_ox2 G NGHOST nzeta npsi is_ ie je ks ke x1v x2v x3v Tetrad nh
  | inner_x3 =>
      reflect_ix3 G NGHOST nzeta npsi is_ ie js je ks x1v x2v x3v Tetrad nh
  | outer_x3 =>
      reflect_ox3 G NGHOST nzeta npsi is_ ie js je ke x1v x2v x3v Tetrad nh
  end.

(** The entry a reflection block computes for the source bin [lm] at the
    ghost cell of the loop variables [(a, b, c)]. *)
Definition reflected_entry (f : BoundaryFace) (lm a b c : Z) : RemapEntry :=
  remap_entry G nzeta npsi
    (fst (tetrad_at (ghost_cell f a b c)))
    (snd (tetrad_at (mirror_cell f a b c)))
    [normal_axis f] (fun p => nh p lm).

(** What the two [Tetrad] calls of a reflection block leave in the
    temporaries. *)
Lemma reflect_tetrads (xg1 xg2 xg3 xa1 xa2 xa3 : Real) (t : Temps) :
  e_g (Tetrad_a Tetrad xa1 xa2 xa3 (Tetrad_g Tetrad xg1 xg2 xg3 t))
  = fst (Tetrad xg1 xg2 xg3) /\
  e_cov_a (Tetrad_a Tetrad xa1 xa2 xa3 (Tetrad_g Tetrad xg1 xg2 xg3 t))
  = snd (Tetrad xa1 xa2 xa3).
Proof.
  unfold Tetrad_a, Tetrad_g.
  destruct (Tetrad xg1 xg2 xg3), (Tetrad xa1 xa2 xa3). split; reflexivity.
Qed.

Lemma reflect_block_inside (f : BoundaryFace) (t0 : Temps) (tab0 : Table)
    (lm a b c : Z) :
  in_ghost_range f a b c -> 0 <= lm < nang G nzeta npsi ->
  snd (reflect_block f (t0, tab0)) lm a b c = reflected_entry f lm a b c.
Proof.
  intros Hin Hlm. unfold reflected_entry.
  destruct f; unfold reflect_block;
    [ unfold reflect_ix1 | unfold reflect_ox1 | unfold reflect_ix2
    | unfold reflect_ox2 | unfold reflect_ix3 | unfold reflect_ox3 ];
    match goal with
    | |- context [ghost_cell ?f _ _ _] =>
        apply (@face_block_spec G nzeta npsi nh _ _ _ _ _ _ _
                 [normal_axis f] (fun _ => True)
                 (fun a b c => fst (tetrad_at (ghost_cell f a b c)))
                 (fun a b c => snd (tetrad_at (mirror_cell f a b c))))
    end;
    try (intros; exact Logic.I);
    try (intros a' b' c' t _; apply (reflect_tetrads _ _ _ _ _ _ t));
    cbn [in_ghost_range] in Hin; repeat split; lia.
Qed.

Lemma reflect_block_outside (f : BoundaryFace) (t0 : Temps) (tab0 : Table)
    (lm a b c : Z) :
  ~ (in_ghost_range f a b c /\ 0 <= lm < nang G nzeta npsi) ->
  snd (reflect_block f (t0, tab0)) lm a b c = tab0 lm a b c.
Proof.
  intros Hout.
  destruct f; cbn [reflect_block in_ghost_range] in *;
    [ unfold reflect_ix1 | unfold reflect_ox1 | unfold reflect_ix2
    | unfold reflect_ox2 | unfold reflect_ix3 | unfold reflect_ox3 ];
    apply (@face_block_frame G nzeta npsi nh _ _ _ _ _ _ _ _ (t0, tab0));
    intros H; apply Hout; repeat split; lia.
Qed.

Variable block_bcs : BoundaryFace -> BoundaryFlag.

(** The table the constructor holds for a face is the one its block fills,
    starting from a zero-initialised array, when the guard of the block
    holds. *)
Lemma reflect_table_block (f : BoundaryFace) :
  exists t : Temps,
    reflect_table G NGHOST nzeta npsi block_bcs is_ ie js je ks ke
      x1v x2v x3v Tetrad nh f
    = if flag_eqb (block_bcs (guard_face f)) reflect
      then Some (snd (reflect_block f (t, new_table)))
      else None.
Proof.
  unfold reflect_table, construct_tables, guarded.
  destruct f; cbn [guard_face reflect_block];
    repeat match goal with
           | |- context [flag_eqb ?x ?y] => destruct (flag_eqb x y)
           end;
    cbn [fst snd reflect_ix1_ reflect_ox1_ reflect_ix2_ reflect_ox2_
         reflect_ix3_ reflect_ox3_].
  all: first [ exists new_temps; reflexivity | eexists; reflexivity ].
Qed.

End ReflectionBlocks.

(** X8: every slot of a reflection table the constructor builds, for a
    ghost cell of the block's loop ranges and a source bin
    [0 <= lm < nang], holds the entry computed from the tetrad at the ghost
    cell and the dual tetrad at the paired active cell, with the component
    normal to the face negated in between.  The ghost and active cells are
    [is-NGHOST+di] and [is+NGHOST-1-di] (inner x1), [ie+1+di] and [ie-di]
    (outer x1), and likewise in [j] and [k] for the x2 and x3 faces. *)
Theorem reflection_table_entries
    (G NGHOST nzeta npsi : Z) (bcs : BoundaryFace -> BoundaryFlag)
    (is_ ie js je ks ke : Z) (x1v x2v x3v : Z -> Real)
    (Tetrad : Real -> Real -> Real -> mat * mat) (nh : Z -> Z -> Real)
    (f : BoundaryFace) (tab : Table) (lm a b c : Z) :
  reflect_table G NGHOST nzeta npsi bcs is_ ie js je ks ke x1v x2v x3v
    Tetrad nh f = Some tab ->
  in_ghost_range NGHOST is_ ie js je ks ke f a b c ->
  0 <= lm < nang G nzeta npsi ->
  tab lm a b c
  = remap_entry G nzeta npsi
      (fst (tetrad_at x1v x2v x3v Tetrad
              (ghost_cell NGHOST is_ ie js je ks ke f a b c)))
      (snd (tetrad_at x1v x2v x3v Tetrad
              (mirror_cell NGHOST is_ ie js je ks ke f a b c)))
      [normal_axis f] (fun p => nh p lm).
Proof.
  intros Htab Hin Hlm.
  destruct (reflect_table_block G NGHOST nzeta npsi is_ ie js je ks ke
              x1v x2v x3v Tetrad nh bcs f) as (t & E).
  rewrite E in Htab.
  destruct (flag_eqb (bcs (guard_face f)) reflect); [|discriminate].
  injection Htab as <-.
  now apply reflect_block_inside.
Qed.

Lemma reflection_table_entries_witness :
  tilted_table 5 2 2 0
  = remap_entry 1 4 2
      (fst (tetrad_at of_int of_int of_int tilted_provider
              (ghost_cell 2 2 5 2 2 2 2 inner_x1 2 2 0)))
      (snd (tetrad_at of_int of_int of_int tilted_provider
              (mirror_cell 2 2 5 2 2 2 2 inner_x1 2 2 0)))
      [normal_axis inner_x1] (fun p => nh_g_4x2 p 5).
Proof.
  apply (@reflection_table_entries 1 2 4 2 bcs_reflect_ix1 2 5 2 2 2 2
           of_int of_int of_int tilted_provider nh_g_4x2 inner_x1
           tilted_table 5 2 2 0).
  - cbv beta iota zeta delta [reflect_table construct_tables guarded flag_eqb
                                bcs_reflect_ix1 reflect_ix1_ tilted_table].
    reflexivity.
  - unfold in_ghost_range, kl, ku, jl, ju. simpl. lia.
  - unfold nang. lia.
Defined.

(** Every face reflecting. *)
Definition bcs_all_reflect (f : BoundaryFace) : BoundaryFlag := reflect.

(** X9: the reflection table of a face does not depend on the boundary
    kinds of the other faces: two blocks that agree on the flag guarding the
    table of a face build tables that agree in every slot, whatever the
    blocks executed before left in the shared temporaries; and the slots
    outside the ghost cells and bins of the block keep the zero of the
    freshly allocated array. *)
Theorem reflection_table_independent_of_other_faces
    (G NGHOST nzeta npsi : Z) (bcs bcs' : BoundaryFace -> BoundaryFlag)
    (is_ ie js je ks ke : Z) (x1v x2v x3v : Z -> Real)
    (Tetrad : Real -> Real -> Real -> mat * mat) (nh : Z -> Z -> Real)
    (f : BoundaryFace) (tab : Table) (lm a b c : Z) :
  bcs (guard_face f) = bcs' (guard_face f) ->
  reflect_table G NGHOST nzeta npsi bcs is_ ie js je ks ke x1v x2v x3v
    Tetrad nh f = Some tab ->
  exists tab' : Table,
    reflect_table G NGHOST nzeta npsi bcs' is_ ie js je ks ke x1v x2v x3v
      Tetrad nh f = Some tab' /\
    tab' lm a b c = tab lm a b c /\
    (~ (in_ghost_range NGHOST is_ ie js je ks ke f a b c /\
        0 <= lm < nang G nzeta npsi) ->
     tab lm a b c = zero_entry).
Proof.
  intros Hsame Htab.
  destruct (reflect_table_block G NGHOST nzeta npsi is_ ie js je ks ke
              x1v x2v x3v Tetrad nh bcs f) as (t & E).
  destruct (reflect_table_block G NGHOST nzeta npsi is_ ie js je ks ke
              x1v x2v x3v Tetrad nh bcs' f) as (t' & E').
  rewrite E in Htab. rewrite <- Hsame in E'.
  destruct (flag_eqb (bcs (guard_face f)) reflect); [|discriminate].
  injection Htab as <-.
  eexists. split; [exact E'|].
  assert (Hall : forall u : Temps,
            ~ (in_ghost_range NGHOST is_ ie js je ks ke f a b c /\
               0 <= lm < nang G nzeta npsi) ->
            snd (reflect_block G NGHOST nzeta npsi is_ ie js je ks ke
                   x1v x2v x3v Tetrad nh f (u, new_table)) lm a b c
            = zero_entry).
  { intros u Hout. now rewrite reflect_block_outside. }
  split; [|apply Hall].
  assert (Hdec : (in_ghost_range NGHOST is_ ie js je ks ke f a b c /\
                  0 <= lm < nang G nzeta npsi) \/
                 ~ (in_ghost_range NGHOST is_ ie js je ks ke f a b c /\
                    0 <= lm < nang G nzeta npsi)).
  { destruct f; cbn [in_ghost_range]; lia. }
  destruct Hdec as [[Hin Hlm]|Hout].
  - now rewrite !reflect_block_inside.
  - now rewrite !Hall.
Qed.

Lemma reflection_table_independent_of_other_faces_witness :
  exists tab' : Table,
    reflect_table 1 2 4 2 bcs_all_reflect 2 5 2 2 2 2
      of_int of_int of_int tilted_provider nh_g_4x2 inner_x1 = Some tab' /\
    tab' 5 2 2 0 = tilted_table 5 2 2 0 /\
    (~ (in_ghost_range 2 2 5 2 2 2 2 inner_x1 2 2 0 /\
        0 <= 5 < nang 1 4 2) ->
     tilted_table 5 2 2 0 = zero_entry).
Proof.
  apply (@reflection_table_independent_of_other_faces 1 2 4 2
           bcs_reflect_ix1 bcs_all_reflect 2 5 2 2 2 2
           of_int of_int of_int tilted_provider nh_g_4x2 inner_x1
           tilted_table 5 2 2 0).
  - reflexivity.
  - cbv beta iota zeta delta [reflect_table construct_tables guarded flag_eqb
                                bcs_reflect_ix1 reflect_ix1_ tilted_table].
    reflexivity.
Defined.

(** ** A direction that coincides with a bin centre *)

Section BinCentres.

Variables G nzeta npsi : Z.
Hypothesis HG : 1 <= G.
Hypothesis Hnz : G <= nzeta.
Hypothesis Hnp : G <= npsi.

Lemma zetav_fin (k : Z) :
  0 <= k <= nzeta + 2 * G - 1 ->
  zetav G nzeta k = Fin (zcentre nzeta (k - G)).
Proof.
  intros Hk. replace k with (G + (k - G)) at 1 by lia.
  apply zetav_closed_form; lia.
Qed.

Lemma psiv_fin (k : Z) :
  0 <= k <= npsi + 2 * G - 1 ->
  psiv G npsi k = Fin ((IZR (k - G) + 1 / 2) * (2 * PI / IZR npsi)).
Proof.
  intros Hk. replace k with (G + (k - G)) at 1 by lia.
  apply psiv_closed_form; lia.
Qed.

(** The polar search, given the centre of ring [l], stops at [l + 1]. *)
Lemma l_of_centre (l : Z) :
  zs G - 1 <= l <= ze G nzeta ->
  l_of G nzeta (zetav G nzeta l) = l + 1.
Proof.
  unfold zs, ze. intros Hl. unfold l_of. apply bracket_at.
  - unfold zs, ze. lia.
  - unfold zs. intros y Hy. rewrite !zetav_fin by lia.
    apply fgt_fin_false.
    destruct (Z.eq_dec y l) as [->|Hne]; [lra|].
    left. apply zcentre_incr; lia.
  - rewrite !zetav_fin by lia. apply fgt_fin. apply zcentre_incr; lia.
Qed.

(** The azimuthal search, given the centre of sector [m], stops at
    [m + 1]. *)
Lemma m_of_centre (m : Z) :
  ps G - 1 <= m <= pe G npsi ->
  m_of G npsi (psiv G npsi m) = m + 1.
Proof.
  unfold ps, pe. intros Hm. unfold m_of.
  assert (Hpos : (0 < IZR npsi)%R) by (apply IZR_lt; lia).
  pose proof PI_RGT_0 as Hpi.
  assert (Hd : (0 < 2 * PI / IZR npsi)%R).
  { apply Rmult_lt_0_compat; [lra|]. now apply Rinv_0_lt_compat. }
  apply bracket_at.
  - unfold ps, pe. lia.
  - unfold ps. intros y Hy. rewrite !psiv_fin by lia.
    apply fgt_fin_false.
    assert (IZR (y - G) <= IZR (m - G))%R by (apply IZR_le; lia).
    apply Rmult_le_compat_r; lra.
  - rewrite !psiv_fin by lia. apply fgt_fin.
    assert (IZR (m - G) < IZR (m + 1 - G))%R by (apply IZR_lt; lia).
    apply Rmult_lt_compat_r; lra.
Qed.

Lemma frac_l_centre (l : Z) :
  zs G - 1 <= l <= ze G nzeta ->
  frac_l_of G nzeta (zetav G nzeta l) = Fin 0.
Proof.
  intros Hl. unfold frac_l_of. rewrite l_of_centre by assumption.
  unfold zs, ze in Hl.
  replace (l + 1 - 1) with l by lia.
  rewrite zetav_fin by lia.
  assert (Hd : dzetaf G nzeta l
               = Fin (zface nzeta (l - G + 1) - zface nzeta (l - G))).
  { replace l with (G + (l - G)) at 1 by lia.
    apply dzetaf_closed_form; lia. }
  rewrite Hd.
  pose proof (@zface_incr nzeta ltac:(lia) (l - G) (l - G + 1)
                ltac:(lia) ltac:(lia) ltac:(lia)).
  unfold fsub, fneg, fadd. rewrite fdiv_fin by lra. f_equal. field. lra.
Qed.

Lemma frac_m_centre (m : Z) :
  ps G - 1 <= m <= pe G npsi ->
  frac_m_of G npsi (psiv G npsi m) = Fin 0.
Proof.
  intros Hm. unfold frac_m_of. rewrite m_of_centre by assumption.
  unfold ps, pe in Hm.
  replace (m + 1 - 1) with m by lia.
  rewrite psiv_fin by lia.
  assert (Hw : dpsif G npsi m = Fin (2 * PI / IZR npsi)).
  { replace m with (G + (m - G)) at 1 by lia.
    apply dpsif_closed_form; lia. }
  rewrite Hw.
  assert (Hpos : (0 < IZR npsi)%R) by (apply IZR_lt; lia).
  pose proof PI_RGT_0 as Hpi.
  assert (Hd : (0 < 2 * PI / IZR npsi)%R).
  { apply Rmult_lt_0_compat; [lra|]. now apply Rinv_0_lt_compat. }
  unfold fsub, fneg, fadd. rewrite fdiv_fin by lra. f_equal. field. lra.
Qed.

End BinCentres.

(** X10: the interpolation is exact at the bin centres: when the
    transformed angles are the centre angles of a bin [(l, m)], the searches
    stop at [l + 1] and [m + 1], the first stored index is the bin [(l, m)]
    itself, its weight is exactly 1 and the three other weights are exactly
    0. *)
Theorem interpolation_exact_at_bin_centres (G nzeta npsi l m : Z) :
  1 <= G -> G <= nzeta -> G <= npsi ->
  zs G - 1 <= l <= ze G nzeta -> ps G - 1 <= m <= pe G npsi ->
  interpolate G nzeta npsi (zetav G nzeta l) (psiv G npsi m)
  = {| ind0 := AngleInd G npsi l m;
       ind1 := AngleInd G npsi l (m + 1);
       ind2 := AngleInd G npsi (l + 1) m;
       ind3 := AngleInd G npsi (l + 1) (m + 1);
       frac0 := Fin 1; frac1 := Fin 0; frac2 := Fin 0; frac3 := Fin 0 |}.
Proof.
  intros HG Hnz Hnp Hl Hm. unfold interpolate.
  rewrite l_of_centre, m_of_centre, frac_l_centre, frac_m_centre
    by assumption.
  replace (l + 1 - 1) with l by lia. replace (m + 1 - 1) with m by lia.
  unfold fsub, fneg, fadd, fmul.
  f_equal; f_equal; ring.
Qed.

Lemma interpolation_exact_at_bin_centres_witness :
  interpolate 1 2 2 (zetav 1 2 1) (psiv 1 2 2)
  = {| ind0 := AngleInd 1 2 1 2;
       ind1 := AngleInd 1 2 1 (2 + 1);
       ind2 := AngleInd 1 2 (1 + 1) 2;
       ind3 := AngleInd 1 2 (1 + 1) (2 + 1);
       frac0 := Fin 1; frac1 := Fin 0; frac2 := Fin 0; frac3 := Fin 0 |}.
Proof.
  apply (@interpolation_exact_at_bin_centres 1 2 2 1 2);
    unfold zs, ze, ps, pe; lia.
Defined.

(** ** Angles recovered from a direction *)





(** ** Reflections in flat space *)





Section FlatMirror.

Variables G nzeta npsi : Z.
Hypothesis HG : 1 <= G.
Hypothesis Hnz : G <= nzeta.
Hypothesis Hnp : G <= npsi.


End FlatMirror.






(** ** The transformed angles *)

(** X12: whatever the tetrads and the source direction are, the polar angle
    of the transformed direction is either NaN or a number in [[0, PI]], and
    its azimuth, after the wrap [psi_a += psi_a < 0 ? 2 PI : 0], is either
    NaN or a number in [[0, 2 PI)]; neither is ever infinite. *)
Theorem transformed_angles_in_range
    (e_g e_cov_a : mat) (flips : list Z) (nh : vec) :
  (zeta_of (transformed_direction e_g e_cov_a flips nh) = NaN \/
   exists z : R,
     zeta_of (transformed_direction e_g e_cov_a flips nh) = Fin z /\
     (0 <= z <= PI)%R) /\
  (psi_of (transformed_direction e_g e_cov_a flips nh) = NaN \/
   exists p : R,
     psi_of (transformed_direction e_g e_cov_a flips nh) = Fin p /\
     (0 <= p < 2 * PI)%R).
Proof.
  set (nh_a := transformed_direction e_g e_cov_a flips nh).
  split.
  - unfold zeta_of.
    destruct (facos_cases (nh_a 3 / nh_a 0)%xr) as [E|[z E]];
      [left; exact E|].
    right. exists z. split; [exact E|]. apply (facos_range _ E).
  - destruct (psi_of_cases nh_a) as [E|[p E]]; [left; exact E|].
    right. exists p. split; [exact E|]. apply (psi_of_range _ E).
Qed.

(** ** Polar tables on a block without reflecting faces *)


Section PolarWithoutReflection.

Variables G NGHOST nzeta npsi : Z.
Variable bcs : BoundaryFace -> BoundaryFlag.
Variables is_ ie js je ks ke : Z.
Variables x1v x2v x3v : Z -> Real.
Variable Tetrad : Real -> Real -> Real -> mat * mat.
Variable nh : Z -> Z -> Real.

Hypothesis Hnone : forall f, bcs f <> reflect.



End PolarWithoutReflection.





(** ** Bounds on the two fractions *)

(** X14: the polar fraction is bounded in terms of the widths of the two
    bins the search stops between.  For a polar angle in [[0, PI]], with
    [l_a] the position the search stops at, [frac_l] is a number with
    [0 <= frac_l < 1 + dzetaf (l_a) / dzetaf (l_a - 1)]: it can exceed 1,
    because the offset from the centre [zetav (l_a - 1)] is divided by the
    width of the bin [l_a - 1] and not by the distance between the two
    centres, but never by more than the ratio of the two widths. *)
Theorem polar_fraction_bounded_by_widths (G nzeta : Z) (z : R) :
  1 <= G -> G <= nzeta -> (0 <= z <= PI)%R ->
  let l_a := l_of G nzeta (Fin z) in
  exists a wl wu : R,
    frac_l_of G nzeta (Fin z) = Fin a /\
    dzetaf G nzeta (l_a - 1) = Fin wl /\ dzetaf G nzeta l_a = Fin wu /\
    (0 < wl)%R /\ (0 < wu)%R /\ (0 <= a < 1 + wu / wl)%R.
Proof.
  intros HG Hnz Hz l_a.
  pose proof (@l_of_range G nzeta HG Hnz z Hz) as Hl. fold l_a in Hl.
  unfold zs, ze in Hl.
  assert (Hn : 1 <= nzeta) by lia.
  pose (j := l_a - 1 - G).
  assert (Hc0 : zetav G nzeta (l_a - 1) = Fin (zcentre nzeta j)).
  { rewrite zetav_fin by (try assumption; lia). reflexivity. }
  assert (Hc1 : zetav G nzeta l_a = Fin (zcentre nzeta (j + 1))).
  { rewrite zetav_fin by (try assumption; lia). f_equal. f_equal.
    unfold j. lia. }
  assert (Hw0 : dzetaf G nzeta (l_a - 1)
                = Fin (zface nzeta (j + 1) - zface nzeta j)).
  { replace (l_a - 1) with (G + j) by (unfold j; lia).
    apply dzetaf_closed_form; unfold j; lia. }
  assert (Hw1 : dzetaf G nzeta l_a
                = Fin (zface nzeta (j + 1 + 1) - zface nzeta (j + 1))).
  { replace l_a with (G + (j + 1)) at 1 by (unfold j; lia).
    apply dzetaf_closed_form; unfold j; lia. }
  pose proof (@zface_incr nzeta Hn j (j + 1)
                ltac:(unfold j; lia) ltac:(lia) ltac:(unfold j; lia)) as I0.
  pose proof (@zface_incr nzeta Hn (j + 1) (j + 1 + 1)
                ltac:(unfold j; lia) ltac:(lia) ltac:(unfold j; lia)) as I1.
  pose proof (@zcentre_inside nzeta j Hn ltac:(unfold j; lia)) as C0.
  pose proof (@zcentre_inside nzeta (j + 1) Hn ltac:(unfold j; lia)) as C1.
  assert (Hpass : (zetav G nzeta (l_a - 1)%Z >? Fin z)%xr = false).
  { apply (@bracket_passed (zs G - 1) (ze G nzeta + 1)).
    fold (l_of G nzeta (Fin z)). fold l_a. unfold zs. lia. }
  assert (Hfound : (zetav G nzeta l_a >? Fin z)%xr = true).
  { apply bracket_found; [unfold zs, ze; lia|].
    change (l_a <= ze G nzeta + 1). unfold ze. lia. }
  rewrite Hc0 in Hpass. apply fgt_fin_false in Hpass.
  rewrite Hc1 in Hfound. apply fgt_fin in Hfound.
  exists ((z - zcentre nzeta j) / (zface nzeta (j + 1) - zface nzeta j))%R,
         (zface nzeta (j + 1) - zface nzeta j)%R,
         (zface nzeta (j + 1 + 1) - zface nzeta (j + 1))%R.
  split.
  { unfold frac_l_of. fold l_a. rewrite Hc0, Hw0.
    unfold fsub, fneg, fadd. now rewrite fdiv_fin by lra. }
  split; [exact Hw0|]. split; [exact Hw1|].
  split; [lra|]. split; [lra|].
  set (wl := (zface nzeta (j + 1) - zface nzeta j)%R) in *.
  set (wu := (zface nzeta (j + 1 + 1) - zface nzeta (j + 1))%R) in *.
  assert (Hwl : (0 < wl)%R) by (unfold wl; lra).
  assert (Hinv : (0 < / wl)%R) by (apply Rinv_0_lt_compat; lra).
  split.
  - apply Rmult_le_pos; lra.
  - apply Rmult_lt_reg_r with wl; [lra|].
    unfold Rdiv. rewrite Rmult_assoc, Rinv_l by lra.
    replace ((1 + wu * / wl) * wl)%R with (wl + wu * (/ wl * wl))%R by ring.
    rewrite Rinv_l by lra. unfold wl, wu. lra.
Qed.

Lemma polar_fraction_bounded_by_widths_witness :
  let l_a := l_of 1 4 (Fin (PI / 6)) in
  exists a wl wu : R,
    frac_l_of 1 4 (Fin (PI / 6)) = Fin a /\
    dzetaf 1 4 (l_a - 1) = Fin wl /\ dzetaf 1 4 l_a = Fin wu /\
    (0 < wl)%R /\ (0 < wu)%R /\ (0 <= a < 1 + wu / wl)%R.
Proof.
  pose proof PI_RGT_0.
  apply (@polar_fraction_bounded_by_widths 1 4 (PI / 6)); try lia. lra.
Defined.

(** X15: in azimuth the two weights are those of linear interpolation
    between the centres the search stops between.  For an azimuth [psi_a]
    in [[0, 2 PI)], with [m_a] the position the search stops at, the centres
    satisfy [psiv (m_a - 1) <= psi_a < psiv (m_a)], they are one width
    [dpsif (m_a - 1)] apart, and
    [(1 - frac_m) psiv (m_a - 1) + frac_m psiv (m_a) = psi_a]. *)
Theorem azimuthal_fraction_interpolates_linearly (G npsi : Z) (p : R) :
  1 <= G -> G <= npsi -> (0 <= p < 2 * PI)%R ->
  let m_a := m_of G npsi (Fin p) in
  exists b c0 c1 : R,
    frac_m_of G npsi (Fin p) = Fin b /\
    psiv G npsi (m_a - 1) = Fin c0 /\ psiv G npsi m_a = Fin c1 /\
    dpsif G npsi (m_a - 1) = Fin (c1 - c0) /\
    (c0 <= p < c1)%R /\ (0 <= b < 1)%R /\
    ((1 - b) * c0 + b * c1 = p)%R.
Proof.
  intros HG Hnp Hp m_a. pose proof PI_RGT_0 as Hpi.
  pose proof (@m_of_range G npsi HG Hnp p Hp) as Hm. fold m_a in Hm.
  unfold ps, pe in Hm.
  assert (Hpos : (0 < IZR npsi)%R) by (apply IZR_lt; lia).
  assert (Hstep : (0 < 2 * PI / IZR npsi)%R).
  { apply Rmult_lt_0_compat; [lra|]. now apply Rinv_0_lt_compat. }
  assert (Hlo : psiv G npsi (m_a - 1)
                = Fin ((IZR (m_a - 1 - G) + 1 / 2) * (2 * PI / IZR npsi))).
  { apply psiv_fin; try assumption; lia. }
  assert (Hhi : psiv G npsi m_a
                = Fin ((IZR (m_a - 1 - G) + 1 / 2) * (2 * PI / IZR npsi)
                       + 2 * PI / IZR npsi)).
  { rewrite psiv_fin by (try assumption; lia). f_equal.
    replace (m_a - G) with (m_a - 1 - G + 1) by lia.
    rewrite plus_IZR. ring. }
  assert (Hd : dpsif G npsi (m_a - 1) = Fin (2 * PI / IZR npsi)).
  { replace (m_a - 1) with (G + (m_a - 1 - G)) at 1 by lia.
    apply dpsif_closed_form; lia. }
  assert (Hpass : (psiv G npsi (m_a - 1)%Z >? Fin p)%xr = false).
  { apply (@bracket_passed (ps G - 1) (pe G npsi + 1)).
    fold (m_of G npsi (Fin p)). fold m_a. unfold ps. lia. }
  assert (Hfound : (psiv G npsi m_a >? Fin p)%xr = true).
  { apply bracket_found; [unfold ps, pe; lia|].
    change (m_a <= pe G npsi + 1). unfold pe. lia. }
  rewrite Hlo in Hpass. apply fgt_fin_false in Hpass.
  rewrite Hhi in Hfound. apply fgt_fin in Hfound.
  set (c0 := ((IZR (m_a - 1 - G) + 1 / 2) * (2 * PI / IZR npsi))%R) in *.
  set (d := (2 * PI / IZR npsi)%R) in *.
  exists ((p - c0) / d)%R, c0, (c0 + d)%R.
  split.
  { unfold frac_m_of. fold m_a. rewrite Hlo, Hd.
    unfold fsub, fneg, fadd. now rewrite fdiv_fin by lra. }
  split; [exact Hlo|]. split; [exact Hhi|].
  split; [rewrite Hd; f_equal; ring|].
  split; [lra|].
  assert (Hinv : (0 < / d)%R) by now apply Rinv_0_lt_compat.
  split.
  - split.
    + apply Rmult_le_pos; lra.
    + apply Rmult_lt_reg_r with d; [lra|].
      unfold Rdiv. rewrite Rmult_assoc, Rinv_l by lra. lra.
  - field. lra.
Qed.

Lemma azimuthal_fraction_interpolates_linearly_witness :
  let m_a := m_of 1 2 (Fin (PI / 2)) in
  exists b c0 c1 : R,
    frac_m_of 1 2 (Fin (PI / 2)) = Fin b /\
    psiv 1 2 (m_a - 1) = Fin c0 /\ psiv 1 2 m_a = Fin c1 /\
    dpsif 1 2 (m_a - 1) = Fin (c1 - c0) /\
    (c0 <= PI / 2 < c1)%R /\ (0 <= b < 1)%R /\
    ((1 - b) * c0 + b * c1 = PI / 2)%R.
Proof.
  pose proof PI_RGT_0.
  apply (@azimuthal_fraction_interpolates_linearly 1 2 (PI / 2)); try lia.
  lra.
Defined.

(** * Adiabatic equation of state

    A shallow embedding of [FluidEqnOfState::ConservedToPrimitive] and
    [FluidEqnOfState::SoundSpeed] of [src/fluid/eos/adiabatic_hydro.cpp],
    with the same model of [Real]. *)

(** [std::sqrt]: NaN for a negative argument. *)
Definition fsqrt (a : Real) : Real :=
  match a with
  | Fin x => if Rlt_dec x 0 then NaN else Fin (sqrt x)
  | PInf => PInf
  | _ => NaN
  end.

Definition is_finite (a : Real) : bool :=
  match a with Fin _ => true | _ => false end.

(** A four-dimensional [AthenaArray<Real>] read as [u (n, k, j, i)]. *)
Definition Array4 := Z -> Z -> Z -> Z -> Real.

Definition store4 (u : Array4) (n k j i : Z) (v : Real) : Array4 :=
  fun n' k' j' i' =>
    if (n' =? n) && (k' =? k) && (j' =? j) && (i' =? i) then v
    else u n' k' j' i'.

(** The fields of the mesh block the conversion reads: the index bounds and
    [block_size.nx2], [block_size.nx3]. *)
Record MeshBlock : Type := mkMeshBlock {
  blk_is : Z; blk_ie : Z; blk_js : Z; blk_je : Z; blk_ks : Z; blk_ke : Z;
  blk_nx2 : Z; blk_nx3 : Z
}.

Section AdiabaticHydro.

(** The positions of density, the three momenta (velocities) and energy
    (pressure) in the first array dimension, and the ghost width, are
    constants of [athena.hpp]; the functions only use them as indices. *)
Variables IDN IVX IVY IVZ IEN : Z.
Variable NGHOST : Z.

(** [gamma_], as returned by [GetGamma ()]. *)
Variable gamma : Real.

(** The body of the innermost loop.  [cons] is only read: [lcons] is a
    shallow copy of it, and [prim] is a different array. *)
Definition convert_cell (cons : Array4) (k j i : Z) (prim : Array4) : Array4 :=
  let u_d := cons IDN k j i in
  let u_m1 := cons IVX k j i in
  let u_m2 := cons IVY k j i in
  let u_m3 := cons IVZ k j i in
  let u_e := cons IEN k j i in
  let di := (Fin 1 / u_d)%xr in
  let prim := store4 prim IDN k j i u_d in
  let prim := store4 prim IVX k j i (u_m1 * di)%xr in
  let prim := store4 prim IVY k j i (u_m2 * di)%xr in
  let prim := store4 prim IVZ k j i (u_m3 * di)%xr in
  let prim :=
    store4 prim IEN k j i
      (u_e - Fin (1 / 2) * di * (u_m1 * u_m1 + u_m2 * u_m2 + u_m3 * u_m3))%xr in
  store4 prim IEN k j i (prim IEN k j i * (gamma - Fin 1))%xr.

(** The loop bounds [jl], [ju], [kl], [ku] of the function. *)
Definition eos_jl (pmb : MeshBlock) : Z :=
  if 1 <? blk_nx2 pmb then blk_js pmb - NGHOST else blk_js pmb.
Definition eos_ju (pmb : MeshBlock) : Z :=
  if 1 <? blk_nx2 pmb then blk_je pmb + NGHOST else blk_je pmb.
Definition eos_kl (pmb : MeshBlock) : Z :=
  if 1 <? blk_nx3 pmb then blk_ks pmb - NGHOST else blk_ks pmb.
Definition eos_ku (pmb : MeshBlock) : Z :=
  if 1 <? blk_nx3 pmb then blk_ke pmb + NGHOST else blk_ke pmb.

(** [prim_old] is not used by the function. *)
Definition ConservedToPrimitive (pmb : MeshBlock) (cons prim_old prim : Array4)
  : Array4 :=
  for_loop (eos_kl pmb) (eos_ku pmb) (fun k prim =>
    for_loop (eos_jl pmb) (eos_ju pmb) (fun j prim =>
      for_loop (blk_is pmb - NGHOST) (blk_ie pmb + NGHOST) (fun i prim =>
        convert_cell cons k j i prim) prim) prim) prim.

Definition SoundSpeed (prim : Z -> Real) : Real :=
  fsqrt (gamma * prim IEN / prim IDN)%xr.

(** The cells the three loops visit. *)
Definition converted (pmb : MeshBlock) (k j i : Z) : Prop :=
  eos_kl pmb <= k <= eos_ku pmb /\ eos_jl pmb <= j <= eos_ju pmb /\
  blk_is pmb - NGHOST <= i <= blk_ie pmb + NGHOST.

(** The value [convert_cell] leaves in variable [n] of its own cell. *)
Definition primitive_of (cons : Array4) (k j i : Z) (n : Z) (old : Real)
  : Real :=
  let di := (Fin 1 / cons IDN k j i)%xr in
  if n =? IEN then
    ((cons IEN k j i
      - Fin (1 / 2) * di
        * (cons IVX k j i * cons IVX k j i + cons IVY k j i * cons IVY k j i
           + cons IVZ k j i * cons IVZ k j i))
     * (gamma - Fin 1))%xr
  else if n =? IVZ then (cons IVZ k j i * di)%xr
  else if n =? IVY then (cons IVY k j i * di)%xr
  else if n =? IVX then (cons IVX k j i * di)%xr
  else if n =? IDN then cons IDN k j i
  else old.

Lemma store4_same (u : Array4) (n k j i : Z) (v : Real) :
  store4 u n k j i v n k j i = v.
Proof. unfold store4. now rewrite !Z.eqb_refl. Qed.

Lemma store4_other (u : Array4) (n k j i n' k' j' i' : Z) (v : Real) :
  ~ (n' = n /\ k' = k /\ j' = j /\ i' = i) ->
  store4 u n k j i v n' k' j' i' = u n' k' j' i'.
Proof.
  intros H. unfold store4.
  destruct (Z.eqb_spec n' n), (Z.eqb_spec k' k), (Z.eqb_spec j' j),
    (Z.eqb_spec i' i); simpl; try reflexivity.
  exfalso. apply H. auto.
Qed.

Lemma convert_cell_spec (cons prim : Array4) (k j i n k' j' i' : Z) :
  convert_cell cons k j i prim n k' j' i'
  = if (k' =? k) && (j' =? j) && (i' =? i)
    then primitive_of cons k j i n (prim n k' j' i')
    else prim n k' j' i'.
Proof.
  unfold convert_cell, primitive_of.
  destruct (Z.eqb_spec k' k) as [->|Hk]; [|simpl].
  2:{ rewrite !store4_other by (intros (_ & Hc & _); contradiction).
      reflexivity. }
  destruct (Z.eqb_spec j' j) as [->|Hj]; [|simpl].
  2:{ rewrite !store4_other by (intros (_ & _ & Hc & _); contradiction).
      reflexivity. }
  destruct (Z.eqb_spec i' i) as [->|Hi]; simpl.
  2:{ rewrite !store4_other by (intros (_ & _ & _ & Hc); contradiction).
      reflexivity. }
  destruct (Z.eqb_spec n IEN) as [->|NE].
  { rewrite store4_same.
    rewrite (store4_same _ IEN k j i). reflexivity. }
  rewrite !(@store4_other _ IEN k j i n k j i) by (intros (Hc & _); contradiction).
  destruct (Z.eqb_spec n IVZ) as [->|NZ]; [now rewrite store4_same|].
  rewrite (@store4_other _ IVZ k j i n k j i) by (intros (Hc & _); contradiction).
  destruct (Z.eqb_spec n IVY) as [->|NY]; [now rewrite store4_same|].
  rewrite (@store4_other _ IVY k j i n k j i) by (intros (Hc & _); contradiction).
  destruct (Z.eqb_spec n IVX) as [->|NX]; [now rewrite store4_same|].
  rewrite (@store4_other _ IVX k j i n k j i) by (intros (Hc & _); contradiction).
  destruct (Z.eqb_spec n IDN) as [->|ND]; [now rewrite store4_same|].
  now rewrite (@store4_other _ IDN k j i n k j i) by (intros (Hc & _); contradiction).
Qed.


(** A loop over one coordinate of the cells, each iteration rewriting the
    cells of its own coordinate value (among those satisfying [P]) from
    their previous contents. *)
Lemma for_loop_slices (P : Z -> Z -> Z -> bool) (coord : Z -> Z -> Z -> Z)
    (f : Z -> Z -> Z -> Z -> Real -> Real) (g : Z -> Array4 -> Array4)
    (lo hi : Z) (s : Array4) :
  (forall l t n k j i,
     g l t n k j i
     = if P k j i && (coord k j i =? l) then f n k j i (t n k j i)
       else t n k j i) ->
  forall n k j i,
    for_loop lo hi g s n k j i
    = if P k j i && (lo <=? coord k j i) && (coord k j i <=? hi)
      then f n k j i (s n k j i)
      else s n k j i.
Proof.
  intros Hg n k j i.
  destruct (Z_lt_le_dec hi lo) as [Hlt|Hle].
  - rewrite for_loop_empty by assumption.
    destruct (P k j i), (Z.leb_spec lo (coord k j i)),
      (Z.leb_spec (coord k j i) hi); simpl; try reflexivity; lia.
  - pose (Inv := fun (l0 : Z) (t : Array4) =>
        forall n k j i,
          t n k j i
          = if P k j i && (lo <=? coord k j i) && (coord k j i <? l0)
            then f n k j i (s n k j i)
            else s n k j i).
    assert (H : Inv (hi + 1) (for_loop lo hi g s)).
    { apply for_loop_inv; [lia | |].
      - intros n' k' j' i'.
        destruct (P k' j' i'), (Z.leb_spec lo (coord k' j' i')),
          (Z.ltb_spec (coord k' j' i') lo); simpl; try reflexivity; lia.
      - intros l t Hl Ht n' k' j' i'. rewrite Hg, (Ht n' k' j' i').
        destruct (P k' j' i'), (Z.eqb_spec (coord k' j' i') l),
          (Z.leb_spec lo (coord k' j' i')), (Z.ltb_spec (coord k' j' i') l),
          (Z.ltb_spec (coord k' j' i') (l + 1)); simpl;
          try reflexivity; lia. }
    rewrite (H n k j i).
    destruct (P k j i), (Z.leb_spec lo (coord k j i)),
      (Z.ltb_spec (coord k j i) (hi + 1)), (Z.leb_spec (coord k j i) hi);
      simpl; try reflexivity; lia.
Qed.

Definition convertedb (pmb : MeshBlock) (k j i : Z) : bool :=
  (eos_kl pmb <=? k) && (k <=? eos_ku pmb) &&
  ((eos_jl pmb <=? j) && (j <=? eos_ju pmb)) &&
  ((blk_is pmb - NGHOST <=? i) && (i <=? blk_ie pmb + NGHOST)).

(** The whole conversion, entry by entry. *)
Lemma ConservedToPrimitive_spec (pmb : MeshBlock) (cons prim_old prim : Array4)
    (n k j i : Z) :
  ConservedToPrimitive pmb cons prim_old prim n k j i
  = if convertedb pmb k j i
    then primitive_of cons k j i n (prim n k j i)
    else prim n k j i.
Proof.
  unfold ConservedToPrimitive, convertedb.
  rewrite (@for_loop_slices
             (fun k j i =>
                (eos_jl pmb <=? j) && (j <=? eos_ju pmb) &&
                ((blk_is pmb - NGHOST <=? i) && (i <=? blk_ie pmb + NGHOST)))
             (fun k j i => k)
             (fun n k j i old => primitive_of cons k j i n old)).
  - destruct (eos_kl pmb <=? k), (k <=? eos_ku pmb),
      ((eos_jl pmb <=? j) && (j <=? eos_ju pmb)),
      ((blk_is pmb - NGHOST <=? i) && (i <=? blk_ie pmb + NGHOST));
      reflexivity.
  - intros k0 t n' k' j' i'.
    rewrite (@for_loop_slices
               (fun k j i =>
                  (k =? k0) &&
                  ((blk_is pmb - NGHOST <=? i) && (i <=? blk_ie pmb + NGHOST)))
               (fun k j i => j)
               (fun n k j i old => primitive_of cons k j i n old)).
    + destruct (Z.eqb_spec k' k0), (eos_jl pmb <=? j'), (j' <=? eos_ju pmb),
        ((blk_is pmb - NGHOST <=? i') && (i' <=? blk_ie pmb + NGHOST));
        reflexivity.
    + intros j0 u n'' k'' j'' i''.
      rewrite (@for_loop_slices
                 (fun k j i => (k =? k0) && (j =? j0))
                 (fun k j i => i)
                 (fun n k j i old => primitive_of cons k j i n old)).
      * destruct (Z.eqb_spec k'' k0), (Z.eqb_spec j'' j0),
          (blk_is pmb - NGHOST <=? i''), (i'' <=? blk_ie pmb + NGHOST);
          reflexivity.
      * intros i0 v n3 k3 j3 i3. rewrite convert_cell_spec.
        destruct (Z.eqb_spec k3 k0), (Z.eqb_spec j3 j0), (Z.eqb_spec i3 i0);
          simpl; subst; reflexivity.
Qed.

End AdiabaticHydro.

(** Values that are not numbers stay so under the four operations. *)
Lemma inf_scaled_not_finite (x : R) : is_finite (inf_scaled x) = false.
Proof.
  unfold inf_scaled. destruct (Rlt_dec 0 x); [reflexivity|].
  destruct (Rlt_dec x 0); reflexivity.
Qed.

Lemma fmul_not_finite_r (a b : Real) :
  is_finite b = false -> is_finite (a * b)%xr = false.
Proof.
  destruct a, b; simpl; intros H; try discriminate; try reflexivity;
    apply inf_scaled_not_finite.
Qed.

Lemma fmul_not_finite_l (a b : Real) :
  is_finite a = false -> is_finite (a * b)%xr = false.
Proof.
  destruct a, b; simpl; intros H; try discriminate; try reflexivity;
    apply inf_scaled_not_finite.
Qed.

Lemma fsub_not_finite_r (a b : Real) :
  is_finite b = false -> is_finite (a - b)%xr = false.
Proof.
  destruct a, b; simpl; intros H; try discriminate; reflexivity.
Qed.

Lemma reciprocal_of_zero : (Fin 1 / Fin 0)%xr = PInf.
Proof.
  unfold fdiv. destruct (Req_dec_T 0 0) as [_|N]; [|now contradiction N].
  unfold inf_scaled. destruct (Rlt_dec 0 1); [reflexivity | lra].
Qed.

Lemma distinct_indices (IDN IVX IVY IVZ IEN : Z) :
  NoDup [IDN; IVX; IVY; IVZ; IEN] ->
  (IDN =? IEN) = false /\ (IDN =? IVZ) = false /\ (IDN =? IVY) = false /\
  (IDN =? IVX) = false /\ (IVX =? IEN) = false /\ (IVX =? IVZ) = false /\
  (IVX =? IVY) = false /\ (IVY =? IEN) = false /\ (IVY =? IVZ) = false /\
  (IVZ =? IEN) = false.
Proof.
  intros Hd.
  inversion Hd as [|? ? N1 D1]; subst.
  inversion D1 as [|? ? N2 D2]; subst.
  inversion D2 as [|? ? N3 D3]; subst.
  inversion D3 as [|? ? N4 D4]; subst.
  simpl in N1, N2, N3, N4.
  repeat split; apply Z.eqb_neq; intros E; subst; intuition.
Qed.

(** The values [convert_cell] leaves in the five variables of its cell,
    when their positions are distinct. *)
Lemma primitive_of_variables (IDN IVX IVY IVZ IEN : Z) (gamma : Real)
    (cons : Array4) (k j i : Z) (old : Real) :
  NoDup [IDN; IVX; IVY; IVZ; IEN] ->
  let di := (Fin 1 / cons IDN k j i)%xr in
  primitive_of IDN IVX IVY IVZ IEN gamma cons k j i IDN old
  = cons IDN k j i /\
  primitive_of IDN IVX IVY IVZ IEN gamma cons k j i IVX old
  = (cons IVX k j i * di)%xr /\
  primitive_of IDN IVX IVY IVZ IEN gamma cons k j i IVY old
  = (cons IVY k j i * di)%xr /\
  primitive_of IDN IVX IVY IVZ IEN gamma cons k j i IVZ old
  = (cons IVZ k j i * di)%xr /\
  primitive_of IDN IVX IVY IVZ IEN gamma cons k j i IEN old
  = ((cons IEN k j i
      - Fin (1 / 2) * di
        * (cons IVX k j i * cons IVX k j i + cons IVY k j i * cons IVY k j i
           + cons IVZ k j i * cons IVZ k j i))
     * (gamma - Fin 1))%xr.
Proof.
  intros Hd di.
  destruct (distinct_indices Hd) as
    (E1 & E2 & E3 & E4 & E5 & E6 & E7 & E8 & E9 & E10).
  unfold primitive_of.
  rewrite ?Z.eqb_refl, ?E1, ?E2, ?E3, ?E4, ?E5, ?E6, ?E7, ?E8, ?E9, ?E10.
  repeat split.
Qed.

Lemma convertedb_true (NGHOST : Z) (pmb : MeshBlock) (k j i : Z) :
  converted NGHOST pmb k j i <-> convertedb NGHOST pmb k j i = true.
Proof.
  unfold converted, convertedb.
  destruct (Z.leb_spec (eos_kl NGHOST pmb) k),
    (Z.leb_spec k (eos_ku NGHOST pmb)),
    (Z.leb_spec (eos_jl NGHOST pmb) j), (Z.leb_spec j (eos_ju NGHOST pmb)),
    (Z.leb_spec (blk_is pmb - NGHOST) i), (Z.leb_spec i (blk_ie pmb + NGHOST));
    simpl; split; intros Hc; try reflexivity; try discriminate; lia.
Qed.

(** X16: the conversion overwrites only the five fluid variables of the
    cells its loops visit ([k] and [j] extended by the ghost width only when
    the block has more than one cell in that direction, [i] always): every
    entry of [prim] outside those cells, and every entry of another
    variable, is left as it was. *)
Theorem conversion_leaves_other_entries
    (IDN IVX IVY IVZ IEN NGHOST : Z) (gamma : Real) (pmb : MeshBlock)
    (cons prim_old prim : Array4) (n k j i : Z) :
  ~ converted NGHOST pmb k j i \/ ~ In n [IDN; IVX; IVY; IVZ; IEN] ->
  ConservedToPrimitive IDN IVX IVY IVZ IEN NGHOST gamma pmb cons prim_old prim
    n k j i
  = prim n k j i.
Proof.
  intros H. rewrite ConservedToPrimitive_spec.
  destruct (convertedb NGHOST pmb k j i) eqn:Ec; [|reflexivity].
  apply convertedb_true in Ec.
  destruct H as [H|H]; [contradiction|].
  unfold primitive_of.
  destruct (Z.eqb_spec n IEN) as [->|_]; [exfalso; apply H; simpl; auto 6|].
  destruct (Z.eqb_spec n IVZ) as [->|_]; [exfalso; apply H; simpl; auto 6|].
  destruct (Z.eqb_spec n IVY) as [->|_]; [exfalso; apply H; simpl; auto 6|].
  destruct (Z.eqb_spec n IVX) as [->|_]; [exfalso; apply H; simpl; auto 6|].
  destruct (Z.eqb_spec n IDN) as [->|_]; [exfalso; apply H; simpl; auto 6|].
  reflexivity.
Qed.

(** A block with one cell in x2 and x3: [is = 2], [ie = 5],
    [js = je = ks = ke = 0]. *)
Definition pencil_block : MeshBlock := mkMeshBlock 2 5 0 0 0 0 1 1.

Lemma conversion_leaves_other_entries_witness :
  ConservedToPrimitive 0 1 2 3 4 2 (Fin 2) pencil_block
    (fun _ _ _ _ => Fin 1) (fun _ _ _ _ => Fin 0) (fun _ _ _ _ => Fin 0)
    0 0 1 3
  = Fin 0.
Proof.
  apply (@conversion_leaves_other_entries 0 1 2 3 4 2 (Fin 2) pencil_block
           (fun _ _ _ _ => Fin 1) (fun _ _ _ _ => Fin 0)
           (fun _ _ _ _ => Fin 0) 0 0 1 3).
  left. unfold converted, eos_jl, eos_ju, eos_kl, eos_ku. simpl. lia.
Defined.

(** X17: the conversion inverts the usual definition of the conserved
    variables.  In a visited cell whose conserved variables are
    [(d, d v, p / (gamma - 1) + d |v|^2 / 2)] with [d <> 0] and
    [gamma <> 1], it stores the density [d], the velocity [v] and the
    pressure [p] (arithmetic without rounding); and when
    [gamma p / d >= 0] the sound speed computed from the stored values is
    [sqrt (gamma p / d)]. *)
Theorem conversion_recovers_primitives
    (IDN IVX IVY IVZ IEN NGHOST : Z) (g : R) (pmb : MeshBlock)
    (cons prim_old prim : Array4) (k j i : Z) (d vx vy vz p : R) :
  NoDup [IDN; IVX; IVY; IVZ; IEN] ->
  converted NGHOST pmb k j i ->
  d <> 0%R -> g <> 1%R ->
  cons IDN k j i = Fin d ->
  cons IVX k j i = Fin (d * vx) ->
  cons IVY k j i = Fin (d * vy) ->
  cons IVZ k j i = Fin (d * vz) ->
  cons IEN k j i
  = Fin (p / (g - 1) + d * (vx * vx + vy * vy + vz * vz) / 2) ->
  let w := ConservedToPrimitive IDN IVX IVY IVZ IEN NGHOST (Fin g) pmb
             cons prim_old prim in
  w IDN k j i = Fin d /\
  w IVX k j i = Fin vx /\ w IVY k j i = Fin vy /\ w IVZ k j i = Fin vz /\
  w IEN k j i = Fin p /\
  ((0 <= g * p / d)%R ->
   SoundSpeed IDN IEN (Fin g) (fun n => w n k j i) = Fin (sqrt (g * p / d))).
Proof.
  intros Hd Hc Hd0 Hg1 Ed Ex Ey Ez Ee w.
  apply convertedb_true in Hc.
  assert (Hw : forall n,
            w n k j i
            = primitive_of IDN IVX IVY IVZ IEN (Fin g) cons k j i n
                (prim n k j i)).
  { intros n. unfold w. rewrite ConservedToPrimitive_spec. now rewrite Hc. }
  assert (Hdi : (Fin 1 / Fin d)%xr = Fin (1 / d)) by (apply fdiv_fin; exact Hd0).
  assert (W0 : w IDN k j i = Fin d).
  { rewrite Hw.
    destruct (@primitive_of_variables IDN IVX IVY IVZ IEN (Fin g) cons k j i
                (prim IDN k j i) Hd) as (P0 & _).
    now rewrite P0. }
  assert (W4 : w IEN k j i = Fin p).
  { rewrite Hw.
    destruct (@primitive_of_variables IDN IVX IVY IVZ IEN (Fin g) cons k j i
                (prim IEN k j i) Hd) as (_ & _ & _ & _ & P4).
    rewrite P4, Ed, Ex, Ey, Ez, Ee, Hdi.
    unfold fsub, fneg, fadd, fmul. f_equal. field. lra. }
  split; [exact W0|].
  split.
  { rewrite Hw.
    destruct (@primitive_of_variables IDN IVX IVY IVZ IEN (Fin g) cons k j i
                (prim IVX k j i) Hd) as (_ & P1 & _).
    rewrite P1, Ed, Ex, Hdi. unfold fmul. f_equal. field. exact Hd0. }
  split.
  { rewrite Hw.
    destruct (@primitive_of_variables IDN IVX IVY IVZ IEN (Fin g) cons k j i
                (prim IVY k j i) Hd) as (_ & _ & P2 & _).
    rewrite P2, Ed, Ey, Hdi. unfold fmul. f_equal. field. exact Hd0. }
  split.
  { rewrite Hw.
    destruct (@primitive_of_variables IDN IVX IVY IVZ IEN (Fin g) cons k j i
                (prim IVZ k j i) Hd) as (_ & _ & _ & P3 & _).
    rewrite P3, Ed, Ez, Hdi. unfold fmul. f_equal. field. exact Hd0. }
  split; [exact W4|].
  intros Hpos. unfold SoundSpeed. rewrite W0, W4.
  unfold fmul. rewrite fdiv_fin by exact Hd0. unfold fsqrt.
  destruct (Rlt_dec (g * p / d) 0); [lra | reflexivity].
Qed.

Lemma conversion_recovers_primitives_witness :
  let w := ConservedToPrimitive 0 1 2 3 4 2 (Fin 2) pencil_block
             (fun n _ _ _ =>
                if n =? 0 then Fin 3
                else if n =? 1 then Fin (3 * 1)
                else if n =? 2 then Fin (3 * 0)
                else if n =? 3 then Fin (3 * 0)
                else Fin (5 / (2 - 1) + 3 * (1 * 1 + 0 * 0 + 0 * 0) / 2))
             (fun _ _ _ _ => Fin 0) (fun _ _ _ _ => Fin 0) in
  w 0 0 0 3 = Fin 3 /\
  w 1 0 0 3 = Fin 1 /\ w 2 0 0 3 = Fin 0 /\ w 3 0 0 3 = Fin 0 /\
  w 4 0 0 3 = Fin 5 /\
  ((0 <= 2 * 5 / 3)%R ->
   SoundSpeed 0 4 (Fin 2) (fun n => w n 0 0 3) = Fin (sqrt (2 * 5 / 3))).
Proof.
  apply (@conversion_recovers_primitives 0 1 2 3 4 2 2 pencil_block
           (fun n _ _ _ =>
              if n =? 0 then Fin 3
              else if n =? 1 then Fin (3 * 1)
              else if n =? 2 then Fin (3 * 0)
              else if n =? 3 then Fin (3 * 0)
              else Fin (5 / (2 - 1) + 3 * (1 * 1 + 0 * 0 + 0 * 0) / 2))
           (fun _ _ _ _ => Fin 0) (fun _ _ _ _ => Fin 0) 0 0 3 3 1 0 0 5);
    try reflexivity; try lra.
  - repeat constructor; simpl; lia.
  - unfold converted, eos_jl, eos_ju, eos_kl, eos_ku. simpl. lia.
Defined.

(** X18: there is no floor on the density.  In a visited cell whose
    conserved density is zero the stored density is zero and none of the
    three velocities nor the pressure is a finite number (each is an
    infinity or NaN), whatever the momenta, the energy and [gamma] are. *)
Theorem vacuum_cell_is_not_finite
    (IDN IVX IVY IVZ IEN NGHOST : Z) (gamma : Real) (pmb : MeshBlock)
    (cons prim_old prim : Array4) (k j i : Z) :
  NoDup [IDN; IVX; IVY; IVZ; IEN] ->
  converted NGHOST pmb k j i ->
  cons IDN k j i = Fin 0 ->
  let w := ConservedToPrimitive IDN IVX IVY IVZ IEN NGHOST gamma pmb
             cons prim_old prim in
  w IDN k j i = Fin 0 /\
  is_finite (w IVX k j i) = false /\ is_finite (w IVY k j i) = false /\
  is_finite (w IVZ k j i) = false /\ is_finite (w IEN k j i) = false.
Proof.
  intros Hd Hc E0 w.
  apply convertedb_true in Hc.
  assert (Hw : forall n,
            w n k j i
            = primitive_of IDN IVX IVY IVZ IEN gamma cons k j i n
                (prim n k j i)).
  { intros n. unfold w. rewrite ConservedToPrimitive_spec. now rewrite Hc. }
  rewrite !Hw.
  destruct (@primitive_of_variables IDN IVX IVY IVZ IEN gamma cons k j i
              (prim IDN k j i) Hd) as (P0 & _).
  destruct (@primitive_of_variables IDN IVX IVY IVZ IEN gamma cons k j i
              (prim IVX k j i) Hd) as (_ & P1 & _).
  destruct (@primitive_of_variables IDN IVX IVY IVZ IEN gamma cons k j i
              (prim IVY k j i) Hd) as (_ & _ & P2 & _).
  destruct (@primitive_of_variables IDN IVX IVY IVZ IEN gamma cons k j i
              (prim IVZ k j i) Hd) as (_ & _ & _ & P3 & _).
  destruct (@primitive_of_variables IDN IVX IVY IVZ IEN gamma cons k j i
              (prim IEN k j i) Hd) as (_ & _ & _ & _ & P4).
  rewrite P0, P1, P2, P3, P4, E0, reciprocal_of_zero.
  split; [reflexivity|].
  repeat split; try (apply fmul_not_finite_r; reflexivity).
  apply fmul_not_finite_l, fsub_not_finite_r, fmul_not_finite_l.
  apply fmul_not_finite_r. reflexivity.
Qed.

Lemma vacuum_cell_is_not_finite_witness :
  let w := ConservedToPrimitive 0 1 2 3 4 2 (Fin 2) pencil_block
             (fun _ _ _ _ => Fin 0) (fun _ _ _ _ => Fin 0)
             (fun _ _ _ _ => Fin 0) in
  w 0 0 0 3 = Fin 0 /\
  is_finite (w 1 0 0 3) = false /\ is_finite (w 2 0 0 3) = false /\
  is_finite (w 3 0 0 3) = false /\ is_finite (w 4 0 0 3) = false.
Proof.
  apply (@vacuum_cell_is_not_finite 0 1 2 3 4 2 (Fin 2) pencil_block
           (fun _ _ _ _ => Fin 0) (fun _ _ _ _ => Fin 0)
           (fun _ _ _ _ => Fin 0) 0 0 3).
  - repeat constructor; simpl; lia.
  - unfold converted, eos_jl, eos_ju, eos_kl, eos_ku. simpl. lia.
  - reflexivity.
Defined.
